(** * dui: the value codec, the paginated backend calls and the interaction
    state machine of the DynamoDB terminal client, embedded in Rocq.

    Go values are modelled as follows.
    - [string] and [[]byte] are byte strings ([string]); [len] is
      [String.length] and [s[i:j]] is [substring].
    - [int] is [Z].
    - [map[string]T] is [gmap string T]; [map[int]bool] is [gmap Z bool].
    - [error] is the text returned by [Error()]; a nil error is [None].
    - a call that returns [(T, error)] returns [Result T].
    - functions of the Go standard library and of the terminal toolkit that
      the program calls are the operations of the class [GoLib]. *)

From Stdlib Require Import ZArith NArith Ascii String List Lia DecimalString.
From stdpp Require Import base option gmap strings list sorting.

Set Warnings "-register-all".
Set Default Proof Using "Type".

(** ** Results of fallible calls *)

Definition error := string.

Inductive Result (A : Type) : Type :=
| Ok (a : A)
| Err (e : error).
Arguments Ok {A} a.
Arguments Err {A} e.

Definition rbind {A B} (r : Result A) (k : A → Result B) : Result B :=
  match r with
  | Ok a => k a
  | Err e => Err e
  end.

Definition rmap {A B} (f : A → B) (r : Result A) : Result B :=
  rbind r (λ a, Ok (f a)).

Fixpoint rsequence {A} (l : list (Result A)) : Result (list A) :=
  match l with
  | [] => Ok []
  | r :: l' => rbind r (λ a, rmap (cons a) (rsequence l'))
  end.

Definition is_Ok {A} (r : Result A) : bool :=
  match r with Ok _ => true | Err _ => false end.

(** ** Byte-exact helpers of package [strings] and of [fmt] *)

Module Go.

Definition len (s : string) : Z := Z.of_nat (String.length s).

(** [s[i:j]] for [0 <= i <= j <= len s]. *)
Definition slice (s : string) (i j : Z) : string :=
  substring (Z.to_nat i) (Z.to_nat (j - i)) s.

(** [s[i:]]. *)
Definition slice_from (s : string) (i : Z) : string := slice s i (len s).

(** [s[:j]]. *)
Definition slice_to (s : string) (j : Z) : string := slice s 0 j.

Definition HasPrefix (s pre : string) : bool := String.prefix pre s.

Definition HasSuffix (s suf : string) : bool :=
  String.prefix (String.rev suf) (String.rev s).

Definition TrimSuffix (s suf : string) : string :=
  if HasSuffix s suf then slice_to s (len s - len suf) else s.

(** [strings.LastIndex]: byte offset of the last occurrence of [sep] in
    [s], or [-1]. [i] is the offset of [s] in the whole string. *)
Fixpoint LastIndex_from (s sep : string) (i : Z) : Z :=
  match s with
  | EmptyString => if String.prefix sep s then i else (-1)%Z
  | String _ s' =>
      let r := LastIndex_from s' sep (i + 1) in
      if (r =? -1)%Z then (if String.prefix sep s then i else (-1)%Z) else r
  end.

Definition LastIndex (s sep : string) : Z := LastIndex_from s sep 0.

Fixpoint Contains (s sub : string) : bool :=
  String.prefix sub s ||
  match s with
  | EmptyString => false
  | String _ s' => Contains s' sub
  end.

(** [strings.SplitN(s, sep, 2)] for a one-byte separator. *)
Fixpoint SplitN2 (s : string) (sep : ascii) : list string :=
  match s with
  | EmptyString => [s]
  | String c s' =>
      if Ascii.eqb c sep then [EmptyString; s']
      else match SplitN2 s' sep with
           | [a] => [String c a]
           | a :: rest => String c a :: rest
           | [] => []
           end
  end.

Fixpoint Join (l : list string) (sep : string) : string :=
  match l with
  | [] => EmptyString
  | [a] => a
  | a :: l' => a +:+ sep +:+ Join l' sep
  end.

(** The double quote and the newline, and [s] between double quotes
    (which is also [%q] on a text without special characters). *)
Definition dquote : string := String (ascii_of_nat 34) EmptyString.
Definition newline : string := String (ascii_of_nat 10) EmptyString.
Definition Quote (s : string) : string := dquote +:+ s +:+ dquote.

(** [len(l)] for a slice. *)
Definition count {A} (l : list A) : Z := Z.of_nat (length l).

(** [strconv.Itoa], the [%d] verb. *)
Definition Itoa (z : Z) : string := NilZero.string_of_int (Z.to_int z).

Definition byte_val (c : ascii) : Z := Z.of_N (N_of_ascii c).

Definition bytes_of (s : string) : list ascii := list_ascii_of_string s.

(** How [%v] prints a [[]byte]: the decimal byte values. *)
Definition fmt_bytes (b : string) : string :=
  "[" +:+ Join ((λ c, Itoa (byte_val c)) <$> bytes_of b) " " +:+ "]".

Definition fmt_bool (b : bool) : string := if b then "true" else "false".

(** *** [encoding/base64.StdEncoding], used by [json.Marshal] on [[]byte] *)

Definition b64_alphabet : string :=
  "ABCDEFGHIJKLMNOPQRSTUVWXYZabcdefghijklmnopqrstuvwxyz0123456789+/".

Definition b64_char (n : Z) : ascii :=
  match String.get (Z.to_nat n) b64_alphabet with
  | Some c => c
  | None => "="%char
  end.

Fixpoint b64_groups (fuel : nat) (l : list Z) : list ascii :=
  match fuel with
  | O => []
  | S fuel' =>
      match l with
      | [] => []
      | [a] =>
          [b64_char (a / 4); b64_char ((a mod 4) * 16); "="; "="]%char
      | [a; b] =>
          [b64_char (a / 4); b64_char ((a mod 4) * 16 + b / 16);
           b64_char ((b mod 16) * 4); "="%char]
      | a :: b :: c :: l' =>
          b64_char (a / 4) :: b64_char ((a mod 4) * 16 + b / 16)
          :: b64_char ((b mod 16) * 4 + c / 64) :: b64_char (c mod 64)
          :: b64_groups fuel' l'
      end
  end%Z.

Definition base64 (b : string) : string :=
  string_of_list_ascii
    (b64_groups (S (String.length b)) (byte_val <$> bytes_of b)).

(** *** [isValidNumber] of [encoding/json], used on [json.Number] *)

Definition is_digit (c : ascii) : bool :=
  (48 <=? byte_val c)%Z && (byte_val c <=? 57)%Z.

Fixpoint skip_digits (s : string) : string :=
  match s with
  | String c s' => if is_digit c then skip_digits s' else s
  | EmptyString => s
  end.

Definition skip_int (s : string) : option string :=
  match s with
  | String c s' =>
      if Ascii.eqb c "0" then Some s'
      else if is_digit c then Some (skip_digits s')
      else None
  | EmptyString => None
  end.

Definition skip_frac (s : string) : string :=
  match s with
  | String "." (String d s') => if is_digit d then skip_digits s' else s
  | _ => s
  end.

Definition skip_exp (s : string) : option string :=
  match s with
  | String e (String c s') =>
      if Ascii.eqb e "e" || Ascii.eqb e "E" then
        if Ascii.eqb c "+" || Ascii.eqb c "-" then
          match s' with
          | EmptyString => None
          | _ => Some (skip_digits s')
          end
        else Some (skip_digits (String c s'))
      else Some s
  | _ => Some s
  end.

Definition isValidNumber (s : string) : bool :=
  match s with
  | EmptyString => false
  | String c s' =>
      let s1 := if Ascii.eqb c "-" then s' else s in
      match skip_int s1 with
      | None => false
      | Some s2 =>
          match skip_exp (skip_frac s2) with
          | Some EmptyString => true
          | _ => false
          end
      end
  end.

End Go.

(** ** JSON documents

    The syntax tree of a JSON text. A number keeps its literal, an object
    keeps its members in the order of the text. *)

Inductive json :=
| JNull
| JBool (b : bool)
| JNum (lit : string)
| JStr (s : string)
| JArr (l : list json)
| JObj (members : list (string * json)).

(** ** Go's dynamic values

    The dynamic type [any], with the dynamic types the codec meets. [F] is
    the type of a float64. *)
Inductive AnyOf (F : Type) :=
| ANil
| ABool (b : bool)
| AFloat64 (f : F)
| AInt (z : Z)
| AInt64 (z : Z)
| AString (s : string)
| ANumber (s : string)                (* json.Number *)
| ABytes (b : string)                 (* []byte *)
| AList (l : list (AnyOf F))          (* []any *)
| AMap (m : gmap string (AnyOf F))    (* map[string]any *)
| AStrings (l : list string)          (* []string *)
| ABytesList (l : list string).       (* [][]byte *)
Arguments ANil {F}.
Arguments ABool {F} b.
Arguments AFloat64 {F} f.
Arguments AInt {F} z.
Arguments AInt64 {F} z.
Arguments AString {F} s.
Arguments ANumber {F} s.
Arguments ABytes {F} b.
Arguments AList {F} l.
Arguments AMap {F} m.
Arguments AStrings {F} l.
Arguments ABytesList {F} l.

(** ** The Go standard library

    What the program calls and does not define: float64 and its printing,
    the scanner and printer of [encoding/json], the Unicode-aware functions
    of [strings], and [fmt.Sscanf]. *)

Class GoLib := {
  float64 : Type;
  (** [strconv.ParseFloat(lit, 64)] on a JSON number literal; [None] is a
      range error. *)
  ParseFloat : string → option float64;
  (** The [%v] verb on a float64. *)
  FormatFloat : float64 → string;
  (** How [json.Marshal] writes a float64 (an error for NaN and Inf). *)
  MarshalFloat : float64 → Result string;
  (** The scanner of [encoding/json]: the syntax tree of a text, or the
      syntax error. *)
  json_parse : string → Result json;
  (** The printers behind [json.Marshal] and behind [json.MarshalIndent]
      with no prefix and an indent of two spaces. *)
  json_print : json → string;
  json_print_indent : json → string;
  ToUpper : string → string;
  ToLower : string → string;
  TrimSpace : string → string;
  Fields : string → list string;
  (** Whether [fmt.Sscanf(s, "%f", new(float64))] returns a nil error. *)
  Sscanf_float : string → bool;
}.

Abbreviation Any := (AnyOf float64).

(** ** The record model *)

(** [types.AttributeValue]: the tagged values of a record. *)
Inductive AttributeValue :=
| AttributeValueMemberS (Value : string)
| AttributeValueMemberN (Value : string)
| AttributeValueMemberBOOL (Value : bool)
| AttributeValueMemberNULL (Value : bool)
| AttributeValueMemberL (Value : list AttributeValue)
| AttributeValueMemberM (Value : gmap string AttributeValue)
| AttributeValueMemberSS (Value : list string)
| AttributeValueMemberNS (Value : list string)
| AttributeValueMemberB (Value : string)
| AttributeValueMemberBS (Value : list string).

(** A record: [map[string]types.AttributeValue]. *)
Abbreviation Item := (gmap string AttributeValue).

Definition sort_members {A} (l : list (string * A)) : list (string * A) :=
  merge_sort (λ a b, String.le a.1 b.1) l.

(** An object of a JSON text as a Go map: a later member wins. *)
Definition members_to_map {A} (l : list (string * A)) : gmap string A :=
  fold_left (λ m kv, <[kv.1 := kv.2]> m) l ∅.

Section Codec.
Context `{GoLib}.

(** [fmt.Sprintf("%v", v)]. A map prints its keys in sorted order. *)
Fixpoint Sprintf_v (v : Any) : string :=
  match v with
  | ANil => "<nil>"
  | ABool b => Go.fmt_bool b
  | AFloat64 f => FormatFloat f
  | AInt z | AInt64 z => Go.Itoa z
  | AString s | ANumber s => s
  | ABytes b => Go.fmt_bytes b
  | AList l => "[" +:+ Go.Join (Sprintf_v <$> l) " " +:+ "]"
  | AMap m =>
      "map[" +:+
      Go.Join ((λ kv, kv.1 +:+ ":" +:+ kv.2) <$>
               sort_members (map_to_list (Sprintf_v <$> m))) " "
      +:+ "]"
  | AStrings l => "[" +:+ Go.Join l " " +:+ "]"
  | ABytesList l => "[" +:+ Go.Join (Go.fmt_bytes <$> l) " " +:+ "]"
  end.

(** *** [encoding/json] on dynamic values *)

(** The document [json.Marshal] writes for a value. Object members are
    sorted by key, a [[]byte] is written in base64, and a [json.Number]
    must be a number literal. Slices are taken to be non-nil. *)
Fixpoint Marshal_value (v : Any) : Result json :=
  match v with
  | ANil => Ok JNull
  | ABool b => Ok (JBool b)
  | AFloat64 f => rmap JNum (MarshalFloat f)
  | AInt z | AInt64 z => Ok (JNum (Go.Itoa z))
  | AString s => Ok (JStr s)
  | ANumber s =>
      let numStr := if decide (s = EmptyString) then "0" else s in
      if Go.isValidNumber numStr then Ok (JNum numStr)
      else Err ("json: invalid number literal " +:+ Go.Quote numStr)
  | ABytes b => Ok (JStr (Go.base64 b))
  | AList l => rmap JArr (rsequence (Marshal_value <$> l))
  | AMap m =>
      rmap JObj
        (rsequence
           ((λ kv, rmap (pair kv.1) kv.2) <$>
            sort_members (map_to_list (Marshal_value <$> m))))
  | AStrings l => Ok (JArr (JStr <$> l))
  | ABytesList l => Ok (JArr ((λ b, JStr (Go.base64 b)) <$> l))
  end.

Definition json_Marshal (v : Any) : Result string :=
  rmap json_print (Marshal_value v).

Definition json_MarshalIndent (v : Any) : Result string :=
  rmap json_print_indent (Marshal_value v).

(** The value [json.Unmarshal] stores into an [any]: a number becomes a
    float64, an array a [[]any], an object a [map[string]any]. *)
Fixpoint Unmarshal_value (t : json) : Result Any :=
  match t with
  | JNull => Ok ANil
  | JBool b => Ok (ABool b)
  | JNum lit =>
      match ParseFloat lit with
      | Some f => Ok (AFloat64 f)
      | None =>
          Err ("json: cannot unmarshal number " +:+ lit +:+
               " into Go value of type float64")
      end
  | JStr s => Ok (AString s)
  | JArr l => rmap AList (rsequence (Unmarshal_value <$> l))
  | JObj members =>
      rmap (λ l, AMap (members_to_map l))
        (rsequence
           ((λ kv, rmap (pair kv.1) (Unmarshal_value kv.2)) <$> members))
  end.

Definition json_kind (t : json) : string :=
  match t with
  | JNull => "null"
  | JBool _ => "bool"
  | JNum _ => "number"
  | JStr _ => "string"
  | JArr _ => "array"
  | JObj _ => "object"
  end.

(** [json.Unmarshal(text, &m)] for [var m map[string]any]: [null] leaves
    the nil map. *)
Definition Unmarshal_map (text : string) : Result (gmap string Any) :=
  rbind (json_parse text) (λ t,
    match t with
    | JNull => Ok ∅
    | JObj _ =>
        rbind (Unmarshal_value t) (λ v,
          match v with AMap m => Ok m | _ => Ok ∅ end)
    | _ =>
        Err ("json: cannot unmarshal " +:+ json_kind t +:+
             " into Go value of type map[string]interface {}")
    end).

(** [json.Unmarshal(text, &list)] for [var list []any]. *)
Definition Unmarshal_list (text : string) : Result (list Any) :=
  rbind (json_parse text) (λ t,
    match t with
    | JNull => Ok []
    | JArr _ =>
        rbind (Unmarshal_value t) (λ v,
          match v with AList l => Ok l | _ => Ok [] end)
    | _ =>
        Err ("json: cannot unmarshal " +:+ json_kind t +:+
             " into Go value of type []interface {}")
    end).

(** *** Record to JSON text *)

Fixpoint attrToInterface (av : AttributeValue) : Any :=
  match av with
  | AttributeValueMemberS v => AString v
  | AttributeValueMemberN v => ANumber v
  | AttributeValueMemberBOOL v => ABool v
  | AttributeValueMemberNULL _ => ANil
  | AttributeValueMemberL v => AList (attrToInterface <$> v)
  | AttributeValueMemberM v => AMap (attrToInterface <$> v)
  | AttributeValueMemberSS v => AStrings v
  | AttributeValueMemberNS v => AStrings v
  | AttributeValueMemberB v => ABytes v
  | AttributeValueMemberBS v => ABytesList v
  end.

Definition attributeValueToInterface (item : Item) : gmap string Any :=
  attrToInterface <$> item.

Definition ItemToJSON (item : Item) : string :=
  let simplified := attributeValueToInterface item in
  match json_Marshal (AMap simplified) with
  | Err err => "error: " +:+ err
  | Ok data => data
  end.

Definition ItemToPrettyJSON (item : Item) : string :=
  let simplified := attributeValueToInterface item in
  match json_MarshalIndent (AMap simplified) with
  | Err err => "error: " +:+ err
  | Ok data => data
  end.

(** *** JSON text to record *)

Inductive TypeHint :=
| HintS | HintN | HintBOOL | HintNULL | HintL | HintM
| HintSS | HintNS | HintB | HintBS.

(** The cases of [switch strings.ToUpper(typeHint)]. *)
Definition hintCase (typeHint : string) : option TypeHint :=
  let h := ToUpper typeHint in
  if decide (h = "S") then Some HintS
  else if decide (h = "N") then Some HintN
  else if decide (h = "BOOL") then Some HintBOOL
  else if decide (h = "NULL") then Some HintNULL
  else if decide (h = "L") then Some HintL
  else if decide (h = "M") then Some HintM
  else if decide (h = "SS") then Some HintSS
  else if decide (h = "NS") then Some HintNS
  else if decide (h = "B") then Some HintB
  else if decide (h = "BS") then Some HintBS
  else None.

(** The members of a hinted set, from the elements of an array. *)
Definition setMembers (v : list Any) : list string := Sprintf_v <$> v.

Definition binaryMembers (v : list Any) : list string :=
  (λ item, match item with ABytes b => b | _ => Sprintf_v item end) <$> v.

Definition setMarker (marker : string) (members : Any) : Any :=
  AMap {[ marker := members ]}.

(** [convertValueWithTypeHint]. Its recursive calls of [processTypeHints]
    go through [processTypeHints]; [None] means that the recursion was
    cut off. *)
Definition convertValueWithTypeHint
    (processTypeHints : gmap string Any → option (Result (gmap string Any)))
    (value : Any) (typeHint : string) : option (Result Any) :=
  match hintCase typeHint with
  | Some HintS => Some (Ok (AString (Sprintf_v value)))
  | Some HintN =>
      match value with
      | ANumber _ => Some (Ok value)
      | AFloat64 _ | AInt _ | AInt64 _ => Some (Ok value)
      | AString v => Some (Ok (ANumber v))
      | _ => Some (Ok (ANumber (Sprintf_v value)))
      end
  | Some HintBOOL =>
      match value with
      | ABool _ => Some (Ok value)
      | AString v => Some (Ok (ABool (bool_decide (ToLower v = "true"))))
      | _ => Some (Err ("cannot convert " +:+ Sprintf_v value +:+ " to boolean"))
      end
  | Some HintNULL => Some (Ok ANil)
  | Some HintL =>
      match value with
      | AList _ => Some (Ok value)
      | AString v =>
          match Unmarshal_list v with
          | Err err => Some (Err ("cannot parse list: " +:+ err))
          | Ok list => Some (Ok (AList list))
          end
      | _ => Some (Ok (AList [value]))
      end
  | Some HintM =>
      match value with
      | AMap v => option_map (rmap AMap) (processTypeHints v)
      | AString v =>
          match Unmarshal_map v with
          | Err err => Some (Err ("cannot parse map: " +:+ err))
          | Ok m => option_map (rmap AMap) (processTypeHints m)
          end
      | _ => Some (Err ("cannot convert " +:+ Sprintf_v value +:+ " to map"))
      end
  | Some HintSS =>
      match value with
      | AList v => Some (Ok (setMarker "__SS" (AStrings (setMembers v))))
      | AString v =>
          match Unmarshal_list v with
          | Err _ => Some (Ok (setMarker "__SS" (AStrings [v])))
          | Ok list => Some (Ok (setMarker "__SS" (AStrings (setMembers list))))
          end
      | _ => Some (Ok (setMarker "__SS" (AStrings [Sprintf_v value])))
      end
  | Some HintNS =>
      match value with
      | AList v => Some (Ok (setMarker "__NS" (AStrings (setMembers v))))
      | AString v =>
          match Unmarshal_list v with
          | Err _ => Some (Ok (setMarker "__NS" (AStrings [v])))
          | Ok list => Some (Ok (setMarker "__NS" (AStrings (setMembers list))))
          end
      | _ => Some (Ok (setMarker "__NS" (AStrings [Sprintf_v value])))
      end
  | Some HintB =>
      match value with
      | ABytes _ => Some (Ok value)
      | AString v => Some (Ok (ABytes v))
      | _ => Some (Ok (ABytes (Sprintf_v value)))
      end
  | Some HintBS =>
      match value with
      | AList v => Some (Ok (setMarker "__BS" (ABytesList (binaryMembers v))))
      | AString v =>
          match Unmarshal_list v with
          | Err _ => Some (Ok (setMarker "__BS" (ABytesList [v])))
          | Ok list =>
              Some (Ok (setMarker "__BS" (ABytesList (binaryMembers list))))
          end
      | _ => Some (Ok (setMarker "__BS" (ABytesList [Sprintf_v value])))
      end
  | None => Some (Err ("unknown type hint: " +:+ typeHint))
  end.

(** The test of [processTypeHints] on a key: the clean key and the type
    hint when the key ends in [<TYPE>]. *)
Definition splitTypeHint (key : string) : option (string * string) :=
  let idx := Go.LastIndex key "<" in
  if negb (idx =? -1)%Z && Go.HasSuffix key ">" then
    let typeHint := Go.TrimSuffix (Go.slice_from key (idx + 1)) ">" in
    let cleanKey := Go.slice_to key idx in
    Some (cleanKey, typeHint)
  else None.

Definition hasTypeHint (key : string) : bool :=
  match splitTypeHint key with Some _ => true | None => false end.

Definition conversion_error (cleanKey typeHint err : string) : error :=
  "failed to convert " +:+ cleanKey +:+ " with type " +:+ typeHint +:+
  ": " +:+ err.

(** The loop of [processTypeHints] over the entries still to visit. *)
Fixpoint processEntries
    (convert : Any → string → option (Result Any))
    (entries : list (string * Any)) (result : gmap string Any)
    : option (Result (gmap string Any)) :=
  match entries with
  | [] => Some (Ok result)
  | (key, value) :: rest =>
      match splitTypeHint key with
      | Some (cleanKey, typeHint) =>
          match convert value typeHint with
          | None => None
          | Some (Err err) =>
              Some (Err (conversion_error cleanKey typeHint err))
          | Some (Ok convertedValue) =>
              processEntries convert rest (<[cleanKey := convertedValue]> result)
          end
      | None => processEntries convert rest (<[key := value]> result)
      end
  end.

(** [processTypeHints]. Go visits the entries of a map in an unspecified
    order; the model visits them in the order of [map_to_list]. [fuel]
    bounds the depth of the calls through [M] hints, and [None] is returned
    when it runs out. *)
Fixpoint processTypeHints (fuel : nat) (data : gmap string Any)
    : option (Result (gmap string Any)) :=
  match fuel with
  | O => None
  | S fuel' =>
      processEntries (convertValueWithTypeHint (processTypeHints fuel'))
        (map_to_list data) ∅
  end.

Fixpoint valueToAttr (v : Any) : AttributeValue :=
  match v with
  | AString val => AttributeValueMemberS val
  | ANumber val => AttributeValueMemberN val
  | AFloat64 val => AttributeValueMemberN (FormatFloat val)
  | AInt val => AttributeValueMemberN (Go.Itoa val)
  | ABool val => AttributeValueMemberBOOL val
  | ANil => AttributeValueMemberNULL true
  | ABytes val => AttributeValueMemberB val
  | AList val => AttributeValueMemberL (valueToAttr <$> val)
  | AMap val =>
      match val !! "__SS" with
      | Some (AStrings ssSlice) => AttributeValueMemberSS ssSlice
      | _ =>
          match val !! "__NS" with
          | Some (AStrings nsSlice) => AttributeValueMemberNS nsSlice
          | _ =>
              match val !! "__BS" with
              | Some (ABytesList bsSlice) => AttributeValueMemberBS bsSlice
              | _ => AttributeValueMemberM (valueToAttr <$> val)
              end
          end
      end
  | AInt64 _ | AStrings _ | ABytesList _ =>
      AttributeValueMemberS (Sprintf_v v)
  end.

Definition interfaceToAttributeValue (data : gmap string Any) : Item :=
  valueToAttr <$> data.

Definition JSONToItem (fuel : nat) (jsonStr : string)
    : option (Result Item) :=
  match Unmarshal_map jsonStr with
  | Err err => Some (Err ("invalid JSON: " +:+ err))
  | Ok data =>
      match processTypeHints fuel data with
      | None => None
      | Some (Err err) => Some (Err err)
      | Some (Ok processedData) =>
          Some (Ok (interfaceToAttributeValue processedData))
      end
  end.

(** [ParseKeyValue]: the key, and the value as a Number when it scans as
    a float and holds no quote, else as a String. *)
Definition ParseKeyValue (keyValue : string)
    : Result (string * AttributeValue) :=
  match Go.SplitN2 keyValue "=" with
  | [k; v] =>
      let key := TrimSpace k in
      let value := TrimSpace v in
      if Sscanf_float value && negb (Go.Contains value Go.dquote)
      then Ok (key, AttributeValueMemberN value)
      else Ok (key, AttributeValueMemberS value)
  | _ => Err ("invalid key=value format: " +:+ keyValue)
  end.

End Codec.

(** ** The paginated calls of the backend client *)

Record IndexInfo := {
  idx_Name : string;
  idx_PartitionKey : string;
  idx_SortKey : string;
}.

Record TableInfo := {
  Name : string;
  PartitionKey : string;
  SortKey : string;
  GlobalIndexes : list IndexInfo;
  LocalIndexes : list IndexInfo;
}.

Record ListTablesInput := {
  ExclusiveStartTableName : option string;
}.

Record ListTablesOutput := {
  TableNames : list string;
  LastEvaluatedTableName : option string;
}.

Record ScanInput := {
  scan_TableName : string;
  scan_IndexName : option string;
  scan_ExclusiveStartKey : option Item;
}.

Record ScanOutput := {
  scan_Items : list Item;
  scan_LastEvaluatedKey : option Item;
}.

Record QueryInput := {
  query_TableName : string;
  query_KeyConditionExpression : string;
  query_ExpressionAttributeValues : Item;
  query_IndexName : option string;
  query_ExclusiveStartKey : option Item;
}.

Record QueryOutput := {
  query_Items : list Item;
  query_LastEvaluatedKey : option Item;
}.

(** The client of the table store ([db.client]). The store is external and
    has a state of its own, of type [B]: a call takes the state and returns
    the next one. *)
Record Client (B : Type) := {
  client_ListTables : B → ListTablesInput → Result ListTablesOutput * B;
  client_Scan : B → ScanInput → Result ScanOutput * B;
  client_Query : B → QueryInput → Result QueryOutput * B;
  client_GetItem : B → string → Item → Result (option Item) * B;
  client_PutItem : B → string → Item → option error * B;
  client_DeleteItem : B → string → Item → option error * B;
}.
Arguments client_ListTables {B} _ _ _.
Arguments client_Scan {B} _ _ _.
Arguments client_Query {B} _ _ _.
Arguments client_GetItem {B} _ _ _ _.
Arguments client_PutItem {B} _ _ _ _.
Arguments client_DeleteItem {B} _ _ _ _.

(** [aws.String(indexName)] when the name is not empty. *)
Definition optIndexName (indexName : string) : option string :=
  if decide (indexName = EmptyString) then None else Some indexName.

Section DDB.
Context {B : Type} (client : Client B).

(** The loops have no bound in the program; [fuel] is the number of calls
    the model may make, and [None] is returned when it runs out. *)

Fixpoint ListTables_loop (fuel : nat) (b : B) (tables : list string)
    (lastTable : option string) : option (Result (list string) * B) :=
  match fuel with
  | O => None
  | S fuel' =>
      match client_ListTables client b
              {| ExclusiveStartTableName := lastTable |} with
      | (Err err, b') => Some (Err ("failed to list tables: " +:+ err), b')
      | (Ok out, b') =>
          let tables := tables ++ TableNames out in
          match LastEvaluatedTableName out with
          | None => Some (Ok tables, b')
          | Some t => ListTables_loop fuel' b' tables (Some t)
          end
      end
  end.

Definition ListTables (fuel : nat) (b : B)
    : option (Result (list string) * B) :=
  ListTables_loop fuel b [] None.

Fixpoint Scan_loop (fuel : nat) (b : B) (tableName : string)
    (indexName : option string) (items : list Item) (lastKey : option Item)
    : option (Result (list Item) * B) :=
  match fuel with
  | O => None
  | S fuel' =>
      match client_Scan client b
              {| scan_TableName := tableName; scan_IndexName := indexName;
                 scan_ExclusiveStartKey := lastKey |} with
      | (Err err, b') => Some (Err ("scan failed: " +:+ err), b')
      | (Ok out, b') =>
          let items := items ++ scan_Items out in
          match scan_LastEvaluatedKey out with
          | None => Some (Ok items, b')
          | Some k => Scan_loop fuel' b' tableName indexName items (Some k)
          end
      end
  end.

Definition Scan (fuel : nat) (b : B) (tableName indexName : string)
    : option (Result (list Item) * B) :=
  Scan_loop fuel b tableName (optIndexName indexName) [] None.

Fixpoint Query_loop (fuel : nat) (b : B) (tableName : string)
    (indexName : option string) (keyCondition : string) (exprValues : Item)
    (items : list Item) (lastKey : option Item)
    : option (Result (list Item) * B) :=
  match fuel with
  | O => None
  | S fuel' =>
      match client_Query client b
              {| query_TableName := tableName;
                 query_KeyConditionExpression := keyCondition;
                 query_ExpressionAttributeValues := exprValues;
                 query_IndexName := indexName;
                 query_ExclusiveStartKey := lastKey |} with
      | (Err err, b') => Some (Err ("query failed: " +:+ err), b')
      | (Ok out, b') =>
          let items := items ++ query_Items out in
          match query_LastEvaluatedKey out with
          | None => Some (Ok items, b')
          | Some k =>
              Query_loop fuel' b' tableName indexName keyCondition
                exprValues items (Some k)
          end
      end
  end.

Definition Query (fuel : nat) (b : B) (tableName indexName : string)
    (keyCondition : string) (exprValues : Item)
    : option (Result (list Item) * B) :=
  Query_loop fuel b tableName (optIndexName indexName) keyCondition
    exprValues [] None.

Definition GetItem (b : B) (tableName : string) (key : Item)
    : Result (option Item) * B :=
  match client_GetItem client b tableName key with
  | (Err err, b') => (Err ("get item failed: " +:+ err), b')
  | (Ok item, b') => (Ok item, b')
  end.

Definition PutItem (b : B) (tableName : string) (item : Item)
    : option error * B :=
  match client_PutItem client b tableName item with
  | (Some err, b') => (Some ("put item failed: " +:+ err), b')
  | (None, b') => (None, b')
  end.

Definition DeleteItem (b : B) (tableName : string) (key : Item)
    : option error * B :=
  match client_DeleteItem client b tableName key with
  | (Some err, b') => (Some ("delete item failed: " +:+ err), b')
  | (None, b') => (None, b')
  end.

End DDB.

(** ** The interaction state machine *)

Inductive Mode :=
| ModeNormal
| ModeCommand
| ModeTableSelect
| ModeItemView
| ModeConfirmDelete
| ModeHelp
| ModeErrorView.

(** The session. [input] is the value of the text input; [err] is nil when
    [None]. The handle of the backend is not part of the model. *)
Record Model := {
  tables : list TableInfo;
  currentTable : Z;
  requestedTable : string;
  items : list Item;
  cursor : Z;
  selected : gmap Z bool;
  width : Z;
  height : Z;
  mode : Mode;
  input : string;
  keyBuffer : string;
  status : string;
  err : option error;
  viewContent : string;
  editTmpFile : string;
  editOrigContent : string;
  preserveStatus : bool;
  lastError : string;
}.

Definition set_tables (m : Model) (v : list TableInfo) : Model :=
  {| tables := v; currentTable := currentTable m; requestedTable :=
     requestedTable m; items := items m; cursor := cursor m; selected :=
     selected m; width := width m; height := height m; mode := mode m; input :=
     input m; keyBuffer := keyBuffer m; status := status m; err := err m;
     viewContent := viewContent m; editTmpFile := editTmpFile m;
     editOrigContent := editOrigContent m; preserveStatus := preserveStatus m;
     lastError := lastError m |}.

Definition set_currentTable (m : Model) (v : Z) : Model :=
  {| tables := tables m; currentTable := v; requestedTable := requestedTable
     m; items := items m; cursor := cursor m; selected := selected m; width :=
     width m; height := height m; mode := mode m; input := input m; keyBuffer
     := keyBuffer m; status := status m; err := err m; viewContent :=
     viewContent m; editTmpFile := editTmpFile m; editOrigContent :=
     editOrigContent m; preserveStatus := preserveStatus m; lastError :=
     lastError m |}.

Definition set_requestedTable (m : Model) (v : string) : Model :=
  {| tables := tables m; currentTable := currentTable m; requestedTable :=
     v; items := items m; cursor := cursor m; selected := selected m; width :=
     width m; height := height m; mode := mode m; input := input m; keyBuffer
     := keyBuffer m; status := status m; err := err m; viewContent :=
     viewContent m; editTmpFile := editTmpFile m; editOrigContent :=
     editOrigContent m; preserveStatus := preserveStatus m; lastError :=
     lastError m |}.

Definition set_items (m : Model) (v : list Item) : Model :=
  {| tables := tables m; currentTable := currentTable m; requestedTable :=
     requestedTable m; items := v; cursor := cursor m; selected := selected m;
     width := width m; height := height m; mode := mode m; input := input m;
     keyBuffer := keyBuffer m; status := status m; err := err m; viewContent :=
     viewContent m; editTmpFile := editTmpFile m; editOrigContent :=
     editOrigContent m; preserveStatus := preserveStatus m; lastError :=
     lastError m |}.

Definition set_cursor (m : Model) (v : Z) : Model :=
  {| tables := tables m; currentTable := currentTable m; requestedTable :=
     requestedTable m; items := items m; cursor := v; selected := selected m;
     width := width m; height := height m; mode := mode m; input := input m;
     keyBuffer := keyBuffer m; status := status m; err := err m; viewContent :=
     viewContent m; editTmpFile := editTmpFile m; editOrigContent :=
     editOrigContent m; preserveStatus := preserveStatus m; lastError :=
     lastError m |}.

Definition set_selected (m : Model) (v : gmap Z bool) : Model :=
  {| tables := tables m; currentTable := currentTable m; requestedTable :=
     requestedTable m; items := items m; cursor := cursor m; selected := v;
     width := width m; height := height m; mode := mode m; input := input m;
     keyBuffer := keyBuffer m; status := status m; err := err m; viewContent :=
     viewContent m; editTmpFile := editTmpFile m; editOrigContent :=
     editOrigContent m; preserveStatus := preserveStatus m; lastError :=
     lastError m |}.

Definition set_width (m : Model) (v : Z) : Model :=
  {| tables := tables m; currentTable := currentTable m; requestedTable :=
     requestedTable m; items := items m; cursor := cursor m; selected :=
     selected m; width := v; height := height m; mode := mode m; input := input
     m; keyBuffer := keyBuffer m; status := status m; err := err m; viewContent
     := viewContent m; editTmpFile := editTmpFile m; editOrigContent :=
     editOrigContent m; preserveStatus := preserveStatus m; lastError :=
     lastError m |}.

Definition set_height (m : Model) (v : Z) : Model :=
  {| tables := tables m; currentTable := currentTable m; requestedTable :=
     requestedTable m; items := items m; cursor := cursor m; selected :=
     selected m; width := width m; height := v; mode := mode m; input := input
     m; keyBuffer := keyBuffer m; status := status m; err := err m; viewContent
     := viewContent m; editTmpFile := editTmpFile m; editOrigContent :=
     editOrigContent m; preserveStatus := preserveStatus m; lastError :=
     lastError m |}.

Definition set_mode (m : Model) (v : Mode) : Model :=
  {| tables := tables m; currentTable := currentTable m; requestedTable :=
     requestedTable m; items := items m; cursor := cursor m; selected :=
     selected m; width := width m; height := height m; mode := v; input :=
     input m; keyBuffer := keyBuffer m; status := status m; err := err m;
     viewContent := viewContent m; editTmpFile := editTmpFile m;
     editOrigContent := editOrigContent m; preserveStatus := preserveStatus m;
     lastError := lastError m |}.

Definition set_input (m : Model) (v : string) : Model :=
  {| tables := tables m; currentTable := currentTable m; requestedTable :=
     requestedTable m; items := items m; cursor := cursor m; selected :=
     selected m; width := width m; height := height m; mode := mode m; input :=
     v; keyBuffer := keyBuffer m; status := status m; err := err m; viewContent
     := viewContent m; editTmpFile := editTmpFile m; editOrigContent :=
     editOrigContent m; preserveStatus := preserveStatus m; lastError :=
     lastError m |}.

Definition set_keyBuffer (m : Model) (v : string) : Model :=
  {| tables := tables m; currentTable := currentTable m; requestedTable :=
     requestedTable m; items := items m; cursor := cursor m; selected :=
     selected m; width := width m; height := height m; mode := mode m; input :=
     input m; keyBuffer := v; status := status m; err := err m; viewContent :=
     viewContent m; editTmpFile := editTmpFile m; editOrigContent :=
     editOrigContent m; preserveStatus := preserveStatus m; lastError :=
     lastError m |}.

Definition set_status (m : Model) (v : string) : Model :=
  {| tables := tables m; currentTable := currentTable m; requestedTable :=
     requestedTable m; items := items m; cursor := cursor m; selected :=
     selected m; width := width m; height := height m; mode := mode m; input :=
     input m; keyBuffer := keyBuffer m; status := v; err := err m; viewContent
     := viewContent m; editTmpFile := editTmpFile m; editOrigContent :=
     editOrigContent m; preserveStatus := preserveStatus m; lastError :=
     lastError m |}.

Definition set_err (m : Model) (v : option error) : Model :=
  {| tables := tables m; currentTable := currentTable m; requestedTable :=
     requestedTable m; items := items m; cursor := cursor m; selected :=
     selected m; width := width m; height := height m; mode := mode m; input :=
     input m; keyBuffer := keyBuffer m; status := status m; err := v;
     viewContent := viewContent m; editTmpFile := editTmpFile m;
     editOrigContent := editOrigContent m; preserveStatus := preserveStatus m;
     lastError := lastError m |}.

Definition set_viewContent (m : Model) (v : string) : Model :=
  {| tables := tables m; currentTable := currentTable m; requestedTable :=
     requestedTable m; items := items m; cursor := cursor m; selected :=
     selected m; width := width m; height := height m; mode := mode m; input :=
     input m; keyBuffer := keyBuffer m; status := status m; err := err m;
     viewContent := v; editTmpFile := editTmpFile m; editOrigContent :=
     editOrigContent m; preserveStatus := preserveStatus m; lastError :=
     lastError m |}.

Definition set_editTmpFile (m : Model) (v : string) : Model :=
  {| tables := tables m; currentTable := currentTable m; requestedTable :=
     requestedTable m; items := items m; cursor := cursor m; selected :=
     selected m; width := width m; height := height m; mode := mode m; input :=
     input m; keyBuffer := keyBuffer m; status := status m; err := err m;
     viewContent := viewContent m; editTmpFile := v; editOrigContent :=
     editOrigContent m; preserveStatus := preserveStatus m; lastError :=
     lastError m |}.

Definition set_editOrigContent (m : Model) (v : string) : Model :=
  {| tables := tables m; currentTable := currentTable m; requestedTable :=
     requestedTable m; items := items m; cursor := cursor m; selected :=
     selected m; width := width m; height := height m; mode := mode m; input :=
     input m; keyBuffer := keyBuffer m; status := status m; err := err m;
     viewContent := viewContent m; editTmpFile := editTmpFile m;
     editOrigContent := v; preserveStatus := preserveStatus m; lastError :=
     lastError m |}.

Definition set_preserveStatus (m : Model) (v : bool) : Model :=
  {| tables := tables m; currentTable := currentTable m; requestedTable :=
     requestedTable m; items := items m; cursor := cursor m; selected :=
     selected m; width := width m; height := height m; mode := mode m; input :=
     input m; keyBuffer := keyBuffer m; status := status m; err := err m;
     viewContent := viewContent m; editTmpFile := editTmpFile m;
     editOrigContent := editOrigContent m; preserveStatus := v; lastError :=
     lastError m |}.

Definition set_lastError (m : Model) (v : string) : Model :=
  {| tables := tables m; currentTable := currentTable m; requestedTable :=
     requestedTable m; items := items m; cursor := cursor m; selected :=
     selected m; width := width m; height := height m; mode := mode m; input :=
     input m; keyBuffer := keyBuffer m; status := status m; err := err m;
     viewContent := viewContent m; editTmpFile := editTmpFile m;
     editOrigContent := editOrigContent m; preserveStatus := preserveStatus m;
     lastError := v |}.

(** A key press of the terminal toolkit ([tea.KeyMsg]) and its [String()]. *)
Inductive KeyType :=
| KeyRunes
| KeyEsc
| KeyEnter
| KeyUp
| KeyDown
| KeyCtrlC
| KeySpace
| KeyOther (name : string).

Record KeyMsg := {
  key_Type : KeyType;
  key_Runes : string;
  key_Alt : bool;
  key_Paste : bool;
}.

Definition KeyMsg_String (k : KeyMsg) : string :=
  (if key_Alt k then "alt+" else EmptyString) +:+
  match key_Type k with
  | KeyRunes =>
      if key_Paste k then "[" +:+ key_Runes k +:+ "]" else key_Runes k
  | KeyEsc => "esc"
  | KeyEnter => "enter"
  | KeyUp => "up"
  | KeyDown => "down"
  | KeyCtrlC => "ctrl+c"
  | KeySpace => " "
  | KeyOther name => name
  end.

(** The key typed as plain text [s], and the named keys. *)
Definition runes (s : string) : KeyMsg :=
  {| key_Type := KeyRunes; key_Runes := s; key_Alt := false;
     key_Paste := false |}.

Definition special (t : KeyType) : KeyMsg :=
  {| key_Type := t; key_Runes := EmptyString; key_Alt := false;
     key_Paste := false |}.

(** The text input of the toolkit: [textinput_Update v k] is the value after
    the input has handled the key [k], and whether it returned a command. *)
Class Toolkit := {
  textinput_Update : string → KeyMsg → string * bool;
}.

(** The messages of the event loop. *)
Inductive Msg :=
| WindowSizeMsg (Width Height : Z)
| tablesLoadedMsg (tables : list TableInfo) (err : option error)
| itemsLoadedMsg (items : list Item) (err : option error) (noMatch : bool)
| operationDoneMsg (status : string) (err : option error)
| editorFinishedMsg (content original : string) (err : option error)
| itemFetchedForEditMsg (item : option Item) (err : option error)
| KeyPress (k : KeyMsg)
| OtherMsg.

(** The deferred work the state machine hands to the event loop
    ([tea.Cmd]); each constructor stands for one closure of the program and
    carries what the closure captures by value. A nil command is [None]. *)
Inductive Cmd :=
| Quit
| loadTablesCmd
| loadItemsCmd (tableName indexName : string)
| queryCmd (tableName indexName keyCondition : string) (exprValues : Item)
| getCmd (tableName : string) (key : Item)
| fetchForEditCmd (tableName : string) (key : Item)
| deleteCmd (tableName : string) (key : Item)
| deleteSelectedCmd (table : TableInfo) (toDelete : list Z)
| execEditorCmd (editor tmpFile origContent : string)
| saveEditedCmd (content : string) (table : TableInfo)
| noTableSelectedCmd
| textinputCmd.

(** The part of the operating system that [openEditor] uses: the files, the
    EDITOR variable, and how the next [os.CreateTemp] and [WriteString] will
    end. *)
Record OS := {
  files : gmap string string;
  EDITOR : string;
  createTemp : Result string;
  writeString : option error;
}.

Definition set_files (os : OS) (v : gmap string string) : OS :=
  {| files := v; EDITOR := EDITOR os; createTemp := createTemp os;
     writeString := writeString os |}.

(** [os.Remove], whose error the program ignores. *)
Definition os_Remove (os : OS) (path : string) : OS :=
  set_files os (delete path (files os)).

Definition os_ReadFile (os : OS) (path : string) : Result string :=
  match files os !! path with
  | Some content => Ok content
  | None => Err ("open " +:+ path +:+ ": no such file or directory")
  end.

(** The cases of the [switch] statements on the text of a key. *)
Inductive NormalKey :=
| NK_ctrl_c | NK_q | NK_colon | NK_slash | NK_up | NK_down | NK_enter
| NK_space | NK_e | NK_d | NK_t | NK_insert | NK_help | NK_esc | NK_g | NK_G
| NK_other.

Definition normalKey (s : string) : NormalKey :=
  if decide (s = "ctrl+c") then NK_ctrl_c
  else if decide (s = "q") then NK_q
  else if decide (s = ":") then NK_colon
  else if decide (s = "/") then NK_slash
  else if decide (s = "up" ∨ s = "k") then NK_up
  else if decide (s = "down" ∨ s = "j") then NK_down
  else if decide (s = "enter") then NK_enter
  else if decide (s = " ") then NK_space
  else if decide (s = "e") then NK_e
  else if decide (s = "d") then NK_d
  else if decide (s = "t") then NK_t
  else if decide (s = "i" ∨ s = "a") then NK_insert
  else if decide (s = "?") then NK_help
  else if decide (s = "esc") then NK_esc
  else if decide (s = "g") then NK_g
  else if decide (s = "G") then NK_G
  else NK_other.

(** The meta-commands, matched on the whole trimmed input. *)
Inductive SpecialCommand :=
| SC_quit | SC_help | SC_err | SC_mlrd.

Definition backslash : string := String (ascii_of_nat 92) EmptyString.

Definition specialCommand (cmd : string) : option SpecialCommand :=
  if decide (cmd = ":q" ∨ cmd = ":quit" ∨ cmd = "/q" ∨ cmd = backslash +:+ "q")
  then Some SC_quit
  else if decide (cmd = ":?" ∨ cmd = ":help" ∨ cmd = "/?" ∨ cmd = "/help")
  then Some SC_help
  else if decide (cmd = "/err") then Some SC_err
  else if decide (cmd = "/mlrd") then Some SC_mlrd
  else None.

(** The verbs, matched on the lower-cased first token. *)
Inductive Verb :=
| V_scan | V_query | V_get | V_put | V_update | V_delete.

Definition verb (command : string) : option Verb :=
  if decide (command = "/scan") then Some V_scan
  else if decide (command = "/query") then Some V_query
  else if decide (command = "/get") then Some V_get
  else if decide (command = "/put") then Some V_put
  else if decide (command = "/update") then Some V_update
  else if decide (command = "/delete" ∨ command = "/rm") then Some V_delete
  else None.

Section UI.
Context `{GoLib} `{Toolkit}.

(** The outcome of a handler: the session, the operating system and the
    command returned; [None] when the program panics on an index out of
    range. *)
Definition Step : Type := option (Model * OS * option Cmd).

(** [l[i]]. *)
Definition at_index {A} (l : list A) (i : Z) : option A :=
  if (0 <=? i)%Z then l !! Z.to_nat i else None.

Definition NewModel (requested : string) : Model :=
  {| tables := []; currentTable := 0; requestedTable := requested;
     items := []; cursor := 0; selected := ∅; width := 0; height := 0;
     mode := ModeNormal; input := EmptyString; keyBuffer := EmptyString;
     status := "Loading tables..."; err := None;
     viewContent := EmptyString; editTmpFile := EmptyString;
     editOrigContent := EmptyString; preserveStatus := false;
     lastError := EmptyString |}.

Definition Init (m : Model) : Cmd := loadTablesCmd.

Definition setError (m : Model) (err : error) : Model :=
  let errStr := err in
  let m := set_lastError m errStr in
  let m := set_err m (Some err) in
  (* Truncate for status line, show full error in window *)
  if (50 <? Go.len errStr)%Z then
    let m := set_status m (Go.slice_to errStr 47 +:+ "... (/err)") in
    let m := set_viewContent m errStr in
    set_mode m ModeErrorView
  else
    set_status m errStr.

Definition loadItems (tableName indexName : string) : Cmd :=
  loadItemsCmd tableName indexName.

(** The index of the first table called [name], counting from [i]. *)
Fixpoint findTable (ts : list TableInfo) (name : string) (i : Z)
    : option Z :=
  match ts with
  | [] => None
  | t :: ts' =>
      if decide (Name t = name) then Some i
      else findTable ts' name (i + 1)
  end.

Definition loadedTables (n : Z) : string :=
  "Loaded " +:+ Go.Itoa n +:+ " tables".

Definition openEditor (m : Model) (os : OS) (content : string) : Step :=
  let m := set_editOrigContent m content in
  let editor :=
    if decide (EDITOR os = EmptyString) then "vim" else EDITOR os in
  (* Create temp file *)
  match createTemp os with
  | Err err =>
      Some (set_status m ("Error creating temp file: " +:+ err), os, None)
  | Ok tmpFile =>
      let os := set_files os (<[tmpFile := EmptyString]> (files os)) in
      let m := set_editTmpFile m tmpFile in
      match writeString os with
      | Some err =>
          let os := os_Remove os tmpFile in
          Some (set_status m ("Error writing temp file: " +:+ err), os, None)
      | None =>
          let os := set_files os (<[tmpFile := content]> (files os)) in
          Some (m, os, Some (execEditorCmd editor (editTmpFile m) content))
      end
  end.

(** The callback that [openEditor] gives to [tea.ExecProcess]: it runs
    when the editor has exited with [err], on the session and the files
    as they are then. *)
Definition openEditor_callback (m : Model) (origContent : string)
    (err : option error) (os : OS) : Msg * OS :=
  match err with
  | Some e =>
      let os := os_Remove os (editTmpFile m) in
      (editorFinishedMsg EmptyString EmptyString (Some e), os)
  | None =>
      (* Read result *)
      let result := os_ReadFile os (editTmpFile m) in
      let os := os_Remove os (editTmpFile m) in
      match result with
      | Err e => (editorFinishedMsg EmptyString EmptyString (Some e), os)
      | Ok result => (editorFinishedMsg result origContent None, os)
      end
  end.

Definition putNewItem (m : Model) (os : OS) : Step :=
  (* New item template with just primary key attributes *)
  if (0 <? Go.count (tables m))%Z then
    table ← at_index (tables m) (currentTable m);
    let content :=
      if decide (SortKey table ≠ EmptyString) then
        "{" +:+ Go.newline +:+
        "  " +:+ Go.Quote (PartitionKey table) +:+ ": " +:+
        Go.Quote EmptyString +:+ "," +:+ Go.newline +:+
        "  " +:+ Go.Quote (SortKey table) +:+ ": " +:+
        Go.Quote EmptyString +:+ Go.newline +:+ "}"
      else
        "{" +:+ Go.newline +:+
        "  " +:+ Go.Quote (PartitionKey table) +:+ ": " +:+
        Go.Quote EmptyString +:+ Go.newline +:+ "}" in
    openEditor m os content
  else openEditor m os "{}".

Definition editCurrentItem (m : Model) (os : OS) : Step :=
  if (Go.count (items m) =? 0)%Z || (Go.count (items m) <=? cursor m)%Z then
    Some (set_status m "No item selected", os, None)
  else
    item ← at_index (items m) (cursor m);
    openEditor m os (ItemToPrettyJSON item).

Definition saveEditedItem (m : Model) (content : string) : option Cmd :=
  if (Go.count (tables m) =? 0)%Z then Some noTableSelectedCmd
  else
    table ← at_index (tables m) (currentTable m);
    Some (saveEditedCmd content table).

(** The key of a [/get], [/update] or [/delete]: the partition key from
    the first argument and, when the table has a sort key, the sort key
    from the second. *)
Definition commandKey (table : TableInfo) (args : list string)
    : option Item :=
  arg0 ← args !! 0%nat;
  let key : Item := {[ PartitionKey table := AttributeValueMemberS arg0 ]} in
  match args !! 1%nat with
  | Some arg1 =>
      if decide (SortKey table ≠ EmptyString)
      then Some (<[SortKey table := AttributeValueMemberS arg1]> key)
      else Some key
  | None => Some key
  end.

Definition executeQuery (m : Model) (os : OS) (args : list string) : Step :=
  if (Go.count (tables m) =? 0)%Z then
    Some (set_status m "No table selected", os, None)
  else
    table ← at_index (tables m) (currentTable m);
    (* Check if first arg is an index name *)
    '(indexName, keyArgs) ←
      (if (1 <? Go.count args)%Z then
         arg0 ← args !! 0%nat;
         if negb (Go.Contains arg0 "=") then Some (arg0, drop 1 args)
         else Some (EmptyString, args)
       else Some (EmptyString, args));
    match keyArgs with
    | [] => Some (set_status m "Usage: /query [indexName] pk=value", os, None)
    | keyArg :: _ =>
        (* Parse the key condition *)
        match ParseKeyValue keyArg with
        | Err err => Some (set_status m ("Error: " +:+ err), os, None)
        | Ok (pkName, pkValue) =>
            let keyCondition := pkName +:+ " = :pk" in
            let exprValues : Item := {[ ":pk" := pkValue ]} in
            Some (m, os,
                  Some (queryCmd (Name table) indexName keyCondition exprValues))
        end
    end.

Definition executeGet (m : Model) (os : OS) (args : list string) : Step :=
  if (Go.count (tables m) =? 0)%Z then
    Some (set_status m "No table selected", os, None)
  else
    table ← at_index (tables m) (currentTable m);
    key ← commandKey table args;
    Some (m, os, Some (getCmd (Name table) key)).

Definition executeUpdate (m : Model) (os : OS) (args : list string) : Step :=
  if (Go.count (tables m) =? 0)%Z then
    Some (set_status m "No table selected", os, None)
  else
    table ← at_index (tables m) (currentTable m);
    key ← commandKey table args;
    (* Get the item first, then the handler will open editor *)
    Some (m, os, Some (fetchForEditCmd (Name table) key)).

Definition executeDelete (m : Model) (os : OS) (args : list string) : Step :=
  if (Go.count (tables m) =? 0)%Z then
    Some (set_status m "No table selected", os, None)
  else
    table ← at_index (tables m) (currentTable m);
    key ← commandKey table args;
    Some (m, os, Some (deleteCmd (Name table) key)).

Definition deleteSelectedItems (m : Model) : option (option Cmd) :=
  if (Go.count (tables m) =? 0)%Z || (Go.count (items m) =? 0)%Z
  then Some None
  else
    table ← at_index (tables m) (currentTable m);
    (* Get items to delete (selected or current) *)
    let toDelete :=
      if (0 <? Z.of_nat (size (selected m)))%Z then (map_to_list (selected m)).*1
      else if (cursor m <? Go.count (items m))%Z then [cursor m]
      else [] in
    match toDelete with
    | [] => Some None
    | _ => Some (Some (deleteSelectedCmd table toDelete))
    end.

Definition unknownCommand (m : Model) (os : OS) (command : string) : Step :=
  Some (setError m ("unknown command: " +:+ command), os, None).

Definition executeCommand (m : Model) (os : OS) (cmd : string) : Step :=
  let cmd := TrimSpace cmd in
  (* Handle special commands *)
  match specialCommand cmd with
  | Some SC_quit => Some (m, os, Some Quit)
  | Some SC_help => Some (set_mode m ModeHelp, os, None)
  | Some SC_err =>
      if decide (lastError m ≠ EmptyString) then
        let m := set_viewContent m (lastError m) in
        Some (set_mode m ModeErrorView, os, None)
      else Some (set_status m "No errors", os, None)
  | Some SC_mlrd =>
      Some (set_status m "https://mlrd.tech/docs ~ https://mlrd.app", os, None)
  | None =>
      (* Parse command *)
      match Fields cmd with
      | [] => Some (m, os, None)
      | part0 :: args =>
          let command := ToLower part0 in
          match verb command with
          | Some V_scan =>
              let indexName := default EmptyString (args !! 0%nat) in
              if (0 <? Go.count (tables m))%Z then
                table ← at_index (tables m) (currentTable m);
                Some (m, os, Some (loadItems (Name table) indexName))
              else unknownCommand m os command
          | Some V_query =>
              if (Go.count args <? 1)%Z then
                Some (set_status m "Usage: /query [indexName] pk=value", os, None)
              else executeQuery m os args
          | Some V_get =>
              if (Go.count args <? 1)%Z then
                Some (set_status m "Usage: /get pk [sk]", os, None)
              else executeGet m os args
          | Some V_put => putNewItem m os
          | Some V_update =>
              if (Go.count args <? 1)%Z then
                Some (set_status m "Usage: /update pk [sk]", os, None)
              else executeUpdate m os args
          | Some V_delete =>
              if (Go.count args <? 1)%Z then
                (* Delete current/selected items *)
                Some (set_mode m ModeConfirmDelete, os, None)
              else executeDelete m os args
          | None => unknownCommand m os command
          end
      end
  end.

Definition is_KeyEsc (k : KeyMsg) : bool :=
  match key_Type k with KeyEsc => true | _ => false end.

Definition is_KeyEnter (k : KeyMsg) : bool :=
  match key_Type k with KeyEnter => true | _ => false end.

Definition itemCount (m : Model) : string :=
  Go.Itoa (Go.count (items m)) +:+ " items".

(** The keys [:] and [/] of Normal mode, which open the command line with
    [prefix] as its first character. *)
Definition enterCommand (m : Model) (prefix : string) : Model :=
  let m := set_mode m ModeCommand in
  let m := set_input m prefix in
  let m := set_keyBuffer m EmptyString in
  match err m with
  | Some _ =>
      let m := set_err m None in
      set_status m (itemCount m)
  | None => m
  end.

Definition handleCommandMode (m : Model) (os : OS) (msg : KeyMsg) : Step :=
  match key_Type msg with
  | KeyEsc =>
      let m := set_mode m ModeNormal in
      let m := set_input m EmptyString in
      Some (m, os, None)
  | KeyEnter =>
      let cmd := input m in
      let m := set_input m EmptyString in
      let m := set_mode m ModeNormal in
      executeCommand m os cmd
  | _ =>
      let '(value, cmd) := textinput_Update (input m) msg in
      Some (set_input m value, os, if cmd then Some textinputCmd else None)
  end.

Definition handleTableSelectMode (m : Model) (os : OS) (msg : KeyMsg)
    : Step :=
  let s := KeyMsg_String msg in
  if decide (s = "esc") then Some (set_mode m ModeNormal, os, None)
  else if decide (s = "up" ∨ s = "k") then
    if (0 <? currentTable m)%Z
    then Some (set_currentTable m (currentTable m - 1), os, None)
    else Some (m, os, None)
  else if decide (s = "down" ∨ s = "j") then
    if (currentTable m <? Go.count (tables m) - 1)%Z
    then Some (set_currentTable m (currentTable m + 1), os, None)
    else Some (m, os, None)
  else if decide (s = "enter") then
    let m := set_mode m ModeNormal in
    if (0 <? Go.count (tables m))%Z then
      table ← at_index (tables m) (currentTable m);
      Some (m, os, Some (loadItems (Name table) EmptyString))
    else Some (m, os, None)
  else Some (m, os, None).

Definition handleItemViewMode (m : Model) (os : OS) (msg : KeyMsg) : Step :=
  let s := KeyMsg_String msg in
  if decide (s = "esc" ∨ s = "q" ∨ s = "enter") then
    let m := set_mode m ModeNormal in
    Some (set_viewContent m EmptyString, os, None)
  else if decide (s = "e") then
    let m := set_mode m ModeNormal in
    let m := set_viewContent m EmptyString in
    editCurrentItem m os
  else Some (m, os, None).

Definition handleConfirmDeleteMode (m : Model) (os : OS) (msg : KeyMsg)
    : Step :=
  let s := KeyMsg_String msg in
  if decide (s = "y" ∨ s = "Y") then
    let m := set_mode m ModeNormal in
    cmd ← deleteSelectedItems m;
    Some (m, os, cmd)
  else if decide (s = "n" ∨ s = "N" ∨ s = "esc") then
    Some (set_mode m ModeNormal, os, None)
  else Some (m, os, None).

(** Normal mode key handling: the second half of [handleKeyPress]. *)
Definition handleNormalMode (m : Model) (os : OS) (msg : KeyMsg) : Step :=
  match normalKey (KeyMsg_String msg) with
  | NK_ctrl_c => Some (m, os, Some Quit)
  | NK_q =>
      (* Check if we're in command mode starting with ':' *)
      if decide (keyBuffer m = ":") then Some (m, os, Some Quit)
      else Some (m, os, None)
  | NK_colon => Some (enterCommand m ":", os, None)
  | NK_slash => Some (enterCommand m "/", os, None)
  | NK_up =>
      let m := if (0 <? cursor m)%Z then set_cursor m (cursor m - 1) else m in
      Some (set_keyBuffer m EmptyString, os, None)
  | NK_down =>
      let m :=
        if (cursor m <? Go.count (items m) - 1)%Z
        then set_cursor m (cursor m + 1) else m in
      Some (set_keyBuffer m EmptyString, os, None)
  | NK_enter =>
      (* If there's input, execute it as a command *)
      if decide (input m ≠ EmptyString) then
        let cmd := input m in
        let m := set_input m EmptyString in
        let m := set_keyBuffer m EmptyString in
        executeCommand m os cmd
      else
        (* Otherwise view the selected item *)
        m ← (if (0 <? Go.count (items m))%Z
                && (cursor m <? Go.count (items m))%Z then
               item ← at_index (items m) (cursor m);
               let m := set_viewContent m (ItemToPrettyJSON item) in
               Some (set_mode m ModeItemView)
             else Some m);
        Some (set_keyBuffer m EmptyString, os, None)
  | NK_space =>
      let m :=
        if (0 <? Go.count (items m))%Z then
          if default false (selected m !! cursor m)
          then set_selected m (delete (cursor m) (selected m))
          else set_selected m (<[cursor m := true]> (selected m))
        else m in
      Some (set_keyBuffer m EmptyString, os, None)
  | NK_e =>
      if (0 <? Go.count (items m))%Z
         && (Z.of_nat (size (selected m)) <=? 1)%Z
      then editCurrentItem m os
      else Some (set_keyBuffer m EmptyString, os, None)
  | NK_d =>
      if decide (keyBuffer m = "d") then
        (* dd - delete *)
        let m := set_mode m ModeConfirmDelete in
        Some (set_keyBuffer m EmptyString, os, None)
      else Some (set_keyBuffer m "d", os, None)
  | NK_t =>
      let m := set_mode m ModeTableSelect in
      Some (set_keyBuffer m EmptyString, os, None)
  | NK_insert =>
      let m := set_keyBuffer m EmptyString in
      putNewItem m os
  | NK_help =>
      let m := set_mode m ModeHelp in
      Some (set_keyBuffer m EmptyString, os, None)
  | NK_esc =>
      let m := set_keyBuffer m EmptyString in
      let m := set_input m EmptyString in
      Some (set_mode m ModeNormal, os, None)
  | NK_g =>
      if decide (keyBuffer m = "g") then
        let m := set_cursor m 0 in
        Some (set_keyBuffer m EmptyString, os, None)
      else Some (set_keyBuffer m "g", os, None)
  | NK_G =>
      let m := set_cursor m (Z.max (Go.count (items m) - 1) 0) in
      Some (set_keyBuffer m EmptyString, os, None)
  | NK_other => Some (set_keyBuffer m EmptyString, os, None)
  end.

Definition handleKeyPress (m : Model) (os : OS) (msg : KeyMsg) : Step :=
  (* Handle mode-specific input first *)
  match mode m with
  | ModeCommand => handleCommandMode m os msg
  | ModeTableSelect => handleTableSelectMode m os msg
  | ModeItemView => handleItemViewMode m os msg
  | ModeConfirmDelete => handleConfirmDeleteMode m os msg
  | ModeErrorView =>
      if is_KeyEsc msg || is_KeyEnter msg
         || bool_decide (KeyMsg_String msg = "q") then
        let m := set_mode m ModeNormal in
        Some (set_viewContent m EmptyString, os, None)
      else Some (m, os, None)
  | ModeHelp =>
      if is_KeyEsc msg || bool_decide (KeyMsg_String msg = "q")
         || bool_decide (KeyMsg_String msg = "?") then
        let m := set_mode m ModeNormal in
        Some (set_viewContent m EmptyString, os, None)
      else Some (m, os, None)
  | ModeNormal => handleNormalMode m os msg
  end.

Definition Update (m : Model) (os : OS) (msg : Msg) : Step :=
  match msg with
  | WindowSizeMsg w h =>
      let m := set_width m w in
      Some (set_height m h, os, None)

  | tablesLoadedMsg msg_tables msg_err =>
      match msg_err with
      | Some e => Some (setError m e, os, None)
      | None =>
          let m := set_tables m msg_tables in
          if (0 <? Go.count (tables m))%Z then
            let m := set_currentTable m 0 in
            (* Try to find requested table *)
            m ← (if decide (requestedTable m ≠ EmptyString) then
                   match findTable (tables m) (requestedTable m) 0 with
                   | Some i =>
                       let m := set_currentTable m i in
                       Some (set_status m (loadedTables (Go.count (tables m))))
                   | None =>
                       first ← at_index (tables m) 0;
                       let m :=
                         set_status m
                           ("Table '" +:+ requestedTable m +:+
                            "' not found, using " +:+ Name first) in
                       Some (set_preserveStatus m true)
                   end
                 else Some (set_status m (loadedTables (Go.count (tables m)))));
            table ← at_index (tables m) (currentTable m);
            Some (m, os, Some (loadItems (Name table) EmptyString))
          else Some (set_status m "No tables found", os, None)
      end

  | itemsLoadedMsg msg_items msg_err noMatch =>
      match msg_err with
      | Some e => Some (setError m e, os, None)
      | None =>
          let m := set_items m msg_items in
          let m := set_cursor m 0 in
          let m := set_selected m ∅ in
          let m :=
            if noMatch then set_status m "No matching item"
            else if preserveStatus m then set_preserveStatus m false
            else set_status m ("Loaded " +:+ itemCount m) in
          Some (m, os, None)
      end

  | operationDoneMsg msg_status msg_err =>
      match msg_err with
      | Some e => Some (setError m e, os, None)
      | None =>
          let m := set_status m msg_status in
          let m := set_err m None in
          (* Reload items after successful operation *)
          if (0 <? Go.count (tables m))%Z then
            table ← at_index (tables m) (currentTable m);
            Some (m, os, Some (loadItems (Name table) EmptyString))
          else Some (m, os, None)
      end

  | editorFinishedMsg content original msg_err =>
      match msg_err with
      | Some e => Some (setError m e, os, None)
      | None =>
          (* Check if content changed *)
          if decide (content = original) then
            Some (set_status m "No changes made", os, None)
          else
            (* Parse and save the edited item *)
            cmd ← saveEditedItem m content;
            Some (m, os, Some cmd)
      end

  | itemFetchedForEditMsg msg_item msg_err =>
      match msg_err with
      | Some e => Some (set_status m ("Error: " +:+ e), os, None)
      | None =>
          match msg_item with
          | None => Some (set_status m "Item not found", os, None)
          | Some item =>
              (* Store item temporarily and open editor *)
              let m := set_items m [item] in
              let m := set_cursor m 0 in
              editCurrentItem m os
          end
      end

  | KeyPress k => handleKeyPress m os k

  | OtherMsg => Some (m, os, None)
  end.

(** Feeding a list of messages to [Update], one after the other. *)
Fixpoint run (m : Model) (os : OS) (msgs : list Msg) : option (Model * OS) :=
  match msgs with
  | [] => Some (m, os)
  | msg :: rest =>
      '(m', os', _) ← Update m os msg;
      run m' os' rest
  end.

(** *** The closures behind the commands *)

Section Closures.
Context {B : Type} (client : Client B).

(** The closure of [loadItems]. Its two-second deadline is not
    modelled: a call that ran out of time is a call that failed. *)
Definition loadItems_run (fuel : nat) (b : B) (tableName indexName : string)
    : option (Msg * B) :=
  '(r, b') ← Scan client fuel b tableName indexName;
  match r with
  | Ok items => Some (itemsLoadedMsg items None false, b')
  | Err err => Some (itemsLoadedMsg [] (Some err) false, b')
  end.

(** The closure of [executeQuery]. *)
Definition executeQuery_run (fuel : nat) (b : B)
    (tableName indexName keyCondition : string) (exprValues : Item)
    : option (Msg * B) :=
  '(r, b') ← Query client fuel b tableName indexName keyCondition exprValues;
  match r with
  | Ok items => Some (itemsLoadedMsg items None false, b')
  | Err err => Some (itemsLoadedMsg [] (Some err) false, b')
  end.

(** The closure of [saveEditedItem] when a table is selected. *)
Definition saveEditedItem_run (fuel : nat) (b : B) (content : string)
    (table : TableInfo) : option (Msg * B) :=
  r ← JSONToItem fuel content;
  match r with
  | Err err => Some (operationDoneMsg EmptyString (Some err), b)
  | Ok item =>
      match PutItem client b (Name table) item with
      | (Some err, b') => Some (operationDoneMsg EmptyString (Some err), b')
      | (None, b') => Some (operationDoneMsg "Item saved" None, b')
      end
  end.

End Closures.

End UI.

(** ** The rest of the codec, of the backend calls and of the view *)

(** *** The type view of a record *)

Section TypeView.
Context `{GoLib}.

Fixpoint attrToType (av : AttributeValue) : Any :=
  match av with
  | AttributeValueMemberS _ => AString "S"
  | AttributeValueMemberN _ => AString "N"
  | AttributeValueMemberBOOL _ => AString "BOOL"
  | AttributeValueMemberNULL _ => AString "NULL"
  | AttributeValueMemberL v =>
      AMap {[ "type" := AString "L";
              "elements" := AList (attrToType <$> v) ]}
  | AttributeValueMemberM v =>
      AMap {[ "type" := AString "M";
              "attributes" := AMap (attrToType <$> v) ]}
  | AttributeValueMemberSS _ => AString "SS"
  | AttributeValueMemberNS _ => AString "NS"
  | AttributeValueMemberB _ => AString "B"
  | AttributeValueMemberBS _ => AString "BS"
  end.

Definition attributeValueToTypeMap (item : Item) : gmap string Any :=
  attrToType <$> item.

Definition ItemToDataTypes (item : Item) : string :=
  let typeMap := attributeValueToTypeMap item in
  match json_MarshalIndent (AMap typeMap) with
  | Err err => "error: " +:+ err
  | Ok data => data
  end.

End TypeView.

(** *** Keys *)

(** [BuildKey]: the key of a record from its partition key value and, when
    the table has a sort key and a value is given, its sort key value. *)
Definition BuildKey (tableInfo : TableInfo) (pkValue skValue : string)
    : Result Item :=
  let key : Item :=
    {[ PartitionKey tableInfo := AttributeValueMemberS pkValue ]} in
  (* Add sort key if provided and table has one *)
  if decide (SortKey tableInfo ≠ EmptyString ∧ skValue ≠ EmptyString)
  then Ok (<[SortKey tableInfo := AttributeValueMemberS skValue]> key)
  else Ok key.

(** *** The closures of the keyed commands *)

Section KeyedClosures.
Context {B : Type} (client : Client B).

(** The closure of [executeGet]. *)
Definition executeGet_run (b : B) (tableName : string) (key : Item)
    : Msg * B :=
  match GetItem client b tableName key with
  | (Err err, b') => (itemsLoadedMsg [] (Some err) false, b')
  | (Ok None, b') => (itemsLoadedMsg [] None true, b')
  | (Ok (Some item), b') => (itemsLoadedMsg [item] None false, b')
  end.

(** The closure of [executeUpdate]. *)
Definition executeUpdate_run (b : B) (tableName : string) (key : Item)
    : Msg * B :=
  match GetItem client b tableName key with
  | (Err err, b') => (itemFetchedForEditMsg None (Some err), b')
  | (Ok item, b') => (itemFetchedForEditMsg item None, b')
  end.

(** The closure of [executeDelete]. *)
Definition executeDelete_run (b : B) (tableName : string) (key : Item)
    : Msg * B :=
  match DeleteItem client b tableName key with
  | (Some err, b') => (operationDoneMsg EmptyString (Some err), b')
  | (None, b') => (operationDoneMsg "Item deleted" None, b')
  end.

End KeyedClosures.

(** *** Describing the tables *)

(** [types.KeySchemaElement]; the key type is the text [HASH] or
    [RANGE]. *)
Record KeySchemaElement := {
  AttributeName : string;
  schema_KeyType : string;
}.

(** A secondary index of [types.TableDescription]. *)
Record IndexDescription := {
  IndexName : string;
  index_KeySchema : list KeySchemaElement;
}.

Record TableDescription := {
  KeySchema : list KeySchemaElement;
  GlobalSecondaryIndexes : list IndexDescription;
  LocalSecondaryIndexes : list IndexDescription;
}.

(** The loop over a key schema: the partition key and the sort key found
    so far, updated by each element. *)
Definition keySchema (schema : list KeySchemaElement) (pk sk : string)
    : string * string :=
  fold_left
    (λ (acc : string * string) key,
       if decide (schema_KeyType key = "HASH")
       then (AttributeName key, acc.2)
       else if decide (schema_KeyType key = "RANGE")
       then (acc.1, AttributeName key)
       else acc)
    schema (pk, sk).

Definition indexInfo (d : IndexDescription) : IndexInfo :=
  let keys := keySchema (index_KeySchema d) EmptyString EmptyString in
  {| idx_Name := IndexName d; idx_PartitionKey := keys.1;
     idx_SortKey := keys.2 |}.

Section Describe.
Context {B : Type} (client : Client B).
(** [db.client.DescribeTable], a call of the same store. *)
Context (describe : B → string → Result TableDescription * B).

Definition DescribeTable (b : B) (tableName : string)
    : Result TableInfo * B :=
  match describe b tableName with
  | (Err err, b') =>
      (Err ("failed to describe table " +:+ tableName +:+ ": " +:+ err), b')
  | (Ok out, b') =>
      (* Get primary key schema *)
      let keys := keySchema (KeySchema out) EmptyString EmptyString in
      (Ok {| Name := tableName; PartitionKey := keys.1; SortKey := keys.2;
             GlobalIndexes := indexInfo <$> GlobalSecondaryIndexes out;
             LocalIndexes := indexInfo <$> LocalSecondaryIndexes out |}, b')
  end.

(** The loop of [loadTables] over the table names. *)
Fixpoint describeTables (b : B) (tableNames : list string)
    (tables : list TableInfo) : Result (list TableInfo) * B :=
  match tableNames with
  | [] => (Ok tables, b)
  | name :: rest =>
      match DescribeTable b name with
      | (Err err, b') => (Err err, b')
      | (Ok info, b') => describeTables b' rest (tables ++ [info])
      end
  end.

(** [loadTables], the command of [Init]. *)
Definition loadTables (fuel : nat) (b : B) : option (Msg * B) :=
  '(r, b') ← ListTables client fuel b;
  match r with
  | Err err => Some (tablesLoadedMsg [] (Some err), b')
  | Ok tableNames =>
      match describeTables b' tableNames [] with
      | (Err err, b'') => Some (tablesLoadedMsg [] (Some err), b'')
      | (Ok tables, b'') => Some (tablesLoadedMsg tables None, b'')
      end
  end.

End Describe.

(** *** The text helpers of the view *)

(** [strings.Split(s, sep)] for a one-byte separator. *)
Fixpoint Split (s : string) (sep : ascii) : list string :=
  match s with
  | EmptyString => [EmptyString]
  | String c s' =>
      if Ascii.eqb c sep then EmptyString :: Split s' sep
      else match Split s' sep with
           | a :: rest => String c a :: rest
           | [] => [String c EmptyString]
           end
  end.

(** [strings.TrimLeft(s, " ")]. *)
Fixpoint TrimLeft_space (s : string) : string :=
  match s with
  | String c s' => if Ascii.eqb c " " then TrimLeft_space s' else s
  | EmptyString => s
  end.

(** [truncate]; [None] when [s[:maxLen]] panics on a negative bound. *)
Definition truncate (s : string) (maxLen : Z) : option string :=
  if (Go.len s <=? maxLen)%Z then Some s
  else if (maxLen <=? 3)%Z then
    if (0 <=? maxLen)%Z then Some (Go.slice_to s maxLen) else None
  else Some (Go.slice_to s (maxLen - 3) +:+ "...").

(** The search of [wrapText] for the last space before [maxWidth]: the
    indexes [i], [i - 1], ... down to 1. *)
Fixpoint lastSpace (line : string) (i : nat) : option nat :=
  match i with
  | O => None
  | S i' =>
      match String.get i line with
      | Some c => if Ascii.eqb c " " then Some i else lastSpace line i'
      | None => lastSpace line i'
      end
  end.

Definition breakAt (line : string) (maxWidth : nat) : nat :=
  default maxWidth (lastSpace line (maxWidth - 1)).

(** The inner loop of [wrapText] on one line: the pieces it writes, each
    followed by a newline. The loop has no bound in the program; [fuel]
    bounds its rounds and [None] is returned when it runs out. *)
Fixpoint wrapLine (fuel : nat) (line : string) (maxWidth : nat)
    : option (list string) :=
  match fuel with
  | O => if (maxWidth <? String.length line)%nat then None else Some [line]
  | S fuel' =>
      if (maxWidth <? String.length line)%nat then
        (* Find last space before maxWidth *)
        let breakAt := breakAt line maxWidth in
        rest ← wrapLine fuel'
                 (TrimLeft_space
                    (substring breakAt (String.length line - breakAt) line))
                 maxWidth;
        Some (substring 0 breakAt line :: rest)
      else Some [line]
  end.

(** The loop of [wrapText] over the lines, each with as many rounds as it
    has bytes. *)
Fixpoint wrapLines (lines : list string) (maxWidth : nat)
    : option (list string) :=
  match lines with
  | [] => Some []
  | line :: rest =>
      pieces ← wrapLine (String.length line) line maxWidth;
      more ← wrapLines rest maxWidth;
      Some (pieces ++ more)
  end.

(** The content of the [strings.Builder] after the pieces. *)
Definition written (pieces : list string) : string :=
  foldr (λ piece acc, piece +:+ Go.newline +:+ acc) EmptyString pieces.

Definition wrapText (s : string) (maxWidth : Z) : option string :=
  if (maxWidth <=? 0)%Z then Some s
  else
    pieces ← wrapLines (Split s (ascii_of_nat 10)) (Z.to_nat maxWidth);
    Some (Go.TrimSuffix (written pieces) Go.newline).

(** ** A reference instance of the libraries

    An executable instance of [GoLib] and [Toolkit], used to run the model
    on concrete texts. It follows [encoding/json] on texts whose strings
    hold printable ASCII and the escapes of JSON other than surrogate
    pairs, and package [strings] on ASCII. A float64 is kept as the literal
    it was read from and printed back as that literal, which is what Go
    prints when the literal is already the shortest form of the number (as
    for a small integer). *)

Module Ref.

Definition is_ws (c : ascii) : bool :=
  match c with
  | " " | "009" | "010" | "013" => true
  | _ => false
  end%char.

Fixpoint skip_ws (s : string) : string :=
  match s with
  | String c s' => if is_ws c then skip_ws s' else s
  | EmptyString => s
  end.

Definition hex_val (c : ascii) : option Z :=
  let n := Go.byte_val c in
  if (48 <=? n)%Z && (n <=? 57)%Z then Some (n - 48)%Z
  else if (97 <=? n)%Z && (n <=? 102)%Z then Some (n - 87)%Z
  else if (65 <=? n)%Z && (n <=? 70)%Z then Some (n - 55)%Z
  else None.

Definition byte_of (n : Z) : ascii := ascii_of_N (Z.to_N n).

(** The UTF-8 encoding of a code point of the basic plane. *)
Definition utf8 (cp : Z) : string :=
  if (cp <? 128)%Z then String (byte_of cp) EmptyString
  else if (cp <? 2048)%Z then
    String (byte_of (192 + cp / 64))
      (String (byte_of (128 + cp mod 64)) EmptyString)
  else
    String (byte_of (224 + cp / 4096))
      (String (byte_of (128 + (cp / 64) mod 64))
         (String (byte_of (128 + cp mod 64)) EmptyString)).

Definition unescape (c : ascii) : option ascii :=
  match c with
  | "034" => Some "034"
  | "\" => Some "\"
  | "/" => Some "/"
  | "b" => Some "008"
  | "f" => Some "012"
  | "n" => Some "010"
  | "r" => Some "013"
  | "t" => Some "009"
  | _ => None
  end%char.

(** The content of a string literal, after its opening quote, and the
    text after its closing quote. *)
Fixpoint parse_string (s : string) : option (string * string) :=
  match s with
  | EmptyString => None
  | String c s' =>
      if Ascii.eqb c "034" then Some (EmptyString, s')
      else if Ascii.eqb c "\" then
        match s' with
        | String "u" (String h1 (String h2 (String h3 (String h4 s'')))) =>
            a ← hex_val h1; b ← hex_val h2; c ← hex_val h3; d ← hex_val h4;
            let cp := (((a * 16 + b) * 16 + c) * 16 + d)%Z in
            if (55296 <=? cp)%Z && (cp <=? 57343)%Z then None
            else
              '(r, rest) ← parse_string s'';
              Some (utf8 cp +:+ r, rest)
        | String e s'' =>
            e' ← unescape e;
            '(r, rest) ← parse_string s'';
            Some (String e' r, rest)
        | EmptyString => None
        end
      else if (Go.byte_val c <? 32)%Z then None
      else
        '(r, rest) ← parse_string s';
        Some (String c r, rest)
  end.

(** The number literal at the head of [s] and the text after it. *)
Definition parse_number (s : string) : option (string * string) :=
  let s1 := match s with
            | String "-" s' => s'
            | _ => s
            end in
  s2 ← Go.skip_int s1;
  rest ← Go.skip_exp (Go.skip_frac s2);
  let n := (String.length s - String.length rest)%nat in
  let lit := substring 0 n s in
  if Go.isValidNumber lit then Some (lit, rest) else None.

(** A value at the head of [s], and what follows it. [parse_elements]
    and [parse_members] read what follows the opening bracket or a
    comma. *)
Fixpoint parse_value (fuel : nat) (s : string) : option (json * string) :=
  match fuel with
  | O => None
  | S fuel' =>
      match skip_ws s with
      | String "n" (String "u" (String "l" (String "l" rest))) =>
          Some (JNull, rest)
      | String "t" (String "r" (String "u" (String "e" rest))) =>
          Some (JBool true, rest)
      | String "f" (String "a" (String "l" (String "s" (String "e" rest)))) =>
          Some (JBool false, rest)
      | String "034" rest =>
          '(str, rest') ← parse_string rest;
          Some (JStr str, rest')
      | String "[" rest =>
          match skip_ws rest with
          | String "]" rest' => Some (JArr [], rest')
          | _ =>
              '(l, rest') ← parse_elements fuel' rest;
              Some (JArr l, rest')
          end
      | String "{" rest =>
          match skip_ws rest with
          | String "}" rest' => Some (JObj [], rest')
          | _ =>
              '(l, rest') ← parse_members fuel' rest;
              Some (JObj l, rest')
          end
      | s' =>
          '(lit, rest) ← parse_number s';
          Some (JNum lit, rest)
      end
  end
with parse_elements (fuel : nat) (s : string)
    : option (list json * string) :=
  match fuel with
  | O => None
  | S fuel' =>
      '(v, rest) ← parse_value fuel' s;
      match skip_ws rest with
      | String "," rest' =>
          '(l, rest'') ← parse_elements fuel' rest';
          Some (v :: l, rest'')
      | String "]" rest' => Some ([v], rest')
      | _ => None
      end
  end
with parse_members (fuel : nat) (s : string)
    : option (list (string * json) * string) :=
  match fuel with
  | O => None
  | S fuel' =>
      match skip_ws s with
      | String "034" rest =>
          '(key, rest1) ← parse_string rest;
          match skip_ws rest1 with
          | String ":" rest2 =>
              '(v, rest3) ← parse_value fuel' rest2;
              match skip_ws rest3 with
              | String "," rest4 =>
                  '(l, rest5) ← parse_members fuel' rest4;
                  Some ((key, v) :: l, rest5)
              | String "}" rest4 => Some ([(key, v)], rest4)
              | _ => None
              end
          | _ => None
          end
      | _ => None
      end
  end.

Definition parse (text : string) : Result json :=
  match parse_value (2 * String.length text + 2) text with
  | Some (t, rest) =>
      match skip_ws rest with
      | EmptyString => Ok t
      | _ => Err "invalid character after top-level value"
      end
  | None =>
      match skip_ws text with
      | EmptyString => Err "unexpected end of JSON input"
      | _ => Err "invalid character in JSON input"
      end
  end.

Definition hex_digit (n : Z) : ascii :=
  match String.get (Z.to_nat n) "0123456789abcdef" with
  | Some c => c
  | None => "0"%char
  end.

Definition u00 (n : Z) : string :=
  "\u00" +:+ String (hex_digit (n / 16)) (String (hex_digit (n mod 16)) EmptyString).

(** A string literal as [json.Marshal] writes it, with its HTML escapes. *)
Fixpoint print_chars (s : string) : string :=
  match s with
  | EmptyString => EmptyString
  | String c s' =>
      let n := Go.byte_val c in
      (if Ascii.eqb c "034" then "\" +:+ Go.dquote
       else if Ascii.eqb c "\" then "\\"
       else if Ascii.eqb c "010" then "\n"
       else if Ascii.eqb c "013" then "\r"
       else if Ascii.eqb c "009" then "\t"
       else if Ascii.eqb c "008" then "\b"
       else if Ascii.eqb c "012" then "\f"
       else if (n <? 32)%Z || Ascii.eqb c "<" || Ascii.eqb c ">"
               || Ascii.eqb c "&" then u00 n
       else String c EmptyString) +:+ print_chars s'
  end.

Definition print_string (s : string) : string :=
  Go.dquote +:+ print_chars s +:+ Go.dquote.

Fixpoint print (t : json) : string :=
  match t with
  | JNull => "null"
  | JBool b => Go.fmt_bool b
  | JNum lit => lit
  | JStr s => print_string s
  | JArr l => "[" +:+ Go.Join (print <$> l) "," +:+ "]"
  | JObj members =>
      "{" +:+
      Go.Join ((λ kv, print_string kv.1 +:+ ":" +:+ print kv.2) <$> members) ","
      +:+ "}"
  end.

Fixpoint spaces (depth : nat) : string :=
  match depth with
  | O => EmptyString
  | S d => "  " +:+ spaces d
  end.

Definition line (depth : nat) : string := Go.newline +:+ spaces depth.

Fixpoint print_indent_at (depth : nat) (t : json) : string :=
  match t with
  | JArr [] => "[]"
  | JObj [] => "{}"
  | JArr l =>
      "[" +:+ line (S depth) +:+
      Go.Join (print_indent_at (S depth) <$> l) ("," +:+ line (S depth))
      +:+ line depth +:+ "]"
  | JObj members =>
      "{" +:+ line (S depth) +:+
      Go.Join
        ((λ kv, print_string kv.1 +:+ ": " +:+ print_indent_at (S depth) kv.2)
         <$> members) ("," +:+ line (S depth))
      +:+ line depth +:+ "}"
  | _ => print t
  end.

Definition print_indent (t : json) : string := print_indent_at 0 t.

Definition upper (c : ascii) : ascii :=
  let n := Go.byte_val c in
  if (97 <=? n)%Z && (n <=? 122)%Z then byte_of (n - 32) else c.

Definition lower (c : ascii) : ascii :=
  let n := Go.byte_val c in
  if (65 <=? n)%Z && (n <=? 90)%Z then byte_of (n + 32) else c.

Fixpoint map_string (f : ascii → ascii) (s : string) : string :=
  match s with
  | EmptyString => EmptyString
  | String c s' => String (f c) (map_string f s')
  end.

Fixpoint trim_left (s : string) : string :=
  match s with
  | String c s' => if Ascii.is_space c then trim_left s' else s
  | EmptyString => s
  end.

Definition trim (s : string) : string :=
  String.rev (trim_left (String.rev (trim_left s))).

(** Whether [s] starts with a decimal number, after an optional sign. *)
Definition scans_float (s : string) : bool :=
  let s1 := match s with
            | String "-" s' | String "+" s' => s'
            | _ => s
            end in
  match s1 with
  | String c (String d _) =>
      Go.is_digit c || (Ascii.eqb c "." && Go.is_digit d)
  | String c EmptyString => Go.is_digit c
  | EmptyString => false
  end.

Definition lib : GoLib := {|
  float64 := string;
  ParseFloat lit := Some lit;
  FormatFloat f := f;
  MarshalFloat f := Ok f;
  json_parse := parse;
  json_print := print;
  json_print_indent := print_indent;
  ToUpper := map_string upper;
  ToLower := map_string lower;
  TrimSpace := trim;
  Fields := String.words;
  Sscanf_float := scans_float;
|}.

(** The text input appends the text of a typed key. *)
Definition toolkit : Toolkit := {|
  textinput_Update v k :=
    match key_Type k with
    | KeyRunes => (v +:+ key_Runes k, false)
    | KeySpace => (v +:+ " ", false)
    | _ => (v, false)
    end;
|}.

(** A JSON text written with apostrophes in place of double quotes. *)
Definition js (s : string) : string :=
  map_string (λ c, if Ascii.eqb c "'" then ascii_of_nat 34 else c) s.

(** A table store that serves a fixed list of pages: its state is the
    number of calls made so far, and the continuation cursor that comes
    with page [i], when a page follows, is the number [i + 1] (as the
    table name for [ListTables], in the attribute [page] of the key for
    [Scan] and [Query]). *)
Fixpoint cursor_page (n : nat) (c : string) : option nat :=
  match n with
  | O => None
  | S n' =>
      if decide (c = Go.Itoa (Z.of_nat n)) then Some n else cursor_page n' c
  end.

Definition paged {A} (pages : list (list A)) (start : option string)
    : Result (list A * option string) :=
  match
    match start with
    | None => Some 0%nat
    | Some c => cursor_page (length pages) c
    end
  with
  | Some i =>
      match pages !! i with
      | Some p =>
          Ok (p, if decide (S i < length pages)%nat
                 then Some (Go.Itoa (Z.of_nat (S i))) else None)
      | None => Err "no such page"
      end
  | None => Err "invalid continuation cursor"
  end.

Definition cursor_key (c : string) : Item :=
  {[ "page" := AttributeValueMemberN c ]}.

Definition key_cursor (k : Item) : string :=
  match k !! "page" with
  | Some (AttributeValueMemberN c) => c
  | _ => EmptyString
  end.

Definition paged_client (pages : list (list Item)) (names : list (list string))
    : Client nat := {|
  client_ListTables calls input :=
    (rmap (λ '(p, c),
           {| TableNames := p; LastEvaluatedTableName := c |})
       (paged names (ExclusiveStartTableName input)), S calls);
  client_Scan calls input :=
    (rmap (λ '(p, c),
           {| scan_Items := p; scan_LastEvaluatedKey := cursor_key <$> c |})
       (paged pages (key_cursor <$> scan_ExclusiveStartKey input)), S calls);
  client_Query calls input :=
    (rmap (λ '(p, c),
           {| query_Items := p; query_LastEvaluatedKey := cursor_key <$> c |})
       (paged pages (key_cursor <$> query_ExclusiveStartKey input)), S calls);
  client_GetItem calls _ _ := (Ok None, S calls);
  client_PutItem calls _ _ := (None, S calls);
  client_DeleteItem calls _ _ := (None, S calls);
|}.

End Ref.

(** ** Vocabulary of the properties *)

(** Whether every entry of a map passes a test. *)
Definition map_all {A} (f : string → A → bool) (m : gmap string A) : bool :=
  map_fold (λ k v acc, f k v && acc) true m.

Fixpoint av_size (v : AttributeValue) : nat :=
  match v with
  | AttributeValueMemberL l => S (foldr (λ x n, av_size x + n) 0 l)
  | AttributeValueMemberM m => S (map_fold (λ _ x n, av_size x + n) 0 m)
  | _ => 1
  end.






(** Whether no attribute name of a value, at any depth, ends in a type
    hint. *)
Fixpoint hint_free (v : AttributeValue) : bool :=
  match v with
  | AttributeValueMemberL l => forallb hint_free l
  | AttributeValueMemberM m =>
      map_all (λ k x, negb (hasTypeHint k) && hint_free x) m
  | _ => true
  end.

Definition hint_free_item (item : Item) : bool :=
  hint_free (AttributeValueMemberM item).

(** Whether no top-level attribute name of a record ends in a type hint. *)
Definition unhinted_names (item : Item) : bool :=
  map_all (λ k _, negb (hasTypeHint k)) item.

Section Vocabulary.
Context `{GoLib}.

(** The dynamic values that mark a hinted set. *)
Definition is_slice (x : Any) : bool :=
  match x with
  | AStrings _ | ABytesList _ => true
  | _ => false
  end.




(** Where a name of a decoded map comes from: a name of the source that
    carried no hint, or a hinted name of the source without its last
    suffix. *)
Definition name_origin (data : gmap string Any) (k : string) : Prop :=
  (is_Some (data !! k) ∧ hasTypeHint k = false)
  ∨ (∃ key typeHint,
       is_Some (data !! key) ∧ splitTypeHint key = Some (k, typeHint)).

(** No name of the source carries two stacked suffixes. *)
Definition single_hints (data : gmap string Any) : bool :=
  map_all
    (λ key _,
       match splitTypeHint key with
       | Some (cleanKey, _) => negb (hasTypeHint cleanKey)
       | None => true
       end) data.

End Vocabulary.

(** A store that, called with the cursors it hands out, serves [pages] and
    then no cursor: [call b c] is one call in state [b] with start cursor
    [c], and [b'] is the state after the last page was served. *)
Inductive Pages {B C A : Type}
    (call : B → option C → Result (list A * option C) * B)
    : B → option C → list (list A) → B → Prop :=
| Pages_last b c p b' :
    call b c = (Ok (p, None), b') →
    Pages call b c [p] b'
| Pages_more b c p c' b1 ps b' :
    call b c = (Ok (p, Some c'), b1) →
    Pages call b1 (Some c') ps b' →
    Pages call b c (p :: ps) b'.

Section Calls.
Context {B : Type} (client : Client B).

Definition listTablesCall (b : B) (c : option string)
    : Result (list string * option string) * B :=
  let '(r, b') :=
    client_ListTables client b {| ExclusiveStartTableName := c |} in
  (rmap (λ out, (TableNames out, LastEvaluatedTableName out)) r, b').

Definition scanCall (tableName : string) (indexName : option string)
    (b : B) (c : option Item) : Result (list Item * option Item) * B :=
  let '(r, b') :=
    client_Scan client b
      {| scan_TableName := tableName; scan_IndexName := indexName;
         scan_ExclusiveStartKey := c |} in
  (rmap (λ out, (scan_Items out, scan_LastEvaluatedKey out)) r, b').

Definition queryCall (tableName : string) (indexName : option string)
    (keyCondition : string) (exprValues : Item)
    (b : B) (c : option Item) : Result (list Item * option Item) * B :=
  let '(r, b') :=
    client_Query client b
      {| query_TableName := tableName;
         query_KeyConditionExpression := keyCondition;
         query_ExpressionAttributeValues := exprValues;
         query_IndexName := indexName;
         query_ExclusiveStartKey := c |} in
  (rmap (λ out, (query_Items out, query_LastEvaluatedKey out)) r, b').

End Calls.

(** The invariant of the session on its record list. *)
Definition session_inv (m : Model) : Prop :=
  (items m ≠ [] → (0 ≤ cursor m < Go.count (items m))%Z)
  ∧ (items m = [] → cursor m = 0%Z)
  ∧ (∀ i, is_Some (selected m !! i) → (0 ≤ i < Go.count (items m))%Z).

(** The same invariant as a test. *)
Definition session_ok (m : Model) : bool :=
  (if (0 <? Go.count (items m))%Z
   then (0 <=? cursor m)%Z && (cursor m <? Go.count (items m))%Z
   else (cursor m =? 0)%Z)
  && forallb (λ i, (0 <=? i)%Z && (i <? Go.count (items m))%Z)
       (map_to_list (selected m)).*1.

(** What the handlers outside Normal mode leave alone: the records, the
    cursor, the selection and the chord buffer. *)
Definition kept (m m' : Model) : Prop :=
  items m' = items m ∧ cursor m' = cursor m ∧ selected m' = selected m
  ∧ keyBuffer m' = keyBuffer m.

(** Whether every Number of a value, at any depth, is a number literal of
    JSON (the empty text counts as [0]). *)
Fixpoint valid_numbers (v : AttributeValue) : bool :=
  match v with
  | AttributeValueMemberN s =>
      Go.isValidNumber (if decide (s = EmptyString) then "0" else s)
  | AttributeValueMemberL l => forallb valid_numbers l
  | AttributeValueMemberM m => map_all (λ _, valid_numbers) m
  | _ => true
  end.

(** Values without a Set or a Binary at any depth. *)
Fixpoint no_sets (v : AttributeValue) : bool :=
  match v with
  | AttributeValueMemberL l => forallb no_sets l
  | AttributeValueMemberM m => map_all (λ _, no_sets) m
  | AttributeValueMemberSS _ | AttributeValueMemberNS _
  | AttributeValueMemberB _ | AttributeValueMemberBS _ => false
  | _ => true
  end.

(** Whether a value is a String. *)
Definition is_S (v : AttributeValue) : bool :=
  match v with AttributeValueMemberS _ => true | _ => false end.

(** Whether no name of a JSON object ends in a type hint. *)
Definition unhinted_object {A} (data : gmap string A) : bool :=
  map_all (λ k _, negb (hasTypeHint k)) data.

Fixpoint json_size (t : json) : nat :=
  match t with
  | JArr l => S (foldr (λ x n, json_size x + n) 0 l)
  | JObj members => S (foldr (λ kv n, json_size kv.2 + n) 0 members)
  | _ => 1
  end.

(** Whether a byte occurs in a text, and a text without its spaces and
    newlines. *)
Fixpoint has_byte (c : ascii) (s : string) : bool :=
  match s with
  | EmptyString => false
  | String a s' => Ascii.eqb a c || has_byte c s'
  end.

Fixpoint solid (s : string) : string :=
  match s with
  | EmptyString => EmptyString
  | String a s' =>
      if Ascii.eqb a " " || Ascii.eqb a (ascii_of_nat 10) then solid s'
      else String a (solid s')
  end.

(** The pieces that [wrapText] writes for a width: short, and without a
    newline. *)
Definition fits (maxWidth : nat) (piece : string) : Prop :=
  (String.length piece ≤ maxWidth)%nat
  ∧ has_byte (ascii_of_nat 10) piece = false.

(** The attribute names of the elements of a schema with a given key
    type, in the order of the schema. *)
Definition keyNames (keyType : string) (schema : list KeySchemaElement)
    : list string :=
  AttributeName <$> filter (λ key, schema_KeyType key = keyType) schema.

(** A store whose calls fail after some pages: [call b c] asked with the
    cursors it hands out serves the pages [served] and then fails with [e];
    [b'] is the state after the failing call. *)
Inductive PagesFail {B C A : Type}
    (call : B → option C → Result (list A * option C) * B)
    : B → option C → list (list A) → error → B → Prop :=
| PagesFail_now b c e b' :
    call b c = (Err e, b') →
    PagesFail call b c [] e b'
| PagesFail_later b c p c' b1 served e b' :
    call b c = (Ok (p, Some c'), b1) →
    PagesFail call b1 (Some c') served e b' →
    PagesFail call b c (p :: served) e b'.

(** The indexes of the session are in range: the cursor is not negative,
    and the current table is one of the tables when there are tables. *)
Definition index_inv (m : Model) : Prop :=
  (0 ≤ cursor m)%Z
  ∧ (tables m ≠ [] → (0 ≤ currentTable m < Go.count (tables m))%Z).

(** The chord buffer holds nothing or the first key of a chord. *)
Definition chord_inv (m : Model) : Prop :=
  keyBuffer m = EmptyString ∨ keyBuffer m = "d" ∨ keyBuffer m = "g".

(** The selection holds marks only: every entry of it is [true]. *)
Definition marks_only (m : Model) : Prop :=
  map_Forall (λ _ b, b = true) (selected m).

(** The message that brings a record fetched for an edit. *)
Definition brings_record (msg : Msg) : bool :=
  match msg with
  | itemFetchedForEditMsg (Some _) None => true
  | _ => false
  end.

(** ** Sample inputs *)


Definition sample_table : TableInfo :=
  {| Name := "users"; PartitionKey := "pk"; SortKey := EmptyString;
     GlobalIndexes := []; LocalIndexes := [] |}.

Definition sample_os : OS :=
  {| files := ∅; EDITOR := EmptyString; createTemp := Ok "/tmp/dui-1.json";
     writeString := None |}.

Definition record (pk : string) : Item :=
  {[ "pk" := AttributeValueMemberS pk ]}.

(** Three pages of two records, and three pages of two table names. *)
Definition three_pages : list (list Item) :=
  [[record "a"; record "b"]; [record "c"; record "d"];
   [record "e"; record "f"]].

Definition three_name_pages : list (list string) :=
  [["t1"; "t2"]; ["t3"; "t4"]; ["t5"; "t6"]].

Definition sample_client : Client nat :=
  Ref.paged_client three_pages three_name_pages.

Definition typed (s : string) : Msg := KeyPress (runes s).

(** A backend error as the client reports it: longer than fifty bytes. *)
Definition long_error : error :=
  "get item failed: operation error DynamoDB: GetItem, request send failed".

(** The session once three records are on screen, the third one selected. *)
Definition browsing : list Msg :=
  [tablesLoadedMsg [sample_table] None;
   itemsLoadedMsg [record "a"; record "b"; record "c"] None false;
   typed "j"; typed "j"; KeyPress (special KeySpace)].

(** A session with the tables [ts] loaded and the [i]-th one current. *)
Definition with_tables (ts : list TableInfo) (i : Z) : Model :=
  {| tables := ts; currentTable := i; requestedTable := EmptyString;
     items := []; cursor := 0; selected := ∅; width := 0; height := 0;
     mode := ModeNormal; input := EmptyString; keyBuffer := EmptyString;
     status := EmptyString; err := None;
     viewContent := EmptyString; editTmpFile := EmptyString;
     editOrigContent := EmptyString; preserveStatus := false;
     lastError := EmptyString |}.

Definition orders_table : TableInfo :=
  {| Name := "orders"; PartitionKey := "customer"; SortKey := "day";
     GlobalIndexes := []; LocalIndexes := [] |}.

(** A session with three records on screen, the cursor on the third one,
    which is selected. *)
Definition selecting : Model :=
  set_selected
    (set_cursor
       (set_items (with_tables [sample_table] 0)
          [record "a"; record "b"; record "c"]) 2)
    {[ 2%Z := true ]}.

(** A store that serves one page with a cursor and fails from then on. *)
Definition failing_client : Client nat := {|
  client_ListTables calls input :=
    (match calls with
     | O => Ok {| TableNames := ["t1"]; LastEvaluatedTableName := Some "t1" |}
     | _ => Err "connection reset"
     end, S calls);
  client_Scan calls input :=
    (match calls with
     | O => Ok {| scan_Items := [record "a"];
                  scan_LastEvaluatedKey := Some (record "a") |}
     | _ => Err "connection reset"
     end, S calls);
  client_Query calls input :=
    (match calls with
     | O => Ok {| query_Items := [record "a"];
                  query_LastEvaluatedKey := Some (record "a") |}
     | _ => Err "connection reset"
     end, S calls);
  client_GetItem calls _ _ := (Err "connection reset", S calls);
  client_PutItem calls _ _ := (Some "connection reset", S calls);
  client_DeleteItem calls _ _ := (Some "connection reset", S calls);
|}.

(** A store that describes every table with the same schema. *)
Definition orders_schema : TableDescription :=
  {| KeySchema := [ {| AttributeName := "customer"; schema_KeyType := "HASH" |};
                    {| AttributeName := "day"; schema_KeyType := "RANGE" |} ];
     GlobalSecondaryIndexes :=
       [ {| IndexName := "by-day";
            index_KeySchema :=
              [ {| AttributeName := "day"; schema_KeyType := "HASH" |} ] |} ];
     LocalSecondaryIndexes := [] |}.

Definition describe_orders (calls : nat) (tableName : string)
    : Result TableDescription * nat :=
  (Ok orders_schema, S calls).

(** * Properties *)

(** ** Results, lists and maps *)


Lemma rsequence_Ok_inv {A} (l : list (Result A)) (l' : list A) :
  rsequence l = Ok l' → l = Ok <$> l'.
Proof.
  revert l'. induction l as [|r l IH]; intros l' Hl; simpl in Hl.
  - by inversion Hl.
  - destruct r as [a|e]; simpl in Hl; [|done].
    destruct (rsequence l) as [l0|e] eqn:Hs; simpl in Hl; [|done].
    inversion Hl; subst. simpl. f_equal. by apply IH.
Qed.

Lemma members_to_map_reverse {A} (l : list (string * A)) :
  members_to_map l = list_to_map (reverse l).
Proof.
  unfold members_to_map, list_to_map. generalize (∅ : gmap string A).
  induction l as [|[k x] l IH]; intros acc; simpl; [done|].
  by rewrite IH, reverse_cons, foldr_app.
Qed.



Lemma members_to_map_to_list {A} (m : gmap string A) :
  members_to_map (map_to_list m) = m.
Proof.
  rewrite members_to_map_reverse.
  rewrite <- (list_to_map_to_list m) at 2.
  apply list_to_map_proper.
  - rewrite fmap_reverse, reverse_Permutation. apply NoDup_fst_map_to_list.
  - apply reverse_Permutation.
Qed.

Lemma map_all_true {A} (f : string → A → bool) (m : gmap string A) :
  map_all f m = true ↔ ∀ k v, m !! k = Some v → f k v = true.
Proof.
  change (∀ k v, m !! k = Some v → f k v = true)
    with (map_Forall (λ k v, f k v = true) m).
  rewrite map_Forall_to_list. unfold map_all. rewrite map_fold_foldr.
  induction (map_to_list m) as [|[k v] l IH]; simpl.
  - split; auto.
  - by rewrite andb_true_iff, IH, Forall_cons.
Qed.

(** ** Induction on record values *)

Lemma av_size_elem (x : AttributeValue) (l : list AttributeValue) :
  x ∈ l → (av_size x < av_size (AttributeValueMemberL l))%nat.
Proof.
  induction 1 as [x l|x y l _ IH]; simpl in *; lia.
Qed.

Lemma av_size_lookup (m : gmap string AttributeValue) k x :
  m !! k = Some x → (av_size x < av_size (AttributeValueMemberM m))%nat.
Proof.
  intros Hk. simpl.
  rewrite (map_fold_delete_L _ _ k x m); [lia| |done].
  intros. lia.
Qed.

Lemma AttributeValue_nested_ind (P : AttributeValue → Prop) :
  (∀ s, P (AttributeValueMemberS s)) →
  (∀ s, P (AttributeValueMemberN s)) →
  (∀ b, P (AttributeValueMemberBOOL b)) →
  (∀ b, P (AttributeValueMemberNULL b)) →
  (∀ l, Forall P l → P (AttributeValueMemberL l)) →
  (∀ m, map_Forall (λ _, P) m → P (AttributeValueMemberM m)) →
  (∀ l, P (AttributeValueMemberSS l)) →
  (∀ l, P (AttributeValueMemberNS l)) →
  (∀ b, P (AttributeValueMemberB b)) →
  (∀ l, P (AttributeValueMemberBS l)) →
  ∀ v, P v.
Proof.
  intros HS HN HB HNull HL HM HSS HNS HBin HBS v.
  remember (av_size v) as n eqn:Hn. revert v Hn.
  induction n as [n IH] using lt_wf_ind. intros v ->.
  destruct v; auto.
  - apply HL, Forall_forall. intros x Hx.
    eapply IH; [|done]. by apply av_size_elem.
  - apply HM. intros k x Hk.
    eapply IH; [|done]. by eapply av_size_lookup.
Qed.

(** ** The codec: what is read back from an encoded record *)

Section CodecFacts.
Context `{GoLib}.




Lemma valueToAttr_AMap (val : gmap string Any) :
  (∀ k x, val !! k = Some x → is_slice x = false) →
  valueToAttr (AMap val) = AttributeValueMemberM (valueToAttr <$> val).
Proof.
  intros Hval. simpl.
  destruct (val !! "__SS") as [x1|] eqn:E1;
    [pose proof (Hval _ _ E1); destruct x1; try done|];
    (destruct (val !! "__NS") as [x2|] eqn:E2;
     [pose proof (Hval _ _ E2); destruct x2; try done|]);
    (destruct (val !! "__BS") as [x3|] eqn:E3;
     [pose proof (Hval _ _ E3); destruct x3; try done|]); done.
Qed.





(** [processTypeHints] on a map without hinted names returns the map. *)
Lemma processEntries_unhinted convert (entries : list (string * Any))
    (result : gmap string Any) :
  Forall (λ kv, hasTypeHint kv.1 = false) entries →
  processEntries convert entries result
  = Some (Ok (fold_left (λ m kv, <[kv.1 := kv.2]> m) entries result)).
Proof.
  intros Hall. revert result.
  induction Hall as [|[k x] l Hk _ IH]; intros result; simpl; [done|].
  unfold hasTypeHint in Hk. simpl in Hk.
  destruct (splitTypeHint k); [done|]. apply IH.
Qed.

Lemma processTypeHints_unhinted fuel (data : gmap string Any) :
  (∀ k, is_Some (data !! k) → hasTypeHint k = false) →
  processTypeHints (S fuel) data = Some (Ok data).
Proof.
  intros Hk. simpl. rewrite processEntries_unhinted.
  - do 2 f_equal. apply members_to_map_to_list.
  - apply Forall_forall. intros [k x] Hkx. simpl.
    apply Hk. apply elem_of_map_to_list in Hkx. by eexists.
Qed.


End CodecFacts.


Section RoundtripExamples.
Local Existing Instance Ref.lib.



End RoundtripExamples.

(** ** The codec: names and failures of decoding *)

Section HintFacts.
Context `{GoLib}.

Lemma processEntries_names convert (entries : list (string * Any))
    (result r : gmap string Any) (k : string) :
  processEntries convert entries result = Some (Ok r) →
  is_Some (r !! k) →
  is_Some (result !! k)
  ∨ (∃ key x, (key, x) ∈ entries
       ∧ ((k = key ∧ hasTypeHint key = false)
          ∨ ∃ typeHint, splitTypeHint key = Some (k, typeHint))).
Proof.
  revert result.
  induction entries as [|[key x] entries IH]; intros result Hrun Hk;
    simpl in Hrun.
  - left. by simplify_eq.
  - destruct (splitTypeHint key) as [[cleanKey typeHint]|] eqn:Hsplit.
    + destruct (convert x typeHint) as [[y|e]|]; try done.
      destruct (IH _ Hrun Hk) as [Hin|(key' & x' & Hin & Hor)].
      * destruct (decide (cleanKey = k)) as [->|Hne].
        -- right. exists key, x. split; [left|]. right. by exists typeHint.
        -- left. by rewrite lookup_insert_ne in Hin.
      * right. exists key', x'. split; [by right|done].
    + destruct (IH _ Hrun Hk) as [Hin|(key' & x' & Hin & Hor)].
      * destruct (decide (key = k)) as [->|Hne].
        -- right. exists k, x. split; [left|]. left. split; [done|].
           unfold hasTypeHint. by rewrite Hsplit.
        -- left. by rewrite lookup_insert_ne in Hin.
      * right. exists key', x'. split; [by right|done].
Qed.

(** Every name that a call of [processTypeHints] returns (the call on
    the JSON object and each call under an [M] hint) is a name of its
    argument without hint, or a hinted name without its last suffix. *)
Lemma processTypeHints_names fuel (data r : gmap string Any) (k : string) :
  processTypeHints fuel data = Some (Ok r) →
  is_Some (r !! k) → name_origin data k.
Proof.
  destruct fuel as [|fuel]; [done|]. simpl. intros Hrun Hk.
  destruct (processEntries_names _ _ _ _ _ Hrun Hk)
    as [Hin|(key & x & Hin & Hor)].
  - rewrite lookup_empty in Hin. by destruct Hin.
  - apply elem_of_map_to_list in Hin.
    destruct Hor as [[-> Hno]|[typeHint Hsplit]].
    + left. split; [by eexists|done].
    + right. exists key, typeHint. split; [by eexists|done].
Qed.

Lemma processEntries_Err convert (entries : list (string * Any))
    (result : gmap string Any) (e : error) :
  processEntries convert entries result = Some (Err e) →
  ∃ key x cleanKey typeHint inner,
    (key, x) ∈ entries
    ∧ splitTypeHint key = Some (cleanKey, typeHint)
    ∧ convert x typeHint = Some (Err inner)
    ∧ e = conversion_error cleanKey typeHint inner.
Proof.
  revert result.
  induction entries as [|[key x] entries IH]; intros result Hrun;
    simpl in Hrun; [done|].
  destruct (splitTypeHint key) as [[cleanKey typeHint]|] eqn:Hsplit.
  - destruct (convert x typeHint) as [[y|inner]|] eqn:Hc; try done.
    + destruct (IH _ Hrun) as (k' & x' & c' & t' & i' & Hin & ?).
      exists k', x', c', t', i'. split; [by right|done].
    + simplify_eq. exists key, x, cleanKey, typeHint, inner.
      split; [left|done].
  - destruct (IH _ Hrun) as (k' & x' & c' & t' & i' & Hin & ?).
    exists k', x', c', t', i'. split; [by right|done].
Qed.






(** More fuel does not change a result. *)
Lemma processEntries_rec_mono (rec1 rec2 : gmap string Any → option (Result (gmap string Any)))
    (entries : list (string * Any)) (result : gmap string Any) res :
  (∀ m r, rec1 m = Some r → rec2 m = Some r) →
  processEntries (convertValueWithTypeHint rec1) entries result = Some res →
  processEntries (convertValueWithTypeHint rec2) entries result = Some res.
Proof.
  intros Hrec. revert result.
  induction entries as [|[key x] entries IH]; intros result; simpl; [done|].
  destruct (splitTypeHint key) as [[cleanKey typeHint]|]; [|apply IH].
  assert (∀ c, convertValueWithTypeHint rec1 x typeHint = Some c →
               convertValueWithTypeHint rec2 x typeHint = Some c) as Hc.
  { unfold convertValueWithTypeHint.
    destruct (hintCase typeHint) as [[]|]; try done;
      destruct x; try done; intros c;
      try (destruct (Unmarshal_map s); [|done]);
      (match goal with
       | |- option_map _ (rec1 ?m) = _ → _ =>
           destruct (rec1 m) as [r1|] eqn:Hr1; [|done];
           by rewrite (Hrec _ _ Hr1)
       end). }
  destruct (convertValueWithTypeHint rec1 x typeHint) as [c|] eqn:Hc1; [|done].
  rewrite (Hc _ eq_refl). destruct c; [apply IH|done].
Qed.

Lemma processTypeHints_mono fuel fuel' (data : gmap string Any) res :
  (fuel ≤ fuel')%nat →
  processTypeHints fuel data = Some res →
  processTypeHints fuel' data = Some res.
Proof.
  revert fuel' data res.
  induction fuel as [|fuel IH]; intros fuel' data res Hle Hrun; [done|].
  destruct fuel' as [|fuel']; [lia|]. simpl in *.
  eapply processEntries_rec_mono; [|done].
  intros m r. apply IH. lia.
Qed.

End HintFacts.

(** C2, as amended. When decoding succeeds, every top-level attribute name
    of the record is a name of the JSON object that carried no hint, kept as
    written, or a hinted name of the JSON object without its last suffix; so
    no top-level name retains a suffix unless a name of the JSON object
    carried two stacked suffixes. (The names inside a Map value that carried
    no hint are not examined.) *)
Theorem decoded_names `{GoLib} (fuel : nat) (text : string)
    (data : gmap string Any) (item : Item) :
  Unmarshal_map text = Ok data →
  JSONToItem fuel text = Some (Ok item) →
  (∀ k, is_Some (item !! k) → name_origin data k)
  ∧ (single_hints data = true → unhinted_names item = true).
Proof.
  intros Hparse Hdec. unfold JSONToItem in Hdec. rewrite Hparse in Hdec.
  destruct (processTypeHints fuel data) as [[r|e]|] eqn:Hrun; simplify_eq.
  assert (∀ k, is_Some (interfaceToAttributeValue r !! k) → name_origin data k)
    as Hnames.
  { intros k [x Hk]. unfold interfaceToAttributeValue in Hk.
    rewrite lookup_fmap in Hk. eapply processTypeHints_names; [done|].
    destruct (r !! k); [by eexists|done]. }
  split; [done|].
  intros Hsingle. unfold single_hints in Hsingle.
  rewrite map_all_true in Hsingle.
  apply map_all_true. intros k x Hk. apply negb_true_iff.
  destruct (Hnames k) as [[_ Hno]|(key & typeHint & [y Hy] & Hsplit)];
    [by eexists|done|].
  specialize (Hsingle _ _ Hy). rewrite Hsplit in Hsingle.
  by apply negb_true_iff.
Qed.



Section HintExamples.
Local Existing Instance Ref.lib.


(** The names of the record decoded from an object whose one name is
    [age<N>]: the record has the name [age]. *)
Lemma decoded_names_witness :
Unmarshal_map (Ref.js "{'age<N>': '5'}") = Ok {[ "age<N>" := AString "5" ]}
∧ JSONToItem 1 (Ref.js "{'age<N>': '5'}")
  = Some (Ok {[ "age" := AttributeValueMemberN "5" ]})
∧ (∀ k, is_Some (({[ "age" := AttributeValueMemberN "5" ]} : Item) !! k) →
        name_origin {[ "age<N>" := AString "5" ]} k)
∧ (single_hints ({[ "age<N>" := AString "5" ]} : gmap string Any) = true →
   unhinted_names {[ "age" := AttributeValueMemberN "5" ]} = true).
Proof.
assert (Unmarshal_map (Ref.js "{'age<N>': '5'}")
        = Ok {[ "age<N>" := AString "5" ]}) as H1
  by (vm_compute; reflexivity).
assert (JSONToItem 1 (Ref.js "{'age<N>': '5'}")
        = Some (Ok {[ "age" := AttributeValueMemberN "5" ]})) as H2
  by (vm_compute; reflexivity).
split; [exact H1|]. split; [exact H2|].
exact (decoded_names 1 _ _ _ H1 H2).
Defined.

(** C2, counterexample: a name inside a Map that carried no hint keeps its
  suffix. *)
Lemma nested_name_keeps_hint :
JSONToItem 1 (Ref.js "{'m': {'x<S>': 'v'}}")
= Some (Ok {[ "m" := AttributeValueMemberM
                       {[ "x<S>" := AttributeValueMemberS "v" ]} ]})
∧ hasTypeHint "x<S>" = true
∧ hint_free_item
    {[ "m" := AttributeValueMemberM
                {[ "x<S>" := AttributeValueMemberS "v" ]} ]} = false.
Proof. repeat split; vm_compute; reflexivity. Qed.



End HintExamples.

(** ** The paginated calls *)

Section PaginationFacts.
Context {B : Type} (client : Client B).

Lemma ListTables_loop_pages b c pages b' :
  Pages (listTablesCall client) b c pages b' →
  ∀ fuel tables, (length pages ≤ fuel)%nat →
    ListTables_loop client fuel b tables c
    = Some (Ok (tables ++ concat pages), b').
Proof.
  induction 1 as [b c p b' Hcall|b c p c' b1 ps b' Hcall _ IH];
    intros [|fuel] tables Hfuel; simpl in Hfuel; try lia;
    simpl; unfold listTablesCall in Hcall;
    destruct (client_ListTables client b _) as [[out|e] b0];
    simpl in Hcall; try discriminate;
    injection Hcall as Hp Hc ->.
  - by rewrite Hc, Hp, app_nil_r.
  - rewrite Hc, Hp, IH by lia. by rewrite <- app_assoc.
Qed.

Lemma Scan_loop_pages tableName indexName b c pages b' :
  Pages (scanCall client tableName indexName) b c pages b' →
  ∀ fuel items, (length pages ≤ fuel)%nat →
    Scan_loop client fuel b tableName indexName items c
    = Some (Ok (items ++ concat pages), b').
Proof.
  induction 1 as [b c p b' Hcall|b c p c' b1 ps b' Hcall _ IH];
    intros [|fuel] items Hfuel; simpl in Hfuel; try lia;
    simpl; unfold scanCall in Hcall;
    destruct (client_Scan client b _) as [[out|e] b0];
    simpl in Hcall; try discriminate;
    injection Hcall as Hp Hc ->.
  - by rewrite Hc, Hp, app_nil_r.
  - rewrite Hc, Hp, IH by lia. by rewrite <- app_assoc.
Qed.

Lemma Query_loop_pages tableName indexName keyCondition exprValues
    b c pages b' :
  Pages (queryCall client tableName indexName keyCondition exprValues)
    b c pages b' →
  ∀ fuel items, (length pages ≤ fuel)%nat →
    Query_loop client fuel b tableName indexName keyCondition exprValues
      items c
    = Some (Ok (items ++ concat pages), b').
Proof.
  induction 1 as [b c p b' Hcall|b c p c' b1 ps b' Hcall _ IH];
    intros [|fuel] items Hfuel; simpl in Hfuel; try lia;
    simpl; unfold queryCall in Hcall;
    destruct (client_Query client b _) as [[out|e] b0];
    simpl in Hcall; try discriminate;
    injection Hcall as Hp Hc ->.
  - by rewrite Hc, Hp, app_nil_r.
  - rewrite Hc, Hp, IH by lia. by rewrite <- app_assoc.
Qed.

End PaginationFacts.

(** C8. Against a store that serves a list of pages, each listing, scanning
    and querying operation calls the store once per page, with no cursor
    first and then with the cursor of the previous response, and returns
    the records of all the pages in order; the closures of [loadItems] and
    of [executeQuery] turn them into one message. The state of the store
    at the end is its state after the call that served the last page: no
    call follows it. *)
Theorem pagination_collects_all_pages {B : Type} (client : Client B)
    (tableName indexName keyCondition : string) (exprValues : Item)
    (b b1 b2 b3 : B) (names : list (list string))
    (scanned queried : list (list Item)) (fuel : nat) :
  Pages (listTablesCall client) b None names b1 →
  Pages (scanCall client tableName (optIndexName indexName)) b None scanned b2 →
  Pages (queryCall client tableName (optIndexName indexName) keyCondition
           exprValues) b None queried b3 →
  (length names ≤ fuel)%nat →
  (length scanned ≤ fuel)%nat →
  (length queried ≤ fuel)%nat →
  ListTables client fuel b = Some (Ok (concat names), b1)
  ∧ Scan client fuel b tableName indexName = Some (Ok (concat scanned), b2)
  ∧ loadItems_run client fuel b tableName indexName
    = Some (itemsLoadedMsg (concat scanned) None false, b2)
  ∧ Query client fuel b tableName indexName keyCondition exprValues
    = Some (Ok (concat queried), b3)
  ∧ executeQuery_run client fuel b tableName indexName keyCondition exprValues
    = Some (itemsLoadedMsg (concat queried) None false, b3).
Proof.
  intros Hn Hs Hq Hfn Hfs Hfq.
  assert (Scan client fuel b tableName indexName
          = Some (Ok (concat scanned), b2)) as HS.
  { unfold Scan. by rewrite (Scan_loop_pages _ _ _ _ _ _ _ Hs). }
  assert (Query client fuel b tableName indexName keyCondition exprValues
          = Some (Ok (concat queried), b3)) as HQ.
  { unfold Query. by rewrite (Query_loop_pages _ _ _ _ _ _ _ _ _ Hq). }
  repeat split; try done.
  - unfold ListTables. by rewrite (ListTables_loop_pages _ _ _ _ _ Hn).
  - unfold loadItems_run. by rewrite HS.
  - unfold executeQuery_run. by rewrite HQ.
Qed.

(** The sample store serves its three pages to each of the three calls. *)
Lemma three_pages_listed :
  Pages (listTablesCall sample_client) 0%nat None three_name_pages 3%nat.
Proof.
  apply (Pages_more _ _ _ _ "1" 1%nat); [vm_compute; reflexivity|].
  apply (Pages_more _ _ _ _ "2" 2%nat); [vm_compute; reflexivity|].
  apply Pages_last. vm_compute; reflexivity.
Defined.

Lemma three_pages_scanned index :
  Pages (scanCall sample_client "t1" index) 0%nat None three_pages 3%nat.
Proof.
  apply (Pages_more _ _ _ _ (Ref.cursor_key "1") 1%nat); [vm_compute; reflexivity|].
  apply (Pages_more _ _ _ _ (Ref.cursor_key "2") 2%nat); [vm_compute; reflexivity|].
  apply Pages_last. vm_compute; reflexivity.
Defined.

Lemma three_pages_queried index cond vals :
  Pages (queryCall sample_client "t1" index cond vals) 0%nat None three_pages 3%nat.
Proof.
  apply (Pages_more _ _ _ _ (Ref.cursor_key "1") 1%nat); [vm_compute; reflexivity|].
  apply (Pages_more _ _ _ _ (Ref.cursor_key "2") 2%nat); [vm_compute; reflexivity|].
  apply Pages_last. vm_compute; reflexivity.
Defined.

(** Three pages of two records: six records, and three calls of the
    store. *)
Lemma pagination_collects_all_pages_witness :
  Pages (listTablesCall sample_client) 0%nat None three_name_pages 3%nat
  ∧ Pages (scanCall sample_client "t1" (optIndexName EmptyString)) 0%nat None
      three_pages 3%nat
  ∧ Pages (queryCall sample_client "t1" (optIndexName EmptyString) "pk = :pk"
             (record "a")) 0%nat None three_pages 3%nat
  ∧ ListTables sample_client 3 0%nat
    = Some (Ok ["t1"; "t2"; "t3"; "t4"; "t5"; "t6"], 3%nat)
  ∧ Scan sample_client 3 0%nat "t1" EmptyString
    = Some (Ok [record "a"; record "b"; record "c"; record "d"; record "e";
                record "f"], 3%nat)
  ∧ loadItems_run sample_client 3 0%nat "t1" EmptyString
    = Some (itemsLoadedMsg
              [record "a"; record "b"; record "c"; record "d"; record "e";
               record "f"] None false, 3%nat)
  ∧ Query sample_client 3 0%nat "t1" EmptyString "pk = :pk" (record "a")
    = Some (Ok [record "a"; record "b"; record "c"; record "d"; record "e";
                record "f"], 3%nat)
  ∧ executeQuery_run sample_client 3 0%nat "t1" EmptyString "pk = :pk"
      (record "a")
    = Some (itemsLoadedMsg
              [record "a"; record "b"; record "c"; record "d"; record "e";
               record "f"] None false, 3%nat).
Proof.
  split; [exact three_pages_listed|].
  split; [exact (three_pages_scanned _)|].
  split; [exact (three_pages_queried _ _ _)|].
  exact (pagination_collects_all_pages sample_client "t1" EmptyString
           "pk = :pk" (record "a") 0%nat 3%nat 3%nat 3%nat three_name_pages
           three_pages three_pages 3 three_pages_listed (three_pages_scanned _)
           (three_pages_queried _ _ _) (le_n 3) (le_n 3) (le_n 3)).
Defined.

(** ** The state machine *)

Section UIFacts.
Context `{GoLib} `{Toolkit}.

Lemma setError_spec (m : Model) (e : error) :
  lastError (setError m e) = e
  ∧ err (setError m e) = Some e
  ∧ ((50 < Go.len e)%Z →
     status (setError m e) = Go.slice_to e 47 +:+ "... (/err)"
     ∧ viewContent (setError m e) = e
     ∧ mode (setError m e) = ModeErrorView)
  ∧ ((Go.len e ≤ 50)%Z →
     status (setError m e) = e ∧ mode (setError m e) = mode m).
Proof.
  unfold setError.
  destruct (50 <? Go.len e)%Z eqn:Hlen; simpl.
  - apply Z.ltb_lt in Hlen. repeat split; try done; lia.
  - apply Z.ltb_ge in Hlen. repeat split; try done; lia.
Qed.

(** The four messages whose error goes through [setError]. *)
Lemma error_results_retained (m : Model) (os : OS) (e : error) :
  (∀ ts, Update m os (tablesLoadedMsg ts (Some e)) = Some (setError m e, os, None))
  ∧ (∀ its nm, Update m os (itemsLoadedMsg its (Some e) nm)
               = Some (setError m e, os, None))
  ∧ (∀ st, Update m os (operationDoneMsg st (Some e))
           = Some (setError m e, os, None))
  ∧ (∀ c o, Update m os (editorFinishedMsg c o (Some e))
            = Some (setError m e, os, None)).
Proof. done. Qed.

Lemma specialCommand_quit (c : string) :
  specialCommand c = Some SC_quit
  ↔ c = ":q" ∨ c = ":quit" ∨ c = "/q" ∨ c = backslash +:+ "q".
Proof.
  unfold specialCommand. split.
  - intros Hsc. by repeat (case_decide; [try discriminate|]).
  - intros Hq. by rewrite decide_True.
Qed.

(** No handler but the meta-command returns the command [Quit]. *)
Lemma openEditor_not_Quit m os content m' os' :
  openEditor m os content ≠ Some (m', os', Some Quit).
Proof.
  unfold openEditor. destruct (createTemp os); [|discriminate].
  destruct (writeString _); discriminate.
Qed.

Lemma putNewItem_not_Quit m os m' os' :
  putNewItem m os ≠ Some (m', os', Some Quit).
Proof.
  unfold putNewItem. destruct (0 <? _)%Z; [|apply openEditor_not_Quit].
  destruct (at_index _ _); [|discriminate]. apply openEditor_not_Quit.
Qed.

Lemma executeQuery_not_Quit m os args m' os' :
  executeQuery m os args ≠ Some (m', os', Some Quit).
Proof.
  unfold executeQuery. destruct (_ =? _)%Z; [discriminate|].
  destruct (at_index _ _) as [table|]; [|discriminate]. simpl.
  match goal with
  | |- context [mbind _ ?x] => destruct x as [[indexName keyArgs]|]
  end; [|discriminate]. simpl.
  destruct keyArgs as [|keyArg ?]; [discriminate|].
  destruct (ParseKeyValue keyArg) as [[pkName pkValue]|]; discriminate.
Qed.

Lemma keyed_command_not_Quit (f : string → Item → Cmd) m os args m' os' :
  (∀ n k, f n k ≠ Quit) →
  ((if (Go.count (tables m) =? 0)%Z
    then Some (set_status m "No table selected", os, None)
    else table ← at_index (tables m) (currentTable m);
         key ← commandKey table args;
         Some (m, os, Some (f (Name table) key))) : Step)
  ≠ Some (m', os', Some Quit).
Proof.
  intros Hf. destruct (_ =? _)%Z; [discriminate|].
  destruct (at_index _ _) as [table|]; [|discriminate]. simpl.
  destruct (commandKey table args) as [key|]; [|discriminate]. simpl.
  intros [= -> -> Hq]. by eapply Hf.
Qed.

End UIFacts.

(** C10. When the editor has exited without error and the content read back
    equals the original content, [Update] returns no command, so nothing is
    saved, and the session is unchanged but for its status text. *)
Theorem unchanged_edit_is_not_saved `{GoLib} `{Toolkit}
    (m : Model) (os : OS) (content : string) :
  Update m os (editorFinishedMsg content content None)
  = Some (set_status m "No changes made", os, None)
  ∧ items (set_status m "No changes made") = items m
  ∧ cursor (set_status m "No changes made") = cursor m
  ∧ selected (set_status m "No changes made") = selected m
  ∧ mode (set_status m "No changes made") = mode m
  ∧ status (set_status m "No changes made") = "No changes made".
Proof.
  repeat split. simpl. by rewrite decide_True.
Qed.

(** C4, as amended. The callback that runs when the editor exits removes
    the temporary file on each of its paths, before the content is parsed:
    once it has returned, the file does not exist, whatever the editor
    wrote and however it exited. *)
Theorem edit_file_removed_when_editor_exits `{GoLib} `{Toolkit}
    (m : Model) (origContent : string) (exit : option error) (os : OS) :
  files (openEditor_callback m origContent exit os).2 !! editTmpFile m = None.
Proof.
  unfold openEditor_callback.
  destruct exit as [e|]; [|destruct (os_ReadFile os (editTmpFile m))];
    simpl; apply lookup_delete_eq.
Qed.

(** C7, as amended. [executeCommand] quits exactly on the trimmed inputs
    [:q], [:quit], [/q] and [\q]; it opens the help on [:?], [:help], [/?]
    and [/help]; it shows the last error (or says there is none) on
    [/err]. *)
Theorem meta_commands `{GoLib} `{Toolkit} (m : Model) (os : OS) (cmd : string) :
  ((∃ m' os', executeCommand m os cmd = Some (m', os', Some Quit))
   ↔ TrimSpace cmd ∈ [":q"; ":quit"; "/q"; backslash +:+ "q"])
  ∧ (TrimSpace cmd ∈ [":?"; ":help"; "/?"; "/help"] →
     executeCommand m os cmd = Some (set_mode m ModeHelp, os, None))
  ∧ (TrimSpace cmd = "/err" →
     executeCommand m os cmd
     = Some (if decide (lastError m ≠ EmptyString)
             then set_mode (set_viewContent m (lastError m)) ModeErrorView
             else set_status m "No errors", os, None)).
Proof.
  unfold executeCommand. set (c := TrimSpace cmd).
  split; [|split].
  - rewrite !elem_of_cons, elem_of_nil. split.
    + intros (m' & os' & Hrun).
      destruct (specialCommand c) as [[]|] eqn:Hsc.
      * apply specialCommand_quit in Hsc. tauto.
      * discriminate.
      * by case_decide.
      * discriminate.
      * exfalso. destruct (Fields c) as [|part0 args]; [discriminate|].
        destruct (verb (ToLower part0)) as [[]|].
        -- destruct (0 <? _)%Z; [|discriminate].
           destruct (at_index _ _); discriminate.
        -- destruct (_ <? 1)%Z; [discriminate|].
           by eapply executeQuery_not_Quit.
        -- destruct (_ <? 1)%Z; [discriminate|].
           by eapply (keyed_command_not_Quit getCmd).
        -- by eapply putNewItem_not_Quit.
        -- destruct (_ <? 1)%Z; [discriminate|].
           by eapply (keyed_command_not_Quit fetchForEditCmd).
        -- destruct (_ <? 1)%Z; [discriminate|].
           by eapply (keyed_command_not_Quit deleteCmd).
        -- discriminate.
    + intros Hq. assert (specialCommand c = Some SC_quit) as ->.
      { apply specialCommand_quit. tauto. }
      eauto.
  - rewrite !elem_of_cons, elem_of_nil. intros Hh.
    unfold specialCommand.
    rewrite decide_False.
    + by rewrite decide_True by tauto.
    + unfold backslash. intros Hq.
      destruct Hh as [Hh|[Hh|[Hh|[Hh|[]]]]]; rewrite Hh in Hq;
        destruct Hq as [Hq|[Hq|[Hq|Hq]]]; discriminate.
  - intros ->. unfold specialCommand. simpl.
    by destruct (decide (lastError m ≠ EmptyString)).
Qed.

Section SessionFacts.
Context `{GoLib} `{Toolkit}.

Lemma kept_refl m : kept m m.
Proof. done. Qed.

Lemma kept_trans m1 m2 m3 : kept m1 m2 → kept m2 m3 → kept m1 m3.
Proof. unfold kept. intros (-> & -> & -> & ->) (-> & -> & -> & ->). done. Qed.

Lemma kept_setError m e : kept m (setError m e).
Proof. unfold setError. by destruct (50 <? _)%Z. Qed.

Lemma kept_openEditor m os content m' os' c :
  openEditor m os content = Some (m', os', c) → kept m m'.
Proof.
  unfold openEditor. destruct (createTemp os); [|by intros [= <- <- <-]].
  destruct (writeString _); by intros [= <- <- <-].
Qed.

Lemma kept_putNewItem m os m' os' c :
  putNewItem m os = Some (m', os', c) → kept m m'.
Proof.
  unfold putNewItem. destruct (0 <? _)%Z; [|apply kept_openEditor].
  destruct (at_index _ _); [|discriminate]. apply kept_openEditor.
Qed.

Lemma kept_editCurrentItem m os m' os' c :
  editCurrentItem m os = Some (m', os', c) → kept m m'.
Proof.
  unfold editCurrentItem. destruct (_ || _); [by intros [= <- <- <-]|].
  destruct (at_index _ _); [|discriminate]. apply kept_openEditor.
Qed.

Lemma kept_executeQuery m os args m' os' c :
  executeQuery m os args = Some (m', os', c) → kept m m'.
Proof.
  unfold executeQuery. destruct (_ =? _)%Z; [by intros [= <- <- <-]|].
  destruct (at_index _ _) as [table|]; [|discriminate]. simpl.
  match goal with
  | |- context [mbind _ ?x] => destruct x as [[indexName keyArgs]|]
  end; [|discriminate]. simpl.
  destruct keyArgs as [|keyArg ?]; [by intros [= <- <- <-]|].
  destruct (ParseKeyValue keyArg) as [[pkName pkValue]|];
    by intros [= <- <- <-].
Qed.

Lemma kept_keyed_command (f : string → Item → Cmd) m os args m' os' c :
  ((if (Go.count (tables m) =? 0)%Z
    then Some (set_status m "No table selected", os, None)
    else table ← at_index (tables m) (currentTable m);
         key ← commandKey table args;
         Some (m, os, Some (f (Name table) key))) : Step)
  = Some (m', os', c) → kept m m'.
Proof.
  destruct (_ =? _)%Z; [by intros [= <- <- <-]|].
  destruct (at_index _ _) as [table|]; [|discriminate]. simpl.
  destruct (commandKey table args) as [key|]; [|discriminate]. simpl.
  by intros [= <- <- <-].
Qed.

Lemma kept_executeCommand m os cmd m' os' c :
  executeCommand m os cmd = Some (m', os', c) → kept m m'.
Proof.
  unfold executeCommand.
  destruct (specialCommand _) as [[]|].
  - by intros [= <- <- <-].
  - by intros [= <- <- <-].
  - case_decide; by intros [= <- <- <-].
  - by intros [= <- <- <-].
  - destruct (Fields _) as [|part0 args]; [by intros [= <- <- <-]|].
    destruct (verb (ToLower part0)) as [[]|].
    + destruct (0 <? _)%Z.
      * destruct (at_index _ _); [|discriminate]. by intros [= <- <- <-].
      * intros [= <- <- <-]. apply kept_setError.
    + destruct (_ <? 1)%Z; [by intros [= <- <- <-]|apply kept_executeQuery].
    + destruct (_ <? 1)%Z; [by intros [= <- <- <-]|].
      apply (kept_keyed_command getCmd).
    + apply kept_putNewItem.
    + destruct (_ <? 1)%Z; [by intros [= <- <- <-]|].
      apply (kept_keyed_command fetchForEditCmd).
    + destruct (_ <? 1)%Z; [by intros [= <- <- <-]|].
      apply (kept_keyed_command deleteCmd).
    + intros [= <- <- <-]. apply kept_setError.
Qed.

Lemma kept_other_modes m os k m' os' c :
  mode m ≠ ModeNormal →
  handleKeyPress m os k = Some (m', os', c) → kept m m'.
Proof.
  unfold handleKeyPress. destruct (mode m); [done|..]; intros _.
  - unfold handleCommandMode. destruct (key_Type k);
      try (destruct (textinput_Update _ _); by intros [= <- <- <-]).
    + by intros [= <- <- <-].
    + intros Hrun. apply kept_executeCommand in Hrun.
      eapply kept_trans; [|exact Hrun]. done.
  - unfold handleTableSelectMode.
    repeat case_decide; try (by intros [= <- <- <-]).
    + destruct (0 <? _)%Z; by intros [= <- <- <-].
    + destruct (_ <? _)%Z; by intros [= <- <- <-].
    + destruct (0 <? _)%Z; [|by intros [= <- <- <-]].
      simpl. destruct (at_index _ _); [|discriminate].
      by intros [= <- <- <-].
  - unfold handleItemViewMode. repeat case_decide.
    + by intros [= <- <- <-].
    + intros Hrun. apply kept_editCurrentItem in Hrun.
      eapply kept_trans; [|exact Hrun]. done.
    + by intros [= <- <- <-].
  - unfold handleConfirmDeleteMode. repeat case_decide.
    + destruct (deleteSelectedItems _); [|discriminate].
      by intros [= <- <- <-].
    + by intros [= <- <- <-].
    + by intros [= <- <- <-].
  - destruct (_ || _); by intros [= <- <- <-].
  - destruct (_ || _); by intros [= <- <- <-].
Qed.

Lemma session_inv_kept m m' : kept m m' → session_inv m → session_inv m'.
Proof. unfold kept, session_inv. by intros (-> & -> & -> & _). Qed.

Lemma count_nil_iff {A} (l : list A) : Go.count l = 0%Z ↔ l = [].
Proof. unfold Go.count. destruct l; simpl; split; (done || lia). Qed.

Lemma count_pos {A} (l : list A) : l ≠ [] → (0 < Go.count l)%Z.
Proof. unfold Go.count. destruct l; simpl; [done|lia]. Qed.

Lemma session_inv_moved m m' :
  items m' = items m → selected m' = selected m →
  (items m ≠ [] → (0 ≤ cursor m' < Go.count (items m))%Z) →
  (items m = [] → cursor m' = 0%Z) →
  session_inv m → session_inv m'.
Proof.
  unfold session_inv. intros -> -> Hpos Hnil (_ & _ & Hsel). by split.
Qed.

Lemma session_inv_normal m os k m' os' c :
  mode m = ModeNormal → session_inv m →
  handleKeyPress m os k = Some (m', os', c) → session_inv m'.
Proof.
  unfold handleKeyPress. intros -> Hinv. unfold handleNormalMode.
  destruct Hinv as (Hpos & Hnil & Hsel).
  assert (session_inv m) as Hinv by done.
  destruct (normalKey _).
  - by intros [= <- <- <-].
  - case_decide; by intros [= <- <- <-].
  - intros [= <- <- <-]. unfold enterCommand. by destruct (err _).
  - intros [= <- <- <-]. unfold enterCommand. by destruct (err _).
  - intros [= <- <- <-]. destruct (0 <? cursor m)%Z eqn:Hc; [|done].
    apply Z.ltb_lt in Hc.
    apply (session_inv_moved m); try done; simpl.
    + intros Hne. specialize (Hpos Hne). lia.
    + intros Hne. specialize (Hnil Hne). lia.
  - intros [= <- <- <-].
    destruct (cursor m <? Go.count (items m) - 1)%Z eqn:Hc; [|done].
    apply Z.ltb_lt in Hc.
    apply (session_inv_moved m); try done; simpl.
    + intros Hne. specialize (Hpos Hne). lia.
    + intros Hne. apply count_nil_iff in Hne. specialize (Hnil ltac:(by apply count_nil_iff)). lia.
  - case_decide.
    + intros Hrun. apply kept_executeCommand in Hrun.
      eapply session_inv_kept; [exact Hrun|]. done.
    + destruct (_ && _); simpl.
      * destruct (at_index _ _); [|discriminate]. by intros [= <- <- <-].
      * by intros [= <- <- <-].
  - intros [= <- <- <-]. destruct (0 <? Go.count (items m))%Z eqn:Hc; [|done].
    apply Z.ltb_lt in Hc.
    assert (items m ≠ []) as Hne by (intros E; rewrite E in Hc; done).
    destruct (default false _); unfold session_inv; simpl;
      (split; [done|split; [done|]]); intros i Hi.
    + apply Hsel. destruct (decide (i = cursor m)) as [->|Hne'].
      * rewrite lookup_delete_eq in Hi. by destruct Hi.
      * by rewrite lookup_delete_ne in Hi.
    + destruct (decide (i = cursor m)) as [->|Hne']; [by apply Hpos|].
      apply Hsel. by rewrite lookup_insert_ne in Hi.
  - destruct (_ && _); [|by intros [= <- <- <-]].
    intros Hrun. apply kept_editCurrentItem in Hrun.
    by eapply session_inv_kept.
  - case_decide; by intros [= <- <- <-].
  - by intros [= <- <- <-].
  - intros Hrun. apply kept_putNewItem in Hrun.
    eapply session_inv_kept; [exact Hrun|]. done.
  - by intros [= <- <- <-].
  - by intros [= <- <- <-].
  - case_decide; intros [= <- <- <-]; [|done].
    apply (session_inv_moved m); try done; simpl.
    intros Hne. apply count_pos in Hne. lia.
  - intros [= <- <- <-].
    apply (session_inv_moved m); try done; simpl.
    + intros Hne. apply count_pos in Hne. lia.
    + intros Hne. by rewrite Hne.
  - by intros [= <- <- <-].
Qed.

(** Every step but the arrival of a record fetched for an edit keeps the
    invariant of the session. *)
Lemma Update_keeps_session_inv m os msg m' os' c :
  (∀ item, msg ≠ itemFetchedForEditMsg (Some item) None) →
  session_inv m →
  Update m os msg = Some (m', os', c) → session_inv m'.
Proof.
  intros Hmsg Hinv. destruct msg as [w h|ts e|its e nm|st e|ct o e|it e|k|];
    simpl.
  - by intros [= <- <- <-].
  - destruct e as [e|].
    + intros [= <- <- <-]. eapply session_inv_kept; [apply kept_setError|done].
    + destruct (0 <? _)%Z; [|by intros [= <- <- <-]].
      case_decide.
      * destruct (findTable _ _ _); simpl.
        -- destruct (at_index _ _); [|discriminate]. by intros [= <- <- <-].
        -- destruct (at_index ts 0); [|discriminate]. simpl.
           destruct (at_index _ _); [|discriminate]. by intros [= <- <- <-].
      * simpl. destruct (at_index _ _); [|discriminate].
        by intros [= <- <- <-].
  - destruct e as [e|].
    + intros [= <- <- <-]. eapply session_inv_kept; [apply kept_setError|done].
    + intros [= <- <- <-].
      assert (∀ m0, items m0 = its → cursor m0 = 0%Z → selected m0 = ∅ →
                    session_inv m0) as Hfresh.
      { intros m0 Hi Hc Hs. unfold session_inv. rewrite Hi, Hc, Hs.
        split; [|split]; [|done|].
        - intros Hne. apply count_pos in Hne. lia.
        - intros i. rewrite lookup_empty. by intros []. }
      destruct nm; [by apply Hfresh|].
      destruct (preserveStatus _); by apply Hfresh.
  - destruct e as [e|].
    + intros [= <- <- <-]. eapply session_inv_kept; [apply kept_setError|done].
    + destruct (0 <? _)%Z; [|by intros [= <- <- <-]].
      destruct (at_index _ _); [|discriminate]. by intros [= <- <- <-].
  - destruct e as [e|].
    + intros [= <- <- <-]. eapply session_inv_kept; [apply kept_setError|done].
    + case_decide; [by intros [= <- <- <-]|].
      destruct (saveEditedItem _ _); [|discriminate]. by intros [= <- <- <-].
  - destruct e as [e|]; [by intros [= <- <- <-]|].
    destruct it as [item|]; [|by intros [= <- <- <-]].
    by destruct (Hmsg item).
  - destruct (mode m) eqn:Hm; [by apply session_inv_normal|..];
      (intros Hrun; apply kept_other_modes in Hrun; [|by rewrite Hm];
       by eapply session_inv_kept).
  - by intros [= <- <- <-].
Qed.

(** The chord buffer: [d] after [d] opens the confirmation, and a key of
    Normal mode other than [q], [e], [d], [g] and ctrl+c clears the
    buffer. *)
Lemma chord_dd_opens m os k :
  mode m = ModeNormal → keyBuffer m = "d" → KeyMsg_String k = "d" →
  ∃ m', Update m os (KeyPress k) = Some (m', os, None)
        ∧ mode m' = ModeConfirmDelete ∧ keyBuffer m' = EmptyString.
Proof.
  intros Hm Hb Hk. simpl. unfold handleKeyPress, handleNormalMode.
  rewrite Hm, Hk. simpl. rewrite decide_True by done. eauto.
Qed.

Lemma chord_buffer_cleared m os k m' os' c :
  mode m = ModeNormal →
  normalKey (KeyMsg_String k) ∉ [NK_q; NK_e; NK_d; NK_g; NK_ctrl_c] →
  Update m os (KeyPress k) = Some (m', os', c) →
  keyBuffer m' = EmptyString.
Proof.
  intros Hm Hk. simpl. unfold handleKeyPress, handleNormalMode. rewrite Hm.
  destruct (normalKey _);
    try (exfalso; apply Hk; rewrite !elem_of_cons; tauto).
  - intros [= <- <- <-]. unfold enterCommand. by destruct (err _).
  - intros [= <- <- <-]. unfold enterCommand. by destruct (err _).
  - by intros [= <- <- <-].
  - by intros [= <- <- <-].
  - case_decide.
    + intros Hrun. apply kept_executeCommand in Hrun.
      by destruct Hrun as (_ & _ & _ & ->).
    + destruct (_ && _).
      * destruct (at_index _ _); [|discriminate]. by intros [= <- <- <-].
      * by intros [= <- <- <-].
  - by intros [= <- <- <-].
  - by intros [= <- <- <-].
  - intros Hrun. apply kept_putNewItem in Hrun.
    by destruct Hrun as (_ & _ & _ & ->).
  - by intros [= <- <- <-].
  - by intros [= <- <- <-].
  - by intros [= <- <- <-].
  - by intros [= <- <- <-].
Qed.

End SessionFacts.

Lemma session_ok_iff (m : Model) : session_ok m = true ↔ session_inv m.
Proof.
  unfold session_ok, session_inv.
  rewrite andb_true_iff, forallb_forall.
  assert ((∀ i, In i (map_to_list (selected m)).*1 →
                (0 <=? i)%Z && (i <? Go.count (items m))%Z = true)
          ↔ (∀ i, is_Some (selected m !! i) → (0 ≤ i < Go.count (items m))%Z))
    as ->.
  { split; intros Hall i Hi.
    - destruct Hi as [b Hb].
      assert (In i (map_to_list (selected m)).*1) as Hin.
      { apply list_elem_of_In, list_elem_of_fmap. exists (i, b).
        split; [done|]. by apply elem_of_map_to_list. }
      specialize (Hall i Hin). apply andb_true_iff in Hall as [H1 H2].
      apply Z.leb_le in H1. apply Z.ltb_lt in H2. lia.
    - apply list_elem_of_In, list_elem_of_fmap in Hi as ([i' b] & -> & Hi).
      apply elem_of_map_to_list in Hi.
      destruct (Hall i') as [H1 H2]; [by eexists|]. simpl.
      apply andb_true_iff. split; [by apply Z.leb_le|by apply Z.ltb_lt]. }
  destruct (items m) as [|x l] eqn:Hitems.
  - unfold Go.count. simpl. rewrite Z.eqb_eq. split.
    + intros [Hc Hs]. split; [by intros []|]. by split.
    + intros (_ & Hc & Hs). split; [by apply Hc|done].
  - assert ((0 <? Go.count (x :: l))%Z = true) as ->.
    { apply Z.ltb_lt. unfold Go.count. simpl. lia. }
    rewrite andb_true_iff, Z.leb_le, Z.ltb_lt. split.
    + intros [Hc Hs]. split; [done|]. by split.
    + intros (Hc & _ & Hs). split; [by apply Hc|done].
Qed.

Section UIExamples.
Local Existing Instance Ref.lib.
Local Existing Instance Ref.toolkit.

(** C4, counterexample: the editor has left a text that is not JSON in
    the temporary file. The callback removes the file, and the save that
    follows fails to parse the text: the file is deleted although no
    parse has succeeded. *)
Lemma edit_file_removed_though_parse_fails :
  openEditor_callback
    (set_editTmpFile (NewModel EmptyString) "/tmp/dui-1.json") "{}" None
    (set_files sample_os {[ "/tmp/dui-1.json" := "{broken" ]})
  = (editorFinishedMsg "{broken" "{}" None, sample_os)
  ∧ files sample_os !! "/tmp/dui-1.json" = None
  ∧ saveEditedItem_run sample_client 1 0%nat "{broken" sample_table
    = Some (operationDoneMsg EmptyString
              (Some "invalid JSON: invalid character in JSON input"), 0%nat).
Proof. repeat split; vm_compute; reflexivity. Qed.

(** C5, the failing input: [d], then [q], then [d]. The key [q] returns
    before the buffer is cleared, so the second [d] completes the chord
    and opens the confirmation, although no [d] comes right before it;
    after [d], [x], [d] the confirmation stays closed. *)
Theorem delete_chord_survives_q :
  (λ r, (mode r.1, keyBuffer r.1)) <$>
    run (NewModel EmptyString) sample_os [typed "d"; typed "q"]
  = Some (ModeNormal, "d")
  ∧ (λ r, mode r.1) <$>
      run (NewModel EmptyString) sample_os [typed "d"; typed "q"; typed "d"]
    = Some ModeConfirmDelete
  ∧ (λ r, mode r.1) <$>
      run (NewModel EmptyString) sample_os [typed "d"; typed "x"; typed "d"]
    = Some ModeNormal.
Proof. repeat split; vm_compute; reflexivity. Qed.

(** C6, the failing input: a failed fetch for an edit, with an error text
    longer than fifty bytes. The text goes to the status line whole, it is
    not kept as the last error and the mode stays Normal; the same error
    on a record load is kept, shortened on the status line and shown in
    the error view. *)
Theorem fetch_error_is_not_retained :
  (50 <? Go.len long_error)%Z = true
  ∧ (λ r, (lastError r.1.1, status r.1.1, mode r.1.1)) <$>
      Update (NewModel EmptyString) sample_os
        (itemFetchedForEditMsg None (Some long_error))
    = Some (EmptyString, "Error: " +:+ long_error, ModeNormal)
  ∧ (λ r, (lastError r.1.1, status r.1.1, mode r.1.1)) <$>
      Update (NewModel EmptyString) sample_os
        (itemsLoadedMsg [] (Some long_error) false)
    = Some (long_error,
            "get item failed: operation error DynamoDB: GetI... (/err)",
            ModeErrorView).
Proof. repeat split; vm_compute; reflexivity. Qed.

(** C7, counterexample: [/quit] and [:err] are not meta-commands; each is
    reported as an unknown command, and the session neither quits nor
    shows the last error. *)
Lemma slash_quit_and_colon_err_are_unknown :
  executeCommand (NewModel EmptyString) sample_os "/quit"
  = Some (setError (NewModel EmptyString) "unknown command: /quit",
          sample_os, None)
  ∧ executeCommand (setError (NewModel EmptyString) "boom") sample_os ":err"
    = Some (setError (setError (NewModel EmptyString) "boom")
              "unknown command: :err", sample_os, None)
  ∧ mode (setError (setError (NewModel EmptyString) "boom")
            "unknown command: :err") = ModeNormal.
Proof. repeat split; vm_compute; reflexivity. Qed.

(** C9, the failing input: three records are on screen and the third is
    selected when the record fetched by an update command arrives. The
    record list is replaced by that one record and the selection is kept:
    the selected index 2 is no longer below the number of records. *)
Theorem stale_selection_after_fetch :
  (λ r, (Go.count (items r.1), cursor r.1, map_to_list (selected r.1))) <$>
    run (NewModel EmptyString) sample_os browsing
  = Some (3%Z, 2%Z, [(2%Z, true)])
  ∧ (λ r, (Go.count (items r.1), cursor r.1, map_to_list (selected r.1))) <$>
      run (NewModel EmptyString) sample_os
        (browsing ++ [itemFetchedForEditMsg (Some (record "z")) None])
    = Some (1%Z, 0%Z, [(2%Z, true)])
  ∧ (λ r, session_ok r.1) <$>
      run (NewModel EmptyString) sample_os browsing = Some true
  ∧ (λ r, session_ok r.1) <$>
      run (NewModel EmptyString) sample_os
        (browsing ++ [itemFetchedForEditMsg (Some (record "z")) None])
    = Some false.
Proof. repeat split; vm_compute; reflexivity. Qed.

End UIExamples.

(** * Further properties *)

(** ** More on the codec *)

Section EncodingFacts.
Context `{GoLib}.

Lemma is_Ok_rmap {A B} (f : A → B) (r : Result A) : is_Ok (rmap f r) = is_Ok r.
Proof. by destruct r. Qed.

Lemma is_Ok_rsequence {A} (l : list (Result A)) :
  is_Ok (rsequence l) = forallb is_Ok l.
Proof.
  induction l as [|[a|e] l IH]; simpl; [done| |done].
  by rewrite is_Ok_rmap.
Qed.

Lemma is_Ok_true {A} (r : Result A) : is_Ok r = true → ∃ a, r = Ok a.
Proof. destruct r; [eauto|done]. Qed.

Lemma is_Ok_false {A} (r : Result A) : is_Ok r = false → ∃ e, r = Err e.
Proof. destruct r; [done|eauto]. Qed.

Lemma bool_eq_iff (a b : bool) : (a = true ↔ b = true) → a = b.
Proof. destruct a, b; intuition congruence. Qed.

(** An object is written when each of its values is. *)
Lemma is_Ok_Marshal_AMap (m : gmap string Any) :
  is_Ok (Marshal_value (AMap m)) = map_all (λ _ x, is_Ok (Marshal_value x)) m.
Proof.
  change (Marshal_value (AMap m)) with
    (rmap JObj
       (rsequence
          ((λ kv : string * Result json, rmap (pair kv.1) kv.2) <$>
           sort_members (map_to_list (Marshal_value <$> m))))).
  rewrite is_Ok_rmap, is_Ok_rsequence. apply bool_eq_iff.
  rewrite forallb_forall, map_all_true. split.
  - intros Hall k x Hk.
    specialize (Hall (rmap (pair k) (Marshal_value x))).
    rewrite is_Ok_rmap in Hall. apply Hall.
    apply list_elem_of_In, list_elem_of_fmap.
    exists (k, Marshal_value x). split; [done|].
    unfold sort_members. rewrite merge_sort_Permutation.
    apply elem_of_map_to_list. by rewrite lookup_fmap, Hk.
  - intros Hall r Hr.
    apply list_elem_of_In, list_elem_of_fmap in Hr as ([k r'] & -> & Hr).
    unfold sort_members in Hr. rewrite merge_sort_Permutation in Hr.
    apply elem_of_map_to_list in Hr. rewrite lookup_fmap in Hr.
    destruct (m !! k) as [x|] eqn:Hk; simplify_eq/=.
    rewrite is_Ok_rmap. by eapply Hall.
Qed.

Lemma is_Ok_Marshal_AList (l : list Any) :
  is_Ok (Marshal_value (AList l)) = forallb (λ x, is_Ok (Marshal_value x)) l.
Proof.
  change (Marshal_value (AList l)) with
    (rmap JArr (rsequence (Marshal_value <$> l))).
  rewrite is_Ok_rmap, is_Ok_rsequence.
  induction l as [|x l IH]; [done|]. rewrite fmap_cons. simpl forallb.
  by rewrite IH.
Qed.

Lemma is_Ok_Marshal_attr (v : AttributeValue) :
  is_Ok (Marshal_value (attrToInterface v)) = valid_numbers v.
Proof.
  induction v as [s|s|b|b|l IH|m IH|l|l|b|l] using AttributeValue_nested_ind;
    try done.
  - simpl. by destruct (Go.isValidNumber _).
  - change (attrToInterface (AttributeValueMemberL l))
      with (AList (attrToInterface <$> l)).
    rewrite is_Ok_Marshal_AList.
    change (valid_numbers (AttributeValueMemberL l))
      with (forallb valid_numbers l).
    induction IH as [|x l Hx _ IHl]; [done|].
    rewrite fmap_cons. simpl forallb. by rewrite Hx, IHl.
  - change (attrToInterface (AttributeValueMemberM m))
      with (AMap (attrToInterface <$> m)).
    rewrite is_Ok_Marshal_AMap.
    change (valid_numbers (AttributeValueMemberM m))
      with (map_all (λ _, valid_numbers) m).
    apply bool_eq_iff. rewrite !map_all_true. split.
    + intros Hall k x Hk. rewrite <- (IH k x Hk). apply (Hall k).
      by rewrite lookup_fmap, Hk.
    + intros Hall k x. rewrite lookup_fmap. intros Hk.
      destruct (m !! k) as [v|] eqn:Hv; simplify_eq/=.
      rewrite (IH k v Hv). by eapply Hall.
Qed.

Lemma is_Ok_Marshal_type (v : AttributeValue) :
  is_Ok (Marshal_value (attrToType v)) = true.
Proof.
  induction v as [s|s|b|b|l IH|m IH|l|l|b|l] using AttributeValue_nested_ind;
    try done.
  - change (attrToType (AttributeValueMemberL l))
      with (AMap {[ "type" := AString "L";
                    "elements" := AList (attrToType <$> l) ]}).
    rewrite is_Ok_Marshal_AMap. apply map_all_true. intros k x Hk.
    apply lookup_insert_Some in Hk as [[_ <-]|[_ Hk]]; [done|].
    apply lookup_singleton_Some in Hk as [_ <-].
    rewrite is_Ok_Marshal_AList.
    induction IH as [|y l' Hy _ IHl]; [done|].
    rewrite fmap_cons. simpl forallb. by rewrite Hy, IHl.
  - change (attrToType (AttributeValueMemberM m))
      with (AMap {[ "type" := AString "M";
                    "attributes" := AMap (attrToType <$> m) ]}).
    rewrite is_Ok_Marshal_AMap. apply map_all_true. intros k x Hk.
    apply lookup_insert_Some in Hk as [[_ <-]|[_ Hk]]; [done|].
    apply lookup_singleton_Some in Hk as [_ <-].
    rewrite is_Ok_Marshal_AMap. apply map_all_true. intros k' x'.
    rewrite lookup_fmap. intros Hk'.
    destruct (m !! k') as [v|] eqn:Hv; simplify_eq/=. by eapply IH.
Qed.

End EncodingFacts.

(** X1. Encoding a record fails exactly when one of its Numbers, at any
    depth, is not a number literal of JSON: when all are, [ItemToJSON] and
    [ItemToPrettyJSON] print the document of the record; otherwise both
    return a text that starts with [error: ] in place of JSON. *)
Theorem encoding_fails_on_invalid_number `{GoLib} (item : Item) :
  (valid_numbers (AttributeValueMemberM item) = true →
   ∃ t, Marshal_value (AMap (attributeValueToInterface item)) = Ok t
        ∧ ItemToJSON item = json_print t
        ∧ ItemToPrettyJSON item = json_print_indent t)
  ∧ (valid_numbers (AttributeValueMemberM item) = false →
     ∃ e, ItemToJSON item = "error: " +:+ e
          ∧ ItemToPrettyJSON item = "error: " +:+ e).
Proof.
  pose proof (is_Ok_Marshal_attr (AttributeValueMemberM item)) as Hok.
  change (attrToInterface (AttributeValueMemberM item))
    with (AMap (attributeValueToInterface item)) in Hok.
  unfold ItemToJSON, ItemToPrettyJSON, json_Marshal, json_MarshalIndent.
  split; intros Hv; rewrite Hv in Hok.
  - apply is_Ok_true in Hok as [t Ht]. exists t. by rewrite Ht.
  - apply is_Ok_false in Hok as [e He]. exists e. by rewrite He.
Qed.

(** X2. The type view of a record is always encoded: [ItemToDataTypes]
    never returns the error text, whatever the record holds (a Number that
    is no number literal included), and the view has an entry for each
    attribute of the record and no other. *)
Theorem type_view_is_always_encoded `{GoLib} (item : Item) :
  (∃ t, Marshal_value (AMap (attributeValueToTypeMap item)) = Ok t
        ∧ ItemToDataTypes item = json_print_indent t)
  ∧ dom (attributeValueToTypeMap item) = dom item.
Proof.
  split.
  - assert (is_Ok (Marshal_value (AMap (attributeValueToTypeMap item))) = true)
      as Hok.
    { rewrite is_Ok_Marshal_AMap. apply map_all_true. intros k x.
      unfold attributeValueToTypeMap. rewrite lookup_fmap. intros Hk.
      destruct (item !! k); simplify_eq/=. apply is_Ok_Marshal_type. }
    apply is_Ok_true in Hok as [t Ht]. exists t. split; [done|].
    unfold ItemToDataTypes, json_MarshalIndent. by rewrite Ht.
  - unfold attributeValueToTypeMap. apply dom_fmap_L.
Qed.

(** ** Decoding without hints *)

Lemma json_size_elem (x : json) (l : list json) :
  x ∈ l → (json_size x < json_size (JArr l))%nat.
Proof.
  induction 1 as [x l|x y l _ IH]; simpl in *; lia.
Qed.

Lemma json_size_member (k : string) (x : json) (l : list (string * json)) :
  (k, x) ∈ l → (json_size x < json_size (JObj l))%nat.
Proof.
  induction l as [|[k' y] l IH]; intros Hin.
  - by apply elem_of_nil in Hin.
  - apply elem_of_cons in Hin as [[= <- <-]|Hin]; simpl in *; [lia|].
    specialize (IH Hin). lia.
Qed.

Lemma json_nested_ind (P : json → Prop) :
  P JNull →
  (∀ b, P (JBool b)) →
  (∀ lit, P (JNum lit)) →
  (∀ s, P (JStr s)) →
  (∀ l, Forall P l → P (JArr l)) →
  (∀ members, Forall (λ kv, P kv.2) members → P (JObj members)) →
  ∀ t, P t.
Proof.
  intros HNull HB HN HS HA HO t.
  remember (json_size t) as n eqn:Hn. revert t Hn.
  induction n as [n IH] using lt_wf_ind. intros t ->.
  destruct t; auto.
  - apply HA, Forall_forall. intros x Hx.
    eapply IH; [|done]. by apply json_size_elem.
  - apply HO, Forall_forall. intros [k x] Hx.
    eapply IH; [|done]. by eapply json_size_member.
Qed.

Lemma rsequence_Ok_elem {A B} (f : A → Result B) (l : list A) (l' : list B) y :
  rsequence (f <$> l) = Ok l' → y ∈ l' → ∃ x, x ∈ l ∧ f x = Ok y.
Proof.
  revert l'. induction l as [|x l IH]; intros l' Hl Hy; csimpl in Hl.
  - inversion Hl; subst. by apply elem_of_nil in Hy.
  - destruct (f x) as [b|e] eqn:Hx; simpl in Hl; [|done].
    destruct (rsequence (f <$> l)) as [l0|e] eqn:Hs; simpl in Hl; [|done].
    inversion Hl; subst. apply elem_of_cons in Hy as [->|Hy].
    + exists x. split; [left|done].
    + destruct (IH l0 eq_refl Hy) as (x' & Hin & Hfx).
      exists x'. split; [by right|done].
Qed.

Lemma members_to_map_elem {A} (l : list (string * A)) k x :
  members_to_map l !! k = Some x → (k, x) ∈ l.
Proof.
  rewrite members_to_map_reverse. intros Hk.
  apply elem_of_list_to_map_2 in Hk. by rewrite elem_of_reverse in Hk.
Qed.

Section UnhintedFacts.
Context `{GoLib}.

(** What [json.Unmarshal] stores is never one of the slices that mark a
    Set, and is converted to a value without Sets and Binaries. *)
Lemma Unmarshal_value_no_sets (t : json) (x : Any) :
  Unmarshal_value t = Ok x →
  is_slice x = false ∧ no_sets (valueToAttr x) = true.
Proof.
  revert x. induction t as [|b|lit|s|l IH|members IH] using json_nested_ind;
    intros x Hx.
  - by inversion Hx.
  - by inversion Hx.
  - simpl in Hx. destruct (ParseFloat lit); by inversion Hx.
  - by inversion Hx.
  - change (Unmarshal_value (JArr l))
      with (rmap AList (rsequence (Unmarshal_value <$> l))) in Hx.
    destruct (rsequence (Unmarshal_value <$> l)) as [xs|e] eqn:Hxs;
      simpl in Hx; [|done].
    inversion Hx; subst. split; [done|].
    change (valueToAttr (AList xs))
      with (AttributeValueMemberL (valueToAttr <$> xs)).
    change (forallb no_sets (valueToAttr <$> xs) = true).
    apply forallb_forall. intros v Hv.
    apply list_elem_of_In, list_elem_of_fmap in Hv as (y & -> & Hy).
    destruct (rsequence_Ok_elem _ _ _ _ Hxs Hy) as (t & Ht & Hty).
    rewrite Forall_forall in IH. by apply (IH t Ht y).
  - change (Unmarshal_value (JObj members))
      with (rmap (λ l, AMap (members_to_map l))
              (rsequence
                 ((λ kv : string * json,
                     rmap (pair kv.1) (Unmarshal_value kv.2)) <$> members)))
      in Hx.
    destruct (rsequence _) as [xs|e] eqn:Hxs; simpl in Hx; [|done].
    inversion Hx; subst. split; [done|].
    assert (∀ k y, members_to_map xs !! k = Some y →
                   is_slice y = false ∧ no_sets (valueToAttr y) = true)
      as Hall.
    { intros k y Hk. apply members_to_map_elem in Hk.
      destruct (rsequence_Ok_elem _ _ _ _ Hxs Hk) as ([k' t] & Ht & Hty).
      simpl in Hty.
      destruct (Unmarshal_value t) as [y'|e] eqn:Hy'; simpl in Hty; [|done].
      inversion Hty; subst. rewrite Forall_forall in IH.
      by apply (IH (k, t) Ht). }
    rewrite valueToAttr_AMap by (intros k y Hk; by apply (Hall k y)).
    change (map_all (λ _, no_sets) (valueToAttr <$> members_to_map xs) = true).
    apply map_all_true. intros k v. rewrite lookup_fmap. intros Hk.
    destruct (members_to_map xs !! k) as [y|] eqn:Hy; simplify_eq/=.
    by apply (Hall k y).
Qed.

Lemma Unmarshal_map_no_sets (text : string) (data : gmap string Any) k y :
  Unmarshal_map text = Ok data → data !! k = Some y →
  is_slice y = false ∧ no_sets (valueToAttr y) = true.
Proof.
  unfold Unmarshal_map. intros Hparse Hk.
  destruct (json_parse text) as [t|e]; simpl in Hparse; [|done].
  destruct t; try done.
  - inversion Hparse; subst. by rewrite lookup_empty in Hk.
  - destruct (Unmarshal_value (JObj members)) as [v|e] eqn:Hv;
      simpl in Hparse; [|done].
    destruct (Unmarshal_value_no_sets _ _ Hv) as [_ Hns].
    assert (∃ xs, v = AMap xs) as [xs ->].
    { change (Unmarshal_value (JObj members))
        with (rmap (λ l, AMap (members_to_map l))
                (rsequence
                   ((λ kv : string * json,
                       rmap (pair kv.1) (Unmarshal_value kv.2)) <$> members)))
        in Hv.
      destruct (rsequence _); simpl in Hv; [|done].
      inversion Hv. by eexists. }
    inversion Hparse; subst.
    (* the values of the object are themselves read from the text *)
    change (Unmarshal_value (JObj members))
      with (rmap (λ l, AMap (members_to_map l))
              (rsequence
                 ((λ kv : string * json,
                     rmap (pair kv.1) (Unmarshal_value kv.2)) <$> members)))
      in Hv.
    destruct (rsequence _) as [l|e] eqn:Hl; simpl in Hv; [|done].
    inversion Hv; subst. apply members_to_map_elem in Hk.
    destruct (rsequence_Ok_elem _ _ _ _ Hl Hk) as ([k' t] & Ht & Hty).
    simpl in Hty.
    destruct (Unmarshal_value t) as [y'|e] eqn:Hy'; simpl in Hty; [|done].
    inversion Hty; subst. by eapply Unmarshal_value_no_sets.
Qed.

End UnhintedFacts.

(** X3. A JSON object none of whose names ends in a type hint is decoded
    value by value, with the names as written: the record has the names of
    the object, and it holds no Set and no Binary at any depth, also when
    the object uses the marker names [__SS], [__NS] and [__BS] of the hinted
    Sets. *)
Theorem unhinted_text_decodes_verbatim `{GoLib} (fuel : nat) (text : string)
    (data : gmap string Any) :
  Unmarshal_map text = Ok data →
  unhinted_object data = true →
  JSONToItem (S fuel) text = Some (Ok (interfaceToAttributeValue data))
  ∧ dom (interfaceToAttributeValue data) = dom data
  ∧ no_sets (AttributeValueMemberM (interfaceToAttributeValue data)) = true.
Proof.
  intros Hparse Hnames. split; [|split].
  - unfold JSONToItem. rewrite Hparse.
    rewrite processTypeHints_unhinted; [done|].
    intros k [x Hk]. unfold unhinted_object in Hnames.
    rewrite map_all_true in Hnames. specialize (Hnames _ _ Hk).
    by apply negb_true_iff.
  - apply dom_fmap_L.
  - change (map_all (λ _, no_sets) (valueToAttr <$> data) = true).
    apply map_all_true. intros k v. rewrite lookup_fmap. intros Hk.
    destruct (data !! k) as [y|] eqn:Hy; simplify_eq/=.
    by eapply Unmarshal_map_no_sets.
Qed.

Section UnhintedExamples.
Local Existing Instance Ref.lib.

(** An object that uses the marker name of a String Set is read as a Map. *)
Lemma unhinted_text_decodes_verbatim_witness :
Unmarshal_map (Ref.js "{'tags': {'__SS': ['a']}}")
= Ok {[ "tags" := AMap {[ "__SS" := AList [AString "a"] ]} ]}
∧ unhinted_object
    ({[ "tags" := AMap {[ "__SS" := AList [AString "a"] ]} ]}
     : gmap string Any) = true
∧ JSONToItem 1 (Ref.js "{'tags': {'__SS': ['a']}}")
  = Some (Ok (interfaceToAttributeValue
                {[ "tags" := AMap {[ "__SS" := AList [AString "a"] ]} ]}))
∧ dom (interfaceToAttributeValue
         {[ "tags" := AMap {[ "__SS" := AList [AString "a"] ]} ]})
  = dom ({[ "tags" := AMap {[ "__SS" := AList [AString "a"] ]} ]}
         : gmap string Any)
∧ no_sets (AttributeValueMemberM
             (interfaceToAttributeValue
                {[ "tags" := AMap {[ "__SS" := AList [AString "a"] ]} ]}))
  = true.
Proof.
assert (Unmarshal_map (Ref.js "{'tags': {'__SS': ['a']}}")
        = Ok {[ "tags" := AMap {[ "__SS" := AList [AString "a"] ]} ]}) as H1
  by (vm_compute; reflexivity).
assert (unhinted_object
          ({[ "tags" := AMap {[ "__SS" := AList [AString "a"] ]} ]}
           : gmap string Any) = true) as H2
  by (vm_compute; reflexivity).
split; [exact H1|]. split; [exact H2|].
exact (unhinted_text_decodes_verbatim 0 _ _ H1 H2).
Defined.

End UnhintedExamples.

(** X4. The three Set hints accept every value: whatever the hinted value
    is, the conversion succeeds and the attribute becomes a Set of the hinted
    kind. An array gives one member for each element, a string that is not
    the text of a JSON array gives the Set of that one string, and any other
    value gives the Set of its one printed form. *)
Theorem set_hints_accept_every_value `{GoLib}
    (rec : gmap string Any → option (Result (gmap string Any)))
    (value : Any) (typeHint : string) :
  (hintCase typeHint = Some HintSS →
   ∃ l, convertValueWithTypeHint rec value typeHint
        = Some (Ok (setMarker "__SS" (AStrings l)))
        ∧ valueToAttr (setMarker "__SS" (AStrings l)) = AttributeValueMemberSS l
        ∧ (∀ v, value = AList v → l = Sprintf_v <$> v)
        ∧ (∀ s, value = AString s → is_Ok (Unmarshal_list s) = false →
                l = [s]))
  ∧ (hintCase typeHint = Some HintNS →
     ∃ l, convertValueWithTypeHint rec value typeHint
          = Some (Ok (setMarker "__NS" (AStrings l)))
          ∧ valueToAttr (setMarker "__NS" (AStrings l))
            = AttributeValueMemberNS l
          ∧ (∀ v, value = AList v → l = Sprintf_v <$> v)
          ∧ (∀ s, value = AString s → is_Ok (Unmarshal_list s) = false →
                  l = [s]))
  ∧ (hintCase typeHint = Some HintBS →
     ∃ l, convertValueWithTypeHint rec value typeHint
          = Some (Ok (setMarker "__BS" (ABytesList l)))
          ∧ valueToAttr (setMarker "__BS" (ABytesList l))
            = AttributeValueMemberBS l
          ∧ (∀ s, value = AString s → is_Ok (Unmarshal_list s) = false →
                  l = [s])).
Proof.
  unfold convertValueWithTypeHint.
  split; [|split]; intros ->.
  - destruct value as [| | | | |s| | |v| | |];
      try (eexists; split; [reflexivity|];
           split; [reflexivity|]; split; intros; congruence).
    + destruct (Unmarshal_list s) as [list|e] eqn:Hs.
      * eexists; split; [reflexivity|]. split; [reflexivity|].
        split; [congruence|]. intros s' [= <-]. by rewrite Hs.
      * eexists; split; [reflexivity|]. split; [reflexivity|].
        split; congruence.
    + eexists; split; [reflexivity|]. split; [reflexivity|].
      split; [|congruence]. by intros v' [= <-].
  - destruct value as [| | | | |s| | |v| | |];
      try (eexists; split; [reflexivity|];
           split; [reflexivity|]; split; intros; congruence).
    + destruct (Unmarshal_list s) as [list|e] eqn:Hs.
      * eexists; split; [reflexivity|]. split; [reflexivity|].
        split; [congruence|]. intros s' [= <-]. by rewrite Hs.
      * eexists; split; [reflexivity|]. split; [reflexivity|].
        split; congruence.
    + eexists; split; [reflexivity|]. split; [reflexivity|].
      split; [|congruence]. by intros v' [= <-].
  - destruct value as [| | | | |s| | |v| | |];
      try (eexists; split; [reflexivity|];
           split; [reflexivity|]; intros; congruence).
    destruct (Unmarshal_list s) as [list|e] eqn:Hs.
    + eexists; split; [reflexivity|]. split; [reflexivity|].
      intros s' [= <-]. by rewrite Hs.
    + eexists; split; [reflexivity|]. split; [reflexivity|]. congruence.
Qed.

(** X5. The errors of decoding. A text that the scanner rejects fails
    with the error of the scanner after [invalid JSON: ]; a boolean, a
    number, a string or an array fails with an error that names its kind;
    and the text [null] is decoded as the record without attributes. Every
    error of decoding has one of two forms: [invalid JSON: ] followed by the
    error of reading the text as an object, or the type-conversion error of
    one hinted name of the object. *)
Theorem decode_rejects_non_objects `{GoLib} (fuel : nat) (text : string) :
  (∀ e, json_parse text = Err e →
        JSONToItem fuel text = Some (Err ("invalid JSON: " +:+ e)))
  ∧ (∀ t, json_parse text = Ok t →
          match t with
          | JObj _ => True
          | JNull => JSONToItem (S fuel) text = Some (Ok ∅)
          | _ =>
              JSONToItem fuel text
              = Some (Err ("invalid JSON: json: cannot unmarshal " +:+
                           json_kind t +:+
                           " into Go value of type map[string]interface {}"))
          end)
  ∧ (∀ e, JSONToItem fuel text = Some (Err e) →
          (∃ e', Unmarshal_map text = Err e'
                 ∧ e = "invalid JSON: " +:+ e')
          ∨ (∃ data key value cleanKey typeHint inner,
               Unmarshal_map text = Ok data
               ∧ data !! key = Some value
               ∧ splitTypeHint key = Some (cleanKey, typeHint)
               ∧ e = conversion_error cleanKey typeHint inner)).
Proof.
  split; [|split].
  - intros e He. unfold JSONToItem, Unmarshal_map. by rewrite He.
  - intros t Ht. unfold JSONToItem, Unmarshal_map. rewrite Ht.
    destruct t; try done.
  - intros e. unfold JSONToItem.
    destruct (Unmarshal_map text) as [data|e'].
    + destruct (processTypeHints fuel data) as [[r|e0]|] eqn:Hrun;
        try discriminate.
      intros [= <-]. right. destruct fuel as [|fuel]; [done|].
      cbn [processTypeHints] in Hrun.
      apply processEntries_Err in Hrun
        as (key & x & cleanKey & typeHint & inner & Hin & Hsplit & _ & ->).
      apply elem_of_map_to_list in Hin.
      by exists data, key, x, cleanKey, typeHint, inner.
    + intros [= <-]. left. by exists e'.
Qed.

(** ** Keys and key conditions *)

Lemma prefix_one (c : ascii) (s : string) :
  String.prefix (String c EmptyString) s
  = match s with String a _ => Ascii.eqb a c | EmptyString => false end.
Proof.
  destruct s as [|a s]; simpl; [done|].
  destruct (ascii_dec c a) as [->|Hne].
  - rewrite Ascii.eqb_refl. by destruct s.
  - symmetry. apply Ascii.eqb_neq. congruence.
Qed.

Lemma SplitN2_without (s : string) (sep : ascii) :
  Go.Contains s (String sep EmptyString) = false → Go.SplitN2 s sep = [s].
Proof.
  induction s as [|c s IH]; [done|].
  cbn [Go.Contains Go.SplitN2]. rewrite prefix_one.
  destruct (Ascii.eqb c sep); [done|]. simpl. intros Hs. by rewrite IH.
Qed.

Lemma SplitN2_first (k v : string) (sep : ascii) :
  Go.Contains k (String sep EmptyString) = false →
  Go.SplitN2 (k +:+ String sep v) sep = [k; v].
Proof.
  induction k as [|c k IH]; intros Hk.
  - simpl. by rewrite Ascii.eqb_refl.
  - cbn [Go.Contains] in Hk. rewrite prefix_one in Hk.
    change (String c k +:+ String sep v) with (String c (k +:+ String sep v)).
    cbn [Go.SplitN2].
    destruct (Ascii.eqb c sep); [done|]. simpl in Hk. by rewrite IH.
Qed.

Lemma Contains_first (s : string) (sep : ascii) :
  Go.Contains s (String sep EmptyString) = true →
  ∃ k v, s = k +:+ String sep v
         ∧ Go.Contains k (String sep EmptyString) = false.
Proof.
  induction s as [|c s IH]; [done|].
  cbn [Go.Contains]. rewrite prefix_one.
  destruct (Ascii.eqb c sep) eqn:Hc.
  - apply Ascii.eqb_eq in Hc as ->. intros _. by exists EmptyString, s.
  - simpl. intros Hs. destruct (IH Hs) as (k & v & -> & Hk).
    exists (String c k), v. split; [done|].
    cbn [Go.Contains]. rewrite prefix_one, Hc. done.
Qed.

Section ParseFacts.
Context `{GoLib}.

Lemma ParseKeyValue_without (keyValue : string) :
  Go.Contains keyValue "=" = false →
  ParseKeyValue keyValue = Err ("invalid key=value format: " +:+ keyValue).
Proof.
  intros Hc. unfold ParseKeyValue. by rewrite (SplitN2_without _ _ Hc).
Qed.

Lemma ParseKeyValue_first (k v : string) :
  Go.Contains k "=" = false →
  ParseKeyValue (k +:+ "=" +:+ v)
  = Ok (TrimSpace k,
        if Sscanf_float (TrimSpace v)
           && negb (Go.Contains (TrimSpace v) Go.dquote)
        then AttributeValueMemberN (TrimSpace v)
        else AttributeValueMemberS (TrimSpace v)).
Proof.
  intros Hk. unfold ParseKeyValue.
  change (k +:+ "=" +:+ v) with (k +:+ String "="%char v).
  rewrite (SplitN2_first k v "="%char Hk).
  by destruct (Sscanf_float _ && _).
Qed.

Lemma ParseKeyValue_Ok (keyValue : string) :
  is_Ok (ParseKeyValue keyValue) = Go.Contains keyValue "=".
Proof.
  destruct (Go.Contains keyValue "=") eqn:Hc.
  - apply Contains_first in Hc as (k & v & -> & Hk).
    change (k +:+ String "="%char v) with (k +:+ "=" +:+ v).
    by rewrite (ParseKeyValue_first k v Hk).
  - by rewrite (ParseKeyValue_without _ Hc).
Qed.

End ParseFacts.

(** X6. [ParseKeyValue] fails exactly on a text without [=], with an error
    that quotes the text. Otherwise it splits the text at its first [=]: the
    name is what comes before, trimmed, and the value what comes after,
    trimmed, further [=] included; the value is a Number when it scans as a
    float and holds no double quote, and a String otherwise. *)
Theorem ParseKeyValue_splits_at_first_equals `{GoLib} (keyValue : string) :
  is_Ok (ParseKeyValue keyValue) = Go.Contains keyValue "="
  ∧ (Go.Contains keyValue "=" = false →
     ParseKeyValue keyValue
     = Err ("invalid key=value format: " +:+ keyValue))
  ∧ (∀ k v, keyValue = k +:+ "=" +:+ v → Go.Contains k "=" = false →
       ParseKeyValue keyValue
       = Ok (TrimSpace k,
             if Sscanf_float (TrimSpace v)
                && negb (Go.Contains (TrimSpace v) Go.dquote)
             then AttributeValueMemberN (TrimSpace v)
             else AttributeValueMemberS (TrimSpace v))).
Proof.
  split; [apply ParseKeyValue_Ok|]. split; [apply ParseKeyValue_without|].
  intros k v -> Hk. by apply ParseKeyValue_first.
Qed.

Lemma commandKey_cons (table : TableInfo) (arg0 : string) (rest : list string) :
  commandKey table (arg0 :: rest)
  = Some (match rest with
          | arg1 :: _ =>
              if decide (SortKey table ≠ EmptyString)
              then <[SortKey table := AttributeValueMemberS arg1]>
                     ({[ PartitionKey table := AttributeValueMemberS arg0 ]}
                      : Item)
              else {[ PartitionKey table := AttributeValueMemberS arg0 ]}
          | [] => {[ PartitionKey table := AttributeValueMemberS arg0 ]}
          end).
Proof.
  unfold commandKey. simpl. destruct rest as [|arg1 rest]; [done|]. simpl.
  by case_decide.
Qed.

Lemma tables_selected (m : Model) :
  tables m ≠ [] → (Go.count (tables m) =? 0)%Z = false.
Proof.
  intros Hne. apply Z.eqb_neq. unfold Go.count.
  destruct (tables m); [done|]. simpl. lia.
Qed.

(** X7. [/get], [/update] and [/delete] build the same key from their
    arguments: the partition key from the first and, when a second is given
    and the table has a sort key, the sort key from the second. Every value
    of the key is a String, whatever the arguments look like, and the key has
    no attribute besides the key attributes of the table. It is the key that
    [BuildKey] builds, as long as the second argument is not empty. *)
Theorem keyed_commands_build_string_keys (m : Model) (os : OS)
    (table : TableInfo) (arg0 : string) (rest : list string) :
  tables m ≠ [] →
  at_index (tables m) (currentTable m) = Some table →
  ∃ key : Item,
    executeGet m os (arg0 :: rest)
    = Some (m, os, Some (getCmd (Name table) key))
    ∧ executeUpdate m os (arg0 :: rest)
      = Some (m, os, Some (fetchForEditCmd (Name table) key))
    ∧ executeDelete m os (arg0 :: rest)
      = Some (m, os, Some (deleteCmd (Name table) key))
    ∧ map_all (λ _, is_S) key = true
    ∧ is_Some (key !! PartitionKey table)
    ∧ dom key ⊆ {[ PartitionKey table; SortKey table ]}
    ∧ (rest = [] → BuildKey table arg0 EmptyString = Ok key)
    ∧ (∀ arg1 rest', rest = arg1 :: rest' → arg1 ≠ EmptyString →
         BuildKey table arg0 arg1 = Ok key).
Proof.
  intros Hne Htable.
  pose proof (commandKey_cons table arg0 rest) as Hkey.
  eexists. unfold executeGet, executeUpdate, executeDelete.
  rewrite (tables_selected m Hne), Htable. simpl. rewrite Hkey. simpl.
  split; [done|]. split; [done|]. split; [done|].
  destruct rest as [|arg1 rest'].
  - split; [|split; [|split; [|split]]].
    + apply map_all_true. intros k v Hk.
      apply lookup_singleton_Some in Hk as [_ <-]. done.
    + rewrite lookup_singleton_eq. by eexists.
    + rewrite dom_singleton_L. apply union_subseteq_l.
    + intros _. unfold BuildKey. rewrite decide_False; [done|]. tauto.
    + intros arg1 rest' [=].
  - destruct (decide (SortKey table ≠ EmptyString)) as [Hsk|Hsk].
    + split; [|split; [|split; [|split]]].
      * apply map_all_true. intros k v Hk.
        apply lookup_insert_Some in Hk as [[_ <-]|[_ Hk]]; [done|].
        apply lookup_singleton_Some in Hk as [_ <-]. done.
      * destruct (decide (SortKey table = PartitionKey table)) as [->|Hd].
        -- rewrite lookup_insert_eq. by eexists.
        -- rewrite lookup_insert_ne by done.
           rewrite lookup_singleton_eq. by eexists.
      * rewrite dom_insert_L, dom_singleton_L. by rewrite (comm_L (∪)).
      * intros [=].
      * intros a1 r [= <- <-] Ha. unfold BuildKey.
        by rewrite decide_True.
    + split; [|split; [|split; [|split]]].
      * apply map_all_true. intros k v Hk.
        apply lookup_singleton_Some in Hk as [_ <-]. done.
      * rewrite lookup_singleton_eq. by eexists.
      * rewrite dom_singleton_L. apply union_subseteq_l.
      * intros [=].
      * intros a1 r [= <- <-] Ha. unfold BuildKey.
        rewrite decide_False; [done|]. tauto.
Qed.

(** The keys of [/get 42 2024-01-01] on a table with a sort key: the number
    42 is a String in the key. *)
Lemma keyed_commands_build_string_keys_witness :
tables (with_tables [orders_table] 0) ≠ []
∧ at_index (tables (with_tables [orders_table] 0))
    (currentTable (with_tables [orders_table] 0)) = Some orders_table
∧ ∃ key : Item,
    executeGet (with_tables [orders_table] 0) sample_os ["42"; "2024-01-01"]
    = Some (with_tables [orders_table] 0, sample_os,
            Some (getCmd (Name orders_table) key))
    ∧ executeUpdate (with_tables [orders_table] 0) sample_os
        ["42"; "2024-01-01"]
      = Some (with_tables [orders_table] 0, sample_os,
              Some (fetchForEditCmd (Name orders_table) key))
    ∧ executeDelete (with_tables [orders_table] 0) sample_os
        ["42"; "2024-01-01"]
      = Some (with_tables [orders_table] 0, sample_os,
              Some (deleteCmd (Name orders_table) key))
    ∧ map_all (λ _, is_S) key = true
    ∧ is_Some (key !! PartitionKey orders_table)
    ∧ dom key ⊆ {[ PartitionKey orders_table; SortKey orders_table ]}
    ∧ (["2024-01-01"] = [] →
       BuildKey orders_table "42" EmptyString = Ok key)
    ∧ (∀ arg1 rest', ["2024-01-01"] = arg1 :: rest' → arg1 ≠ EmptyString →
         BuildKey orders_table "42" arg1 = Ok key).
Proof.
split; [done|]. split; [reflexivity|].
apply (keyed_commands_build_string_keys
         (with_tables [orders_table] 0) sample_os orders_table
         "42" ["2024-01-01"]); [done|reflexivity].
Defined.

Section QueryFacts.
Context `{GoLib}.

Lemma executeQuery_plain (m : Model) (os : OS) (table : TableInfo)
    (a : string) (rest : list string) :
  tables m ≠ [] →
  at_index (tables m) (currentTable m) = Some table →
  (rest = [] ∨ Go.Contains a "=" = true) →
  executeQuery m os (a :: rest)
  = match ParseKeyValue a with
    | Err err => Some (set_status m ("Error: " +:+ err), os, None)
    | Ok (pkName, pkValue) =>
        Some (m, os,
              Some (queryCmd (Name table) EmptyString (pkName +:+ " = :pk")
                      {[ ":pk" := pkValue ]}))
    end.
Proof.
  intros Hne Htable Hplain. unfold executeQuery.
  rewrite (tables_selected m Hne), Htable. simpl.
  destruct Hplain as [->|Ha].
  - done.
  - rewrite Ha. simpl. by destruct (1 <? _)%Z.
Qed.

Lemma executeQuery_index (m : Model) (os : OS) (table : TableInfo)
    (idx a : string) (rest : list string) :
  tables m ≠ [] →
  at_index (tables m) (currentTable m) = Some table →
  Go.Contains idx "=" = false →
  executeQuery m os (idx :: a :: rest)
  = match ParseKeyValue a with
    | Err err => Some (set_status m ("Error: " +:+ err), os, None)
    | Ok (pkName, pkValue) =>
        Some (m, os,
              Some (queryCmd (Name table) idx (pkName +:+ " = :pk")
                      {[ ":pk" := pkValue ]}))
    end.
Proof.
  intros Hne Htable Hidx. unfold executeQuery.
  rewrite (tables_selected m Hne), Htable. simpl.
  assert ((1 <? Go.count (idx :: a :: rest))%Z = true) as ->.
  { apply Z.ltb_lt. unfold Go.count. simpl. lia. }
  by rewrite Hidx.
Qed.

End QueryFacts.

(** X8. The arguments of [/query]. The first argument is the index name
    exactly when another argument follows it and it holds no [=]; the key
    condition is read from the argument after the index name, or from the
    first argument when there is no index name, and what follows is ignored.
    So a lone argument without [=] is never an index name: it is reported as
    a text that is not of the form key=value. A query that is issued keeps
    the session as it is, names the current table, has an index name without
    [=], and binds the one placeholder [:pk]. *)
Theorem query_arguments `{GoLib} (m : Model) (os : OS) (table : TableInfo) :
  tables m ≠ [] →
  at_index (tables m) (currentTable m) = Some table →
  (∀ a, Go.Contains a "=" = false →
        executeQuery m os [a]
        = Some (set_status m ("Error: invalid key=value format: " +:+ a),
                os, None))
  ∧ (∀ a rest pkName pkValue,
       ParseKeyValue a = Ok (pkName, pkValue) →
       executeQuery m os (a :: rest)
       = Some (m, os,
               Some (queryCmd (Name table) EmptyString (pkName +:+ " = :pk")
                       {[ ":pk" := pkValue ]})))
  ∧ (∀ idx a rest pkName pkValue,
       Go.Contains idx "=" = false →
       ParseKeyValue a = Ok (pkName, pkValue) →
       executeQuery m os (idx :: a :: rest)
       = Some (m, os,
               Some (queryCmd (Name table) idx (pkName +:+ " = :pk")
                       {[ ":pk" := pkValue ]})))
  ∧ (∀ args m' os' c,
       executeQuery m os args = Some (m', os', Some c) →
       m' = m ∧ os' = os
       ∧ ∃ indexName pkName pkValue,
           c = queryCmd (Name table) indexName (pkName +:+ " = :pk")
                 {[ ":pk" := pkValue ]}
           ∧ Go.Contains indexName "=" = false).
Proof.
  intros Hne Htable. split; [|split; [|split]].
  - intros a Ha.
    rewrite (executeQuery_plain m os table a []) by auto.
    by rewrite (ParseKeyValue_without a Ha).
  - intros a rest pkName pkValue Hparse.
    assert (Go.Contains a "=" = true) as Ha.
    { rewrite <- ParseKeyValue_Ok. by rewrite Hparse. }
    rewrite (executeQuery_plain m os table a rest) by auto.
    by rewrite Hparse.
  - intros idx a rest pkName pkValue Hidx Hparse.
    rewrite (executeQuery_index m os table idx a rest) by auto.
    by rewrite Hparse.
  - intros args m' os' c Hrun.
    destruct args as [|a rest].
    { unfold executeQuery in Hrun.
      rewrite (tables_selected m Hne), Htable in Hrun. simpl in Hrun.
      discriminate. }
    destruct (Go.Contains a "=") eqn:Ha.
    + rewrite (executeQuery_plain m os table a rest) in Hrun by auto.
      destruct (ParseKeyValue a) as [[pkName pkValue]|e]; [|discriminate].
      injection Hrun as <- <- <-. split; [done|]. split; [done|].
      by exists EmptyString, pkName, pkValue.
    + destruct rest as [|b rest].
      * rewrite (executeQuery_plain m os table a []) in Hrun by auto.
        rewrite (ParseKeyValue_without a Ha) in Hrun. discriminate.
      * rewrite (executeQuery_index m os table a b rest) in Hrun by auto.
        destruct (ParseKeyValue b) as [[pkName pkValue]|e]; [|discriminate].
        injection Hrun as <- <- <-. split; [done|]. split; [done|].
        by exists a, pkName, pkValue.
Qed.

Section QueryExamples.
Local Existing Instance Ref.lib.

Lemma query_arguments_witness :
tables (with_tables [orders_table] 0) ≠ []
∧ at_index (tables (with_tables [orders_table] 0))
    (currentTable (with_tables [orders_table] 0)) = Some orders_table
∧ executeQuery (with_tables [orders_table] 0) sample_os ["by-day"]
  = Some (set_status (with_tables [orders_table] 0)
            "Error: invalid key=value format: by-day", sample_os, None)
∧ executeQuery (with_tables [orders_table] 0) sample_os
    ["by-day"; "day=monday"]
  = Some (with_tables [orders_table] 0, sample_os,
          Some (queryCmd "orders" "by-day" "day = :pk"
                  {[ ":pk" := AttributeValueMemberS "monday" ]})).
Proof.
assert (tables (with_tables [orders_table] 0) ≠ []) as H1 by done.
assert (at_index (tables (with_tables [orders_table] 0))
          (currentTable (with_tables [orders_table] 0)) = Some orders_table)
  as H2 by reflexivity.
split; [exact H1|]. split; [exact H2|].
destruct (query_arguments (with_tables [orders_table] 0) sample_os
            orders_table H1 H2) as (Hlone & _ & Hidx & _).
split.
- apply (Hlone "by-day"). vm_compute; reflexivity.
- apply (Hidx "by-day" "day=monday" [] "day"
           (AttributeValueMemberS "monday")); vm_compute; reflexivity.
Defined.

End QueryExamples.

(** ** The state machine: indexes stay in range *)

Lemma at_index_is_Some {A} (l : list A) (i : Z) :
  (0 ≤ i < Go.count l)%Z → is_Some (at_index l i).
Proof.
  intros Hi. unfold at_index, Go.count in *.
  assert ((0 <=? i)%Z = true) as -> by (apply Z.leb_le; lia).
  apply lookup_lt_is_Some. lia.
Qed.

Lemma findTable_range (ts : list TableInfo) (name : string) (i j : Z) :
  findTable ts name i = Some j → (i ≤ j < i + Go.count ts)%Z.
Proof.
  revert i. induction ts as [|t ts IH]; intros i; simpl; [done|].
  unfold Go.count in *. simpl length. case_decide.
  - intros [= <-]. lia.
  - intros Hj. apply IH in Hj. lia.
Qed.

Section IndexFacts.
Context `{GoLib} `{Toolkit}.

(** A step that does not panic and leaves the indexes in range. *)
Local Abbreviation lands s :=
  (∃ m' os' c, s = Some (m', os', c) ∧ index_inv m').

Lemma index_inv_same (m m' : Model) :
  cursor m' = cursor m → currentTable m' = currentTable m →
  tables m' = tables m → index_inv m → index_inv m'.
Proof. unfold index_inv. by intros -> -> ->. Qed.

Lemma index_inv_kept_setError m e : index_inv m → index_inv (setError m e).
Proof. unfold setError. by destruct (50 <? _)%Z. Qed.

Lemma current_table m :
  index_inv m → (0 <? Go.count (tables m))%Z = true →
  is_Some (at_index (tables m) (currentTable m)).
Proof.
  intros [_ Ht] Hc. apply at_index_is_Some, Ht.
  intros E. rewrite E in Hc. done.
Qed.

Lemma current_table' m :
  index_inv m → (Go.count (tables m) =? 0)%Z = false →
  is_Some (at_index (tables m) (currentTable m)).
Proof.
  intros Hinv Hc. apply current_table; [done|].
  apply Z.eqb_neq in Hc. apply Z.ltb_lt. unfold Go.count in *. lia.
Qed.

Lemma lands_openEditor m os content :
  index_inv m → lands (openEditor m os content).
Proof.
  intros Hinv. unfold openEditor.
  destruct (createTemp os); [|by eauto 6].
  destruct (writeString _); by eauto 6.
Qed.

Lemma lands_putNewItem m os : index_inv m → lands (putNewItem m os).
Proof.
  intros Hinv. unfold putNewItem.
  destruct (0 <? _)%Z eqn:Hc; [|by apply lands_openEditor].
  destruct (current_table m Hinv Hc) as [table ->]. simpl.
  by apply lands_openEditor.
Qed.

Lemma lands_editCurrentItem m os : index_inv m → lands (editCurrentItem m os).
Proof.
  intros Hinv. unfold editCurrentItem.
  destruct (_ || _) eqn:Hc; [by eauto 6|].
  apply orb_false_iff in Hc as [_ Hc]. apply Z.leb_gt in Hc.
  destruct (at_index_is_Some (items m) (cursor m)) as [item ->].
  { destruct Hinv. lia. }
  simpl. by apply lands_openEditor.
Qed.

Lemma lands_executeQuery m os args : index_inv m → lands (executeQuery m os args).
Proof.
  intros Hinv. unfold executeQuery.
  destruct (_ =? 0)%Z eqn:Hc; [by eauto 6|].
  destruct (current_table' m Hinv Hc) as [table ->]. simpl.
  assert (∀ (indexName : string) (keyArgs : list string),
            lands (match keyArgs with
                   | [] =>
                       Some (set_status m "Usage: /query [indexName] pk=value",
                             os, None)
                   | keyArg :: _ =>
                       match ParseKeyValue keyArg with
                       | Err err =>
                           Some (set_status m ("Error: " +:+ err), os, None)
                       | Ok (pkName, pkValue) =>
                           Some (m, os,
                                 Some (queryCmd (Name table) indexName
                                         (pkName +:+ " = :pk")
                                         {[ ":pk" := pkValue ]}))
                       end
                   end : Step)) as Hrest.
  { intros indexName [|keyArg ?]; [by eauto 6|].
    destruct (ParseKeyValue keyArg) as [[pkName pkValue]|]; by eauto 6. }
  destruct (1 <? _)%Z eqn:Hargs; [|exact (Hrest EmptyString args)].
  destruct args as [|a rest]; [done|].
  change ((a :: rest) !! 0%nat) with (Some a). cbn [mbind option_bind].
  destruct (negb _); [exact (Hrest a rest)|exact (Hrest EmptyString (a :: rest))].
Qed.

Lemma lands_keyed_command (f : string → Item → Cmd) m os args :
  index_inv m → (Go.count args <? 1)%Z = false →
  lands ((if (Go.count (tables m) =? 0)%Z
          then Some (set_status m "No table selected", os, None)
          else table ← at_index (tables m) (currentTable m);
               key ← commandKey table args;
               Some (m, os, Some (f (Name table) key))) : Step).
Proof.
  intros Hinv Hargs. destruct (_ =? 0)%Z eqn:Hc; [by eauto 6|].
  destruct (current_table' m Hinv Hc) as [table ->]. simpl.
  destruct args as [|arg0 rest]; [done|].
  rewrite commandKey_cons. simpl. by eauto 6.
Qed.

Lemma lands_executeCommand m os cmd :
  index_inv m → lands (executeCommand m os cmd).
Proof.
  intros Hinv. unfold executeCommand.
  destruct (specialCommand _) as [[]|]; try by eauto 6.
  - case_decide; by eauto 6.
  - destruct (Fields _) as [|part0 args]; [by eauto 6|].
    destruct (verb (ToLower part0)) as [[]|].
    + destruct (0 <? _)%Z eqn:Hc.
      * destruct (current_table m Hinv Hc) as [table ->]. simpl. by eauto 6.
      * unfold unknownCommand.
        eexists _, _, _. split; [done|]. by apply index_inv_kept_setError.
    + destruct (_ <? 1)%Z; [by eauto 6|]. by apply lands_executeQuery.
    + destruct (_ <? 1)%Z eqn:Ha; [by eauto 6|].
      by apply (lands_keyed_command getCmd).
    + by apply lands_putNewItem.
    + destruct (_ <? 1)%Z eqn:Ha; [by eauto 6|].
      by apply (lands_keyed_command fetchForEditCmd).
    + destruct (_ <? 1)%Z eqn:Ha; [by eauto 6|].
      by apply (lands_keyed_command deleteCmd).
    + unfold unknownCommand.
      eexists _, _, _. split; [done|]. by apply index_inv_kept_setError.
Qed.

Lemma lands_handleCommandMode m os k :
  index_inv m → lands (handleCommandMode m os k).
Proof.
  intros Hinv. unfold handleCommandMode.
  destruct (key_Type k);
    try (destruct (textinput_Update _ _); by eauto 6).
  - by eauto 6.
  - by apply lands_executeCommand.
Qed.

Lemma lands_handleTableSelectMode m os k :
  index_inv m → lands (handleTableSelectMode m os k).
Proof.
  intros Hinv. unfold handleTableSelectMode.
  destruct Hinv as [Hc Ht]. assert (index_inv m) as Hinv by done.
  repeat case_decide; try by eauto 6.
  - destruct (0 <? currentTable m)%Z eqn:Hpos; [|by eauto 6].
    apply Z.ltb_lt in Hpos. eexists _, _, _. split; [done|].
    split; [done|]. simpl. intros Hne. specialize (Ht Hne). lia.
  - destruct (_ <? _)%Z eqn:Hlt; [|by eauto 6].
    apply Z.ltb_lt in Hlt. eexists _, _, _. split; [done|].
    split; [done|]. simpl. intros Hne. specialize (Ht Hne). lia.
  - destruct (0 <? _)%Z eqn:Hpos; [|by eauto 6]. simpl in *.
    destruct (current_table m Hinv Hpos) as [table ->]. simpl. by eauto 6.
Qed.

Lemma lands_handleItemViewMode m os k :
  index_inv m → lands (handleItemViewMode m os k).
Proof.
  intros Hinv. unfold handleItemViewMode.
  repeat case_decide; try by eauto 6.
  by apply lands_editCurrentItem.
Qed.

Lemma deleteSelectedItems_is_Some m :
  index_inv m → is_Some (deleteSelectedItems m).
Proof.
  intros Hinv. unfold deleteSelectedItems.
  destruct (_ || _) eqn:Hc; [by eexists|].
  apply orb_false_iff in Hc as [Hc _].
  destruct (current_table' m Hinv Hc) as [table ->]. simpl.
  by match goal with |- is_Some (match ?l with _ => _ end) => destruct l end.
Qed.

Lemma lands_handleConfirmDeleteMode m os k :
  index_inv m → lands (handleConfirmDeleteMode m os k).
Proof.
  intros Hinv. unfold handleConfirmDeleteMode.
  repeat case_decide; try by eauto 6.
  destruct (deleteSelectedItems_is_Some (set_mode m ModeNormal)) as [c Hc];
    [done|].
  rewrite Hc. simpl. by eauto 6.
Qed.

Lemma lands_handleNormalMode m os k :
  index_inv m → lands (handleNormalMode m os k).
Proof.
  intros Hinv. unfold handleNormalMode.
  destruct Hinv as [Hc Ht]. assert (index_inv m) as Hinv by done.
  destruct (normalKey _); try by eauto 6.
  - case_decide; by eauto 6.
  - eexists _, _, _. split; [done|]. unfold enterCommand.
    by destruct (err _).
  - eexists _, _, _. split; [done|]. unfold enterCommand.
    by destruct (err _).
  - eexists _, _, _. split; [done|].
    destruct (0 <? cursor m)%Z eqn:Hpos; [|done].
    apply Z.ltb_lt in Hpos. split; [simpl; lia|done].
  - eexists _, _, _. split; [done|].
    destruct (_ <? _)%Z; [|done]. split; [simpl; lia|done].
  - case_decide; [by apply lands_executeCommand|].
    destruct (_ && _) eqn:Hin; simpl; [|by eauto 6].
    apply andb_true_iff in Hin as [_ Hin]. apply Z.ltb_lt in Hin.
    destruct (at_index_is_Some (items m) (cursor m)) as [item ->]; [lia|].
    simpl. by eauto 6.
  - eexists _, _, _. split; [done|].
    destruct (0 <? _)%Z; [|done]. by destruct (default false _).
  - destruct (_ && _); [|by eauto 6]. by apply lands_editCurrentItem.
  - case_decide; by eauto 6.
  - by apply lands_putNewItem.
  - case_decide; [|by eauto 6].
    eexists _, _, _. split; [done|]. split; [simpl; lia|done].
  - eexists _, _, _. split; [done|]. split; [simpl; lia|done].
Qed.

Lemma lands_handleKeyPress m os k :
  index_inv m → lands (handleKeyPress m os k).
Proof.
  intros Hinv. unfold handleKeyPress. destruct (mode m).
  - by apply lands_handleNormalMode.
  - by apply lands_handleCommandMode.
  - by apply lands_handleTableSelectMode.
  - by apply lands_handleItemViewMode.
  - by apply lands_handleConfirmDeleteMode.
  - destruct (_ || _); by eauto 6.
  - destruct (_ || _); by eauto 6.
Qed.

Lemma lands_Update m os msg : index_inv m → lands (Update m os msg).
Proof.
  intros Hinv. destruct Hinv as [Hc Ht]. assert (index_inv m) as Hinv by done.
  destruct msg as [w h|ts e|its e nm|st e|ct o e|it e|k|]; simpl.
  - by eauto 6.
  - destruct e as [e|].
    { eexists _, _, _. split; [done|]. by apply index_inv_kept_setError. }
    destruct (0 <? Go.count ts)%Z eqn:Hts; [|].
    2:{ eexists _, _, _. split; [done|]. split; [done|]. simpl.
        intros Hne. apply count_pos in Hne. apply Z.ltb_ge in Hts. lia. }
    apply Z.ltb_lt in Hts.
    assert (∀ m0 : Model, tables m0 = ts →
              (0 ≤ currentTable m0 < Go.count ts)%Z → (0 ≤ cursor m0)%Z →
              lands (table ← at_index (tables m0) (currentTable m0);
                     Some (m0, os, Some (loadItems (Name table) EmptyString))))
      as Hgo.
    { intros m0 Hm0 Hi Hcur.
      destruct (at_index_is_Some (tables m0) (currentTable m0)) as [t ->];
        [by rewrite Hm0|].
      simpl. eexists _, _, _. split; [done|]. split; [done|].
      by rewrite Hm0. }
    case_decide.
    + destruct (findTable _ _ _) as [i|] eqn:Hfind; simpl.
      * apply findTable_range in Hfind. apply Hgo; simpl; [done|lia|done].
      * destruct (at_index_is_Some ts 0) as [first ->]; [lia|]. simpl.
        apply Hgo; simpl; [done|lia|done].
    + simpl. apply Hgo; simpl; [done|lia|done].
  - destruct e as [e|].
    { eexists _, _, _. split; [done|]. by apply index_inv_kept_setError. }
    eexists _, _, _. split; [done|].
    destruct nm; [done|]. by destruct (preserveStatus _).
  - destruct e as [e|].
    { eexists _, _, _. split; [done|]. by apply index_inv_kept_setError. }
    destruct (0 <? _)%Z eqn:Hts; [|by eauto 6]. simpl in Hts.
    destruct (current_table m Hinv Hts) as [table Htable]. simpl.
    simpl in Htable. rewrite Htable. simpl. by eauto 6.
  - destruct e as [e|].
    { eexists _, _, _. split; [done|]. by apply index_inv_kept_setError. }
    case_decide; [by eauto 6|]. unfold saveEditedItem.
    destruct (_ =? 0)%Z eqn:Hts; simpl; [by eauto 6|].
    destruct (current_table' m Hinv Hts) as [table ->]. simpl. by eauto 6.
  - destruct e as [e|]; [by eauto 6|].
    destruct it as [item|]; [|by eauto 6].
    by apply lands_editCurrentItem.
  - by apply lands_handleKeyPress.
  - by eauto 6.
Qed.

Lemma lands_run m os msgs :
  index_inv m → ∃ m' os', run m os msgs = Some (m', os') ∧ index_inv m'.
Proof.
  revert m os. induction msgs as [|msg msgs IH]; intros m os Hinv.
  - by exists m, os.
  - destruct (lands_Update m os msg Hinv) as (m1 & os1 & c & Hstep & Hinv1).
    cbn [run]. rewrite Hstep. simpl. by apply IH.
Qed.

End IndexFacts.

(** X9. No handler of [Update] indexes a list out of range. The indexes
    of a session are in range when its cursor is not negative and its
    current table is one of the tables (if any); from such a session, and so
    from the initial one, every sequence of messages is handled to the end,
    and the indexes are in range afterwards. *)
Theorem indexes_stay_in_range `{GoLib} `{Toolkit}
    (m : Model) (os : OS) (msgs : list Msg) :
  index_inv m →
  ∃ m' os', run m os msgs = Some (m', os') ∧ index_inv m'.
Proof.
  intros Hinv. destruct (lands_run m os msgs Hinv) as (m' & os' & Hrun & Hinv').
  by exists m', os'.
Qed.

Section IndexExamples.
Local Existing Instance Ref.lib.
Local Existing Instance Ref.toolkit.

(** The initial session, for any requested table, and the messages that
    select a record and then bring a record fetched for an edit. *)
Lemma indexes_stay_in_range_witness :
index_inv (NewModel "users")
∧ ∃ m' os',
    run (NewModel "users") sample_os
      (browsing ++ [itemFetchedForEditMsg (Some (record "z")) None])
    = Some (m', os')
    ∧ index_inv m'.
Proof.
assert (index_inv (NewModel "users")) as H1 by (split; [simpl; lia|done]).
split; [exact H1|].
exact (indexes_stay_in_range (NewModel "users") sample_os
         (browsing ++ [itemFetchedForEditMsg (Some (record "z")) None]) H1).
Defined.

End IndexExamples.

(** ** The state machine: the chord buffer and the quit key *)

Section ChordFacts.
Context `{GoLib} `{Toolkit}.

Lemma chord_inv_kept m m' : kept m m' → chord_inv m → chord_inv m'.
Proof. unfold kept, chord_inv. by intros (_ & _ & _ & ->). Qed.

Lemma chord_inv_same m m' :
  keyBuffer m' = keyBuffer m → chord_inv m → chord_inv m'.
Proof. unfold chord_inv. by intros ->. Qed.

Lemma chord_inv_normal m os k m' os' c :
  mode m = ModeNormal → chord_inv m →
  handleKeyPress m os k = Some (m', os', c) → chord_inv m'.
Proof.
  unfold handleKeyPress. intros -> Hinv. unfold handleNormalMode.
  assert (∀ m0, keyBuffer m0 = EmptyString → chord_inv m0) as Hclear
    by (by left).
  destruct (normalKey _).
  - by intros [= <- <- <-].
  - case_decide; by intros [= <- <- <-].
  - intros [= <- <- <-]. apply Hclear. unfold enterCommand.
    by destruct (err _).
  - intros [= <- <- <-]. apply Hclear. unfold enterCommand.
    by destruct (err _).
  - intros [= <- <- <-]. by apply Hclear.
  - intros [= <- <- <-]. by apply Hclear.
  - case_decide.
    + intros Hrun. apply kept_executeCommand in Hrun.
      apply Hclear. by destruct Hrun as (_ & _ & _ & ->).
    + destruct (_ && _); simpl.
      * destruct (at_index _ _); [|discriminate]. intros [= <- <- <-].
        by apply Hclear.
      * intros [= <- <- <-]. by apply Hclear.
  - intros [= <- <- <-]. by apply Hclear.
  - destruct (_ && _).
    + intros Hrun. apply kept_editCurrentItem in Hrun.
      by eapply chord_inv_kept.
    + intros [= <- <- <-]. by apply Hclear.
  - case_decide; intros [= <- <- <-]; [by apply Hclear|].
    right. by left.
  - intros [= <- <- <-]. by apply Hclear.
  - intros Hrun. apply kept_putNewItem in Hrun.
    apply Hclear. by destruct Hrun as (_ & _ & _ & ->).
  - intros [= <- <- <-]. by apply Hclear.
  - intros [= <- <- <-]. by apply Hclear.
  - case_decide; intros [= <- <- <-]; [by apply Hclear|].
    right. by right.
  - intros [= <- <- <-]. by apply Hclear.
  - intros [= <- <- <-]. by apply Hclear.
Qed.

Lemma chord_inv_Update m os msg m' os' c :
  chord_inv m → Update m os msg = Some (m', os', c) → chord_inv m'.
Proof.
  intros Hinv. destruct msg as [w h|ts e|its e nm|st e|ct o e|it e|k|];
    simpl.
  - by intros [= <- <- <-].
  - destruct e as [e|].
    + intros [= <- <- <-]. eapply chord_inv_kept; [apply kept_setError|done].
    + destruct (0 <? _)%Z; [|by intros [= <- <- <-]].
      case_decide.
      * destruct (findTable _ _ _); simpl.
        -- destruct (at_index _ _); [|discriminate]. by intros [= <- <- <-].
        -- destruct (at_index ts 0); [|discriminate]. simpl.
           destruct (at_index _ _); [|discriminate]. by intros [= <- <- <-].
      * simpl. destruct (at_index _ _); [|discriminate].
        by intros [= <- <- <-].
  - destruct e as [e|].
    + intros [= <- <- <-]. eapply chord_inv_kept; [apply kept_setError|done].
    + intros [= <- <- <-]. destruct nm; [done|].
      by destruct (preserveStatus _).
  - destruct e as [e|].
    + intros [= <- <- <-]. eapply chord_inv_kept; [apply kept_setError|done].
    + destruct (0 <? _)%Z; [|by intros [= <- <- <-]].
      destruct (at_index _ _); [|discriminate]. by intros [= <- <- <-].
  - destruct e as [e|].
    + intros [= <- <- <-]. eapply chord_inv_kept; [apply kept_setError|done].
    + case_decide; [by intros [= <- <- <-]|].
      destruct (saveEditedItem _ _); [|discriminate]. by intros [= <- <- <-].
  - destruct e as [e|]; [by intros [= <- <- <-]|].
    destruct it as [item|]; [|by intros [= <- <- <-]].
    intros Hrun. apply kept_editCurrentItem in Hrun.
    eapply chord_inv_same; [|exact Hinv].
    by destruct Hrun as (_ & _ & _ & ->).
  - destruct (mode m) eqn:Hm; [by apply chord_inv_normal|..];
      (intros Hrun; apply kept_other_modes in Hrun; [|by rewrite Hm];
       by eapply chord_inv_kept).
  - by intros [= <- <- <-].
Qed.

Lemma chord_inv_run m os msgs m' os' :
  chord_inv m → run m os msgs = Some (m', os') → chord_inv m'.
Proof.
  revert m os. induction msgs as [|msg msgs IH]; intros m os Hinv; cbn [run].
  - by intros [= <- <-].
  - destruct (Update m os msg) as [[[m1 os1] c]|] eqn:Hstep; [|discriminate].
    simpl. apply IH. by eapply chord_inv_Update.
Qed.

Lemma KeyMsg_String_q_type k :
  KeyMsg_String k = "q" →
  match key_Type k with KeyEsc | KeyEnter => False | _ => True end.
Proof.
  unfold KeyMsg_String. destruct (key_Alt k), (key_Type k); try done.
Qed.

Lemma q_does_not_quit m os k m' os' c :
  chord_inv m → KeyMsg_String k = "q" →
  Update m os (KeyPress k) = Some (m', os', c) → c ≠ Some Quit.
Proof.
  intros Hinv Hk. simpl. unfold handleKeyPress.
  destruct (mode m).
  - unfold handleNormalMode. rewrite Hk. simpl.
    case_decide as Hb; [|by intros [= <- <- <-]].
    destruct Hinv as [Hi|[Hi|Hi]]; rewrite Hi in Hb; discriminate.
  - unfold handleCommandMode. pose proof (KeyMsg_String_q_type k Hk) as Ht.
    destruct (key_Type k); try done;
      (destruct (textinput_Update _ _) as [v [|]]; by intros [= <- <- <-]).
  - unfold handleTableSelectMode. rewrite Hk.
    repeat (case_decide as Hd;
            [first [discriminate Hd
                   |by (destruct Hd as [Hd|Hd]; discriminate Hd)]|]).
    by intros [= <- <- <-].
  - unfold handleItemViewMode. rewrite Hk.
    rewrite decide_True by auto. by intros [= <- <- <-].
  - unfold handleConfirmDeleteMode. rewrite Hk.
    rewrite decide_False by (intros [Hd|Hd]; discriminate Hd).
    rewrite decide_False by (intros [Hd|[Hd|Hd]]; discriminate Hd).
    by intros [= <- <- <-].
  - destruct (_ || _); by intros [= <- <- <-].
  - destruct (_ || _); by intros [= <- <- <-].
Qed.

End ChordFacts.

(** X10. The key [q] never quits. The chord buffer of a session holds
    nothing, [d] or [g], at the start and after every message; so the branch
    of the Normal mode handler that quits on [q] when the buffer holds [:] is
    never taken: in Normal mode [q] changes nothing and returns no command,
    and in no other mode does a key whose text is [q] return the quit
    command. *)
Theorem bare_q_never_quits `{GoLib} `{Toolkit}
    (m : Model) (os : OS) (msgs : list Msg) (m' : Model) (os' : OS) :
  chord_inv m →
  run m os msgs = Some (m', os') →
  chord_inv m'
  ∧ (∀ k, KeyMsg_String k = "q" → mode m' = ModeNormal →
          Update m' os' (KeyPress k) = Some (m', os', None))
  ∧ (∀ k m'' os'' c, KeyMsg_String k = "q" →
       Update m' os' (KeyPress k) = Some (m'', os'', c) → c ≠ Some Quit).
Proof.
  intros Hinv Hrun.
  assert (chord_inv m') as Hinv' by (by eapply chord_inv_run).
  split; [done|]. split.
  - intros k Hk Hm. simpl. unfold handleKeyPress, handleNormalMode.
    rewrite Hm, Hk. simpl. rewrite decide_False; [done|].
    intros Hb. destruct Hinv' as [Hi|[Hi|Hi]]; rewrite Hi in Hb;
      discriminate.
  - intros k m'' os'' c Hk Hstep. by eapply q_does_not_quit.
Qed.

(** ** The state machine: the session invariant over a run *)

(** X11. The invariant of the session on its records (the cursor is on a
    record, or is 0 when there is none, and every selected index is the
    index of a record) holds after every sequence of messages that brings no
    record fetched for an edit, when it holds before and the indexes are in
    range. *)
Theorem session_invariant_over_runs `{GoLib} `{Toolkit}
    (m : Model) (os : OS) (msgs : list Msg) :
  index_inv m → session_inv m →
  Forall (λ msg, brings_record msg = false) msgs →
  ∃ m' os', run m os msgs = Some (m', os') ∧ session_inv m'.
Proof.
  intros Hidx Hinv Hmsgs. revert m os Hidx Hinv.
  induction Hmsgs as [|msg msgs Hmsg _ IH]; intros m os Hidx Hinv.
  - by exists m, os.
  - destruct (lands_Update m os msg Hidx) as (m1 & os1 & c & Hstep & Hidx1).
    cbn [run]. rewrite Hstep. simpl. apply IH; [done|].
    eapply Update_keeps_session_inv; [|exact Hinv|exact Hstep].
    intros item ->. discriminate.
Qed.

(** X12. The escape key leads back to Normal mode from every mode: it
    returns no command, it does not touch the files, and it leaves the
    tables, the records, the cursor and the selection as they are. *)
Theorem escape_returns_to_normal `{GoLib} `{Toolkit} (m : Model) (os : OS) :
  ∃ m', Update m os (KeyPress (special KeyEsc)) = Some (m', os, None)
        ∧ mode m' = ModeNormal
        ∧ tables m' = tables m ∧ currentTable m' = currentTable m
        ∧ items m' = items m ∧ cursor m' = cursor m
        ∧ selected m' = selected m.
Proof.
  simpl. unfold handleKeyPress.
  destruct (mode m) eqn:Hm.
  - unfold handleNormalMode. simpl. eexists. by split.
  - unfold handleCommandMode. simpl. eexists. by split.
  - unfold handleTableSelectMode. simpl. eexists. by split.
  - unfold handleItemViewMode. simpl. eexists. by split.
  - unfold handleConfirmDeleteMode. simpl. eexists. by split.
  - simpl. eexists. by split.
  - simpl. eexists. by split.
Qed.

Section SessionExamples.
Local Existing Instance Ref.lib.
Local Existing Instance Ref.toolkit.

(** After [d] the buffer holds [d], and [q] neither quits nor clears it. *)
Lemma bare_q_never_quits_witness :
chord_inv (NewModel EmptyString)
∧ run (NewModel EmptyString) sample_os [typed "d"]
  = Some (set_keyBuffer (NewModel EmptyString) "d", sample_os)
∧ chord_inv (set_keyBuffer (NewModel EmptyString) "d")
∧ Update (set_keyBuffer (NewModel EmptyString) "d") sample_os (typed "q")
  = Some (set_keyBuffer (NewModel EmptyString) "d", sample_os, None).
Proof.
assert (chord_inv (NewModel EmptyString)) as H1 by (by left).
assert (run (NewModel EmptyString) sample_os [typed "d"]
        = Some (set_keyBuffer (NewModel EmptyString) "d", sample_os)) as H2
  by (vm_compute; reflexivity).
split; [exact H1|]. split; [exact H2|].
destruct (bare_q_never_quits (NewModel EmptyString) sample_os [typed "d"]
            _ _ H1 H2) as (H3 & H4 & _).
split; [exact H3|]. apply (H4 (runes "q")); reflexivity.
Defined.

(** The messages that load a table and three records and select the third
    one keep the invariant. *)
Lemma session_invariant_over_runs_witness :
index_inv (NewModel EmptyString)
∧ session_inv (NewModel EmptyString)
∧ Forall (λ msg, brings_record msg = false) browsing
∧ ∃ m' os',
    run (NewModel EmptyString) sample_os browsing = Some (m', os')
    ∧ session_inv m'.
Proof.
assert (index_inv (NewModel EmptyString)) as H1
  by (split; [simpl; lia|done]).
assert (session_inv (NewModel EmptyString)) as H2
  by (apply session_ok_iff; vm_compute; reflexivity).
assert (Forall (λ msg, brings_record msg = false) browsing) as H3
  by (repeat constructor).
split; [exact H1|]. split; [exact H2|]. split; [exact H3|].
exact (session_invariant_over_runs (NewModel EmptyString) sample_os browsing
         H1 H2 H3).
Defined.

End SessionExamples.

(** ** Errors on the status line *)

Lemma substring_prefix_length (n : nat) (s : string) :
  String.length (substring 0 n s) = Nat.min n (String.length s).
Proof.
  revert s. induction n as [|n IH]; intros [|c s]; simpl; try done.
  by rewrite IH.
Qed.

Lemma substring_prefix_split (n : nat) (s : string) :
  ∃ rest, s = substring 0 n s +:+ rest.
Proof.
  revert s. induction n as [|n IH]; intros s.
  - exists s. by destruct s.
  - destruct s as [|c s]; [by exists EmptyString|].
    destruct (IH s) as [rest Hrest]. exists rest.
    change (String c s = String c (substring 0 n s +:+ rest)).
    by rewrite <- Hrest.
Qed.

Lemma append_length (s t : string) :
  String.length (s +:+ t) = (String.length s + String.length t)%nat.
Proof. induction s as [|c s IH]; simpl; [done|]. by rewrite IH. Qed.

(** X13. The status line after an error. [setError] keeps the whole text
    as the last error. A text of at most 50 bytes goes to the status line as
    it is, and the mode stays. Of a longer text the status line gets the
    first 47 bytes followed by the ten bytes [... (/err)], and the error
    view opens on the whole text. So the status never has more than 57
    bytes. The records, the cursor, the selection, the chord buffer and the
    tables stay as they are. *)
Theorem error_status_is_short (m : Model) (e : error) :
  lastError (setError m e) = e
  ∧ (Go.len (status (setError m e)) ≤ 57)%Z
  ∧ ((Go.len e ≤ 50)%Z →
     status (setError m e) = e
     ∧ mode (setError m e) = mode m
     ∧ viewContent (setError m e) = viewContent m)
  ∧ ((50 < Go.len e)%Z →
     (∃ head rest,
        e = head +:+ rest ∧ Go.len head = 47%Z
        ∧ status (setError m e) = head +:+ "... (/err)")
     ∧ Go.len (status (setError m e)) = 57%Z
     ∧ mode (setError m e) = ModeErrorView
     ∧ viewContent (setError m e) = e)
  ∧ kept m (setError m e)
  ∧ tables (setError m e) = tables m
  ∧ currentTable (setError m e) = currentTable m.
Proof.
  assert ((50 < Go.len e)%Z →
          Go.len (Go.slice_to e 47 +:+ "... (/err)") = 57%Z) as Hshort.
  { intros Hlen. unfold Go.len, Go.slice_to, Go.slice in *.
    rewrite append_length, substring_prefix_length.
    change (Z.to_nat (47 - 0)) with 47%nat.
    change (String.length "... (/err)") with 10%nat. lia. }
  unfold setError. destruct (50 <? Go.len e)%Z eqn:Hlen; simpl.
  - apply Z.ltb_lt in Hlen. rewrite (Hshort Hlen).
    split; [done|]. split; [lia|]. split; [intros; lia|]. split; [|done].
    intros _. split; [|done].
    destruct (substring_prefix_split 47 e) as [rest Hrest].
    exists (Go.slice_to e 47), rest. split; [exact Hrest|]. split; [|done].
    unfold Go.len, Go.slice_to, Go.slice in *.
    change (Z.to_nat (47 - 0)) with 47%nat.
    rewrite substring_prefix_length. lia.
  - apply Z.ltb_ge in Hlen.
    split; [done|]. split; [lia|]. split; [done|].
    split; [intros; lia|done].
Qed.

(** ** The editor *)

(** X14. What [openEditor] leaves behind. It never fails to return, and
    it records the content as the original content. When the temporary file
    cannot be created, the files are untouched and no editor is started.
    When the file is created but cannot be written, it is removed again and
    no editor is started. Otherwise the file holds the content and the
    editor named by EDITOR ([vim] when it is not set) is started on it. No
    file other than the temporary file is touched on any path. *)
Theorem openEditor_outcomes (m : Model) (os : OS) (content : string) :
  ∃ m' os' c,
    openEditor m os content = Some (m', os', c)
    ∧ editOrigContent m' = content
    ∧ kept m m'
    ∧ match createTemp os with
      | Err e =>
          c = None ∧ os' = os
          ∧ status m' = "Error creating temp file: " +:+ e
      | Ok tmpFile =>
          editTmpFile m' = tmpFile
          ∧ (∀ path, path ≠ tmpFile → files os' !! path = files os !! path)
          ∧ match writeString os with
            | Some e =>
                c = None ∧ files os' !! tmpFile = None
                ∧ status m' = "Error writing temp file: " +:+ e
            | None =>
                c = Some (execEditorCmd
                            (if decide (EDITOR os = EmptyString)
                             then "vim" else EDITOR os) tmpFile content)
                ∧ files os' !! tmpFile = Some content
                ∧ status m' = status m
            end
      end.
Proof.
  unfold openEditor.
  destruct (createTemp os) as [tmpFile|e]; [|by eexists _, _, _].
  destruct (writeString os) as [e|] eqn:Hw; simpl; rewrite Hw.
  - eexists _, _, _. split; [done|]. split; [done|]. split; [done|].
    split; [done|]. simpl. split.
    + intros path Hpath. by rewrite lookup_delete_ne, lookup_insert_ne.
    + split; [done|]. split; [|done]. apply lookup_delete_eq.
  - eexists _, _, _. split; [done|]. split; [done|]. split; [done|].
    split; [done|]. simpl. split.
    + intros path Hpath. by rewrite !lookup_insert_ne.
    + split; [done|]. split; [|done]. apply lookup_insert_eq.
Qed.

(** X15. An edit from the start of the editor to its end. When
    [openEditor] has started the editor, the temporary file holds the
    content; when the editor then exits without error, the callback reads
    what the file holds at that time, removes the file and reports the text
    read together with the original content, so a file left as it was is
    reported as unchanged and nothing is saved; when the file is gone, the
    callback reports the error of the read. *)
Theorem edit_round_trip `{GoLib} `{Toolkit}
    (m : Model) (os : OS) (content : string)
    (m1 : Model) (os1 : OS) (cmd : Cmd) :
  openEditor m os content = Some (m1, os1, Some cmd) →
  cmd = execEditorCmd
          (if decide (EDITOR os = EmptyString) then "vim" else EDITOR os)
          (editTmpFile m1) content
  ∧ files os1 !! editTmpFile m1 = Some content
  ∧ (∀ os2 text,
       files os2 !! editTmpFile m1 = Some text →
       openEditor_callback m1 content None os2
       = (editorFinishedMsg text content None,
          os_Remove os2 (editTmpFile m1)))
  ∧ Update m1 (os_Remove os1 (editTmpFile m1))
      (openEditor_callback m1 content None os1).1
    = Some (set_status m1 "No changes made",
            os_Remove os1 (editTmpFile m1), None)
  ∧ (∀ os2,
       files os2 !! editTmpFile m1 = None →
       ∃ e, openEditor_callback m1 content None os2
            = (editorFinishedMsg EmptyString EmptyString (Some e),
               os_Remove os2 (editTmpFile m1))).
Proof.
  unfold openEditor.
  destruct (createTemp os) as [tmpFile|e]; [|discriminate].
  destruct (writeString _) as [e|]; [discriminate|].
  intros [= <- <- <-].
  set (m1 := set_editTmpFile (set_editOrigContent m content) tmpFile).
  change (editTmpFile m1) with tmpFile.
  assert (∀ os2 text,
            files os2 !! tmpFile = Some text →
            openEditor_callback m1 content None os2
            = (editorFinishedMsg text content None, os_Remove os2 tmpFile))
    as Hread.
  { intros os2 text Htext. unfold openEditor_callback, os_ReadFile.
    change (editTmpFile m1) with tmpFile. by rewrite Htext. }
  split; [done|]. split; [apply lookup_insert_eq|]. split; [exact Hread|].
  split.
  - rewrite (Hread _ content) by apply lookup_insert_eq.
    cbn [fst Update]. by rewrite decide_True.
  - intros os2 Hgone. unfold openEditor_callback, os_ReadFile.
    change (editTmpFile m1) with tmpFile. rewrite Hgone. by eexists.
Qed.

Section EditorExamples.
Local Existing Instance Ref.lib.
Local Existing Instance Ref.toolkit.

Lemma edit_round_trip_witness :
openEditor (NewModel EmptyString) sample_os "{}"
= Some (set_editTmpFile
          (set_editOrigContent (NewModel EmptyString) "{}") "/tmp/dui-1.json",
        set_files sample_os {[ "/tmp/dui-1.json" := "{}" ]},
        Some (execEditorCmd "vim" "/tmp/dui-1.json" "{}"))
∧ Update
    (set_editTmpFile
       (set_editOrigContent (NewModel EmptyString) "{}") "/tmp/dui-1.json")
    (os_Remove (set_files sample_os {[ "/tmp/dui-1.json" := "{}" ]})
       "/tmp/dui-1.json")
    (openEditor_callback
       (set_editTmpFile
          (set_editOrigContent (NewModel EmptyString) "{}") "/tmp/dui-1.json")
       "{}" None
       (set_files sample_os {[ "/tmp/dui-1.json" := "{}" ]})).1
  = Some (set_status
            (set_editTmpFile
               (set_editOrigContent (NewModel EmptyString) "{}")
               "/tmp/dui-1.json") "No changes made",
          os_Remove (set_files sample_os {[ "/tmp/dui-1.json" := "{}" ]})
            "/tmp/dui-1.json", None).
Proof.
assert (openEditor (NewModel EmptyString) sample_os "{}"
        = Some (set_editTmpFile
                  (set_editOrigContent (NewModel EmptyString) "{}")
                  "/tmp/dui-1.json",
                set_files sample_os {[ "/tmp/dui-1.json" := "{}" ]},
                Some (execEditorCmd "vim" "/tmp/dui-1.json" "{}"))) as H1
  by (vm_compute; reflexivity).
split; [exact H1|].
exact (proj1 (proj2 (proj2 (proj2
         (edit_round_trip (NewModel EmptyString) sample_os "{}" _ _ _ H1))))).
Defined.

End EditorExamples.

(** ** The records that a confirmed delete targets *)

(** X16. The targets of a confirmed delete. In a session that satisfies
    its invariant and has tables and records, confirming a delete issues one
    command, for the current table. Its targets are the selected indexes, in
    some order and each once, when there is a selection, and the index under
    the cursor alone when there is none; each target is the index of a
    record. *)
Theorem delete_targets (m : Model) (table : TableInfo) :
  session_inv m → tables m ≠ [] → items m ≠ [] →
  at_index (tables m) (currentTable m) = Some table →
  ∃ toDelete,
    deleteSelectedItems m = Some (Some (deleteSelectedCmd table toDelete))
    ∧ toDelete ≠ []
    ∧ NoDup toDelete
    ∧ (∀ i, i ∈ toDelete → (0 ≤ i < Go.count (items m))%Z)
    ∧ (selected m = ∅ → toDelete = [cursor m])
    ∧ (selected m ≠ ∅ → ∀ i, i ∈ toDelete ↔ is_Some (selected m !! i)).
Proof.
  intros (Hpos & _ & Hsel) Htables Hitems Htable. unfold deleteSelectedItems.
  rewrite (tables_selected m Htables).
  assert ((Go.count (items m) =? 0)%Z = false) as ->.
  { apply Z.eqb_neq. apply count_pos in Hitems. lia. }
  simpl. rewrite Htable. simpl.
  destruct (decide (selected m = ∅)) as [Hempty|Hsome].
  - rewrite Hempty, map_size_empty. simpl.
    specialize (Hpos Hitems).
    assert ((cursor m <? Go.count (items m))%Z = true) as ->
      by (apply Z.ltb_lt; lia).
    exists [cursor m]. split; [done|]. split; [done|].
    split; [apply NoDup_singleton|]. split.
    + intros i Hi. apply list_elem_of_singleton in Hi as ->. done.
    + split; [done|]. intros Hne. by destruct Hne.
  - assert ((0 <? Z.of_nat (size (selected m)))%Z = true) as ->.
    { apply Z.ltb_lt. apply map_size_non_empty_iff in Hsome. lia. }
    assert (∀ i, i ∈ (map_to_list (selected m)).*1
                 ↔ is_Some (selected m !! i)) as Hkeys.
    { intros i. rewrite list_elem_of_fmap. split.
      - intros ([i' b] & -> & Hin). apply elem_of_map_to_list in Hin.
        by eexists.
      - intros [b Hb]. exists (i, b). split; [done|].
        by apply elem_of_map_to_list. }
    destruct ((map_to_list (selected m)).*1) as [|i0 rest] eqn:Hl.
    { exfalso. apply Hsome. apply map_to_list_empty_iff.
      by apply fmap_nil_inv in Hl. }
    exists (i0 :: rest). split; [done|]. split; [done|].
    split; [rewrite <- Hl; apply NoDup_fst_map_to_list|]. split.
    + intros i Hi. apply Hsel. by apply Hkeys.
    + split; [done|]. intros _. exact Hkeys.
Qed.

(** Three records, the third selected while the cursor is on it: the one
    target is the index 2. *)
Lemma delete_targets_witness :
session_inv selecting
∧ tables selecting ≠ []
∧ items selecting ≠ []
∧ at_index (tables selecting) (currentTable selecting) = Some sample_table
∧ ∃ toDelete,
    deleteSelectedItems selecting
    = Some (Some (deleteSelectedCmd sample_table toDelete))
    ∧ toDelete ≠ []
    ∧ NoDup toDelete
    ∧ (∀ i, i ∈ toDelete → (0 ≤ i < Go.count (items selecting))%Z)
    ∧ (selected selecting = ∅ → toDelete = [cursor selecting])
    ∧ (selected selecting ≠ ∅ →
       ∀ i, i ∈ toDelete ↔ is_Some (selected selecting !! i)).
Proof.
assert (session_inv selecting) as H1
  by (apply session_ok_iff; vm_compute; reflexivity).
assert (tables selecting ≠ []) as H2 by done.
assert (items selecting ≠ []) as H3 by done.
assert (at_index (tables selecting) (currentTable selecting)
        = Some sample_table) as H4 by reflexivity.
split; [exact H1|]. split; [exact H2|]. split; [exact H3|].
split; [exact H4|].
exact (delete_targets selecting sample_table H1 H2 H3 H4).
Defined.

(** ** The paginated calls: a failing page *)

Section PaginationFailures.
Context {B : Type} (client : Client B).

Lemma ListTables_loop_fails b c served e b' :
  PagesFail (listTablesCall client) b c served e b' →
  ∀ fuel tables, (length served < fuel)%nat →
    ListTables_loop client fuel b tables c
    = Some (Err ("failed to list tables: " +:+ e), b').
Proof.
  induction 1 as [b c e b' Hcall|b c p c' b1 served e b' Hcall _ IH];
    intros [|fuel] tables Hfuel; simpl in Hfuel; try lia;
    simpl; unfold listTablesCall in Hcall;
    destruct (client_ListTables client b _) as [[out|e0] b0];
    simpl in Hcall; try discriminate.
  - by injection Hcall as -> ->.
  - injection Hcall as Hp Hc ->. rewrite Hc. apply IH. lia.
Qed.

Lemma Scan_loop_fails tableName indexName b c served e b' :
  PagesFail (scanCall client tableName indexName) b c served e b' →
  ∀ fuel items, (length served < fuel)%nat →
    Scan_loop client fuel b tableName indexName items c
    = Some (Err ("scan failed: " +:+ e), b').
Proof.
  induction 1 as [b c e b' Hcall|b c p c' b1 served e b' Hcall _ IH];
    intros [|fuel] items Hfuel; simpl in Hfuel; try lia;
    simpl; unfold scanCall in Hcall;
    destruct (client_Scan client b _) as [[out|e0] b0];
    simpl in Hcall; try discriminate.
  - by injection Hcall as -> ->.
  - injection Hcall as Hp Hc ->. rewrite Hc. apply IH. lia.
Qed.

Lemma Query_loop_fails tableName indexName keyCondition exprValues
    b c served e b' :
  PagesFail (queryCall client tableName indexName keyCondition exprValues)
    b c served e b' →
  ∀ fuel items, (length served < fuel)%nat →
    Query_loop client fuel b tableName indexName keyCondition exprValues
      items c
    = Some (Err ("query failed: " +:+ e), b').
Proof.
  induction 1 as [b c e b' Hcall|b c p c' b1 served e b' Hcall _ IH];
    intros [|fuel] items Hfuel; simpl in Hfuel; try lia;
    simpl; unfold queryCall in Hcall;
    destruct (client_Query client b _) as [[out|e0] b0];
    simpl in Hcall; try discriminate.
  - by injection Hcall as -> ->.
  - injection Hcall as Hp Hc ->. rewrite Hc. apply IH. lia.
Qed.

End PaginationFailures.

(** X17. A page that fails. When the store serves some pages and then
    fails, the listing, scanning and querying operations stop at the failing
    call and return its error behind their own prefix, with none of the
    records of the pages served before; the closures of [loadItems] and of
    [executeQuery] report the error, and the session that receives it keeps
    the records, the cursor and the selection it had. *)
Theorem failing_page_discards_the_pages `{GoLib} `{Toolkit}
    {B : Type} (client : Client B)
    (tableName indexName keyCondition : string) (exprValues : Item)
    (b b1 b2 b3 : B) (names : list (list string))
    (scanned queried : list (list Item)) (e1 e2 e3 : error) (fuel : nat) :
  PagesFail (listTablesCall client) b None names e1 b1 →
  PagesFail (scanCall client tableName (optIndexName indexName)) b None
    scanned e2 b2 →
  PagesFail (queryCall client tableName (optIndexName indexName) keyCondition
               exprValues) b None queried e3 b3 →
  (length names < fuel)%nat →
  (length scanned < fuel)%nat →
  (length queried < fuel)%nat →
  ListTables client fuel b = Some (Err ("failed to list tables: " +:+ e1), b1)
  ∧ Scan client fuel b tableName indexName
    = Some (Err ("scan failed: " +:+ e2), b2)
  ∧ loadItems_run client fuel b tableName indexName
    = Some (itemsLoadedMsg [] (Some ("scan failed: " +:+ e2)) false, b2)
  ∧ Query client fuel b tableName indexName keyCondition exprValues
    = Some (Err ("query failed: " +:+ e3), b3)
  ∧ executeQuery_run client fuel b tableName indexName keyCondition exprValues
    = Some (itemsLoadedMsg [] (Some ("query failed: " +:+ e3)) false, b3)
  ∧ (∀ m os,
       Update m os (itemsLoadedMsg [] (Some ("scan failed: " +:+ e2)) false)
       = Some (setError m ("scan failed: " +:+ e2), os, None)
       ∧ kept m (setError m ("scan failed: " +:+ e2))).
Proof.
  intros Hn Hs Hq Hfn Hfs Hfq.
  assert (Scan client fuel b tableName indexName
          = Some (Err ("scan failed: " +:+ e2), b2)) as HS.
  { unfold Scan. by rewrite (Scan_loop_fails _ _ _ _ _ _ _ _ Hs). }
  assert (Query client fuel b tableName indexName keyCondition exprValues
          = Some (Err ("query failed: " +:+ e3), b3)) as HQ.
  { unfold Query. by rewrite (Query_loop_fails _ _ _ _ _ _ _ _ _ _ Hq). }
  split; [|split; [done|split; [|split; [done|split]]]].
  - unfold ListTables. by rewrite (ListTables_loop_fails _ _ _ _ _ _ Hn).
  - unfold loadItems_run. by rewrite HS.
  - unfold executeQuery_run. by rewrite HQ.
  - intros m os. split; [done|]. unfold setError. by destruct (50 <? _)%Z.
Qed.

Section FailureExamples.
Local Existing Instance Ref.lib.
Local Existing Instance Ref.toolkit.

Lemma one_name_page_then_failure :
  PagesFail (listTablesCall failing_client) 0%nat None [["t1"]]
    "connection reset" 2%nat.
Proof.
  apply (PagesFail_later _ _ _ _ "t1" 1%nat); [vm_compute; reflexivity|].
  apply PagesFail_now. vm_compute; reflexivity.
Defined.

Lemma one_page_scanned_then_failure index :
  PagesFail (scanCall failing_client "t1" index) 0%nat None [[record "a"]]
    "connection reset" 2%nat.
Proof.
  apply (PagesFail_later _ _ _ _ (record "a") 1%nat);
    [vm_compute; reflexivity|].
  apply PagesFail_now. vm_compute; reflexivity.
Defined.

Lemma one_page_queried_then_failure index cond vals :
  PagesFail (queryCall failing_client "t1" index cond vals) 0%nat None
    [[record "a"]] "connection reset" 2%nat.
Proof.
  apply (PagesFail_later _ _ _ _ (record "a") 1%nat);
    [vm_compute; reflexivity|].
  apply PagesFail_now. vm_compute; reflexivity.
Defined.

(** One page of one record, then a failure: two calls, and no record. *)
Lemma failing_page_discards_the_pages_witness :
PagesFail (listTablesCall failing_client) 0%nat None [["t1"]]
  "connection reset" 2%nat
∧ PagesFail (scanCall failing_client "t1" (optIndexName EmptyString)) 0%nat
    None [[record "a"]] "connection reset" 2%nat
∧ PagesFail (queryCall failing_client "t1" (optIndexName EmptyString)
               "pk = :pk" (record "a")) 0%nat None [[record "a"]]
    "connection reset" 2%nat
∧ ListTables failing_client 2 0%nat
  = Some (Err "failed to list tables: connection reset", 2%nat)
∧ Scan failing_client 2 0%nat "t1" EmptyString
  = Some (Err "scan failed: connection reset", 2%nat)
∧ loadItems_run failing_client 2 0%nat "t1" EmptyString
  = Some (itemsLoadedMsg [] (Some "scan failed: connection reset") false,
          2%nat).
Proof.
split; [exact one_name_page_then_failure|].
split; [exact (one_page_scanned_then_failure _)|].
split; [exact (one_page_queried_then_failure _ _ _)|].
destruct (failing_page_discards_the_pages failing_client "t1" EmptyString
            "pk = :pk" (record "a") 0%nat 2%nat 2%nat 2%nat [["t1"]]
            [[record "a"]] [[record "a"]] _ _ _ 2
            one_name_page_then_failure (one_page_scanned_then_failure _)
            (one_page_queried_then_failure _ _ _) (le_n 2) (le_n 2) (le_n 2))
  as (H1 & H2 & H3 & _).
split; [exact H1|]. split; [exact H2|exact H3].
Defined.

End FailureExamples.

(** ** The closures of the keyed commands *)

(** X18. What the keyed commands report. A [/get] of a record that does
    not exist empties the record list, resets the cursor and the selection
    and says that no record matches; a [/get] that finds the record shows
    that one record. An [/update] of a record that does not exist changes
    nothing but the status line. A [/delete] is followed by a reload of the
    current table when it succeeds, and by none when it fails. Each closure
    calls the store once, and an error of the store is reported behind the
    prefix of the operation. *)
Theorem keyed_command_reports `{GoLib} `{Toolkit}
    {B : Type} (client : Client B) (b : B) (tableName : string) (key : Item)
    (m : Model) (os : OS) :
  (∀ b', client_GetItem client b tableName key = (Ok None, b') →
     executeGet_run client b tableName key = (itemsLoadedMsg [] None true, b')
     ∧ Update m os (itemsLoadedMsg [] None true)
       = Some (set_status
                 (set_selected (set_cursor (set_items m []) 0) ∅)
                 "No matching item", os, None)
     ∧ executeUpdate_run client b tableName key
       = (itemFetchedForEditMsg None None, b')
     ∧ Update m os (itemFetchedForEditMsg None None)
       = Some (set_status m "Item not found", os, None))
  ∧ (∀ item b', client_GetItem client b tableName key = (Ok (Some item), b') →
       executeGet_run client b tableName key
       = (itemsLoadedMsg [item] None false, b')
       ∧ (∃ m', Update m os (itemsLoadedMsg [item] None false)
                = Some (m', os, None)
                ∧ items m' = [item] ∧ cursor m' = 0%Z ∧ selected m' = ∅)
       ∧ executeUpdate_run client b tableName key
         = (itemFetchedForEditMsg (Some item) None, b'))
  ∧ (∀ e b', client_GetItem client b tableName key = (Err e, b') →
       executeGet_run client b tableName key
       = (itemsLoadedMsg [] (Some ("get item failed: " +:+ e)) false, b')
       ∧ executeUpdate_run client b tableName key
         = (itemFetchedForEditMsg None (Some ("get item failed: " +:+ e)),
            b'))
  ∧ (∀ b', client_DeleteItem client b tableName key = (None, b') →
       executeDelete_run client b tableName key
       = (operationDoneMsg "Item deleted" None, b')
       ∧ (∀ table, tables m ≠ [] →
            at_index (tables m) (currentTable m) = Some table →
            Update m os (operationDoneMsg "Item deleted" None)
            = Some (set_err (set_status m "Item deleted") None, os,
                    Some (loadItemsCmd (Name table) EmptyString))))
  ∧ (∀ e b', client_DeleteItem client b tableName key = (Some e, b') →
       executeDelete_run client b tableName key
       = (operationDoneMsg EmptyString (Some ("delete item failed: " +:+ e)),
          b')
       ∧ Update m os
           (operationDoneMsg EmptyString
              (Some ("delete item failed: " +:+ e)))
         = Some (setError m ("delete item failed: " +:+ e), os, None)).
Proof.
  unfold executeGet_run, executeUpdate_run, executeDelete_run, GetItem,
    DeleteItem.
  split; [|split; [|split; [|split]]].
  - intros b' ->. done.
  - intros item b' ->. split; [done|]. split; [|done].
    simpl. eexists. split; [done|]. by destruct (preserveStatus _).
  - intros e b' ->. done.
  - intros b' ->. split; [done|]. intros table Hne Htable. simpl.
    assert ((0 <? Go.count (tables m))%Z = true) as ->.
    { apply Z.ltb_lt. by apply count_pos. }
    by rewrite Htable.
  - intros e b' ->. done.
Qed.

(** ** The tables at start-up *)

Lemma last_cons_default {A} (x d : A) (l : list A) :
  default d (last (x :: l)) = default x (last l).
Proof. rewrite last_cons. by destruct (last l). Qed.

Lemma keySchema_last (schema : list KeySchemaElement) (pk sk : string) :
  keySchema schema pk sk
  = (default pk (last (keyNames "HASH" schema)),
     default sk (last (keyNames "RANGE" schema))).
Proof.
  unfold keySchema, keyNames. revert pk sk.
  induction schema as [|key schema IH]; intros pk sk; [done|].
  cbn [fold_left]. rewrite !filter_cons.
  destruct (decide (schema_KeyType key = "HASH")) as [Hh|Hh].
  - rewrite decide_False by (rewrite Hh; discriminate).
    cbn [fst snd]. rewrite IH, fmap_cons. by rewrite last_cons_default.
  - destruct (decide (schema_KeyType key = "RANGE")) as [Hr|Hr].
    + cbn [fst snd]. rewrite IH, fmap_cons. by rewrite last_cons_default.
    + apply IH.
Qed.

Section DescribeFacts.
Context {B : Type} (client : Client B).
Context (describe : B → string → Result TableDescription * B).

Lemma DescribeTable_Name b tableName info b' :
  DescribeTable describe b tableName = (Ok info, b') → Name info = tableName.
Proof.
  unfold DescribeTable. destruct (describe b tableName) as [[out|e] b0];
    [|discriminate].
  by intros [= <- <-].
Qed.

Lemma DescribeTable_Err b tableName e b' :
  DescribeTable describe b tableName = (Err e, b') →
  ∃ e', e = "failed to describe table " +:+ tableName +:+ ": " +:+ e'.
Proof.
  unfold DescribeTable. destruct (describe b tableName) as [[out|e0] b0];
    [discriminate|].
  intros [= <- <-]. by eexists.
Qed.

Lemma describeTables_Ok b tableNames acc tables b' :
  describeTables describe b tableNames acc = (Ok tables, b') →
  Name <$> tables = (Name <$> acc) ++ tableNames.
Proof.
  revert b acc. induction tableNames as [|name rest IH]; intros b acc; simpl.
  - intros [= <- <-]. by rewrite app_nil_r.
  - destruct (DescribeTable describe b name) as [[info|e] b0] eqn:Hd;
      [|discriminate].
    intros Hrest. apply IH in Hrest. rewrite Hrest, fmap_app. simpl.
    rewrite (DescribeTable_Name _ _ _ _ Hd). by rewrite <- app_assoc.
Qed.

Lemma describeTables_Err b tableNames acc e b' :
  describeTables describe b tableNames acc = (Err e, b') →
  ∃ name e', name ∈ tableNames
             ∧ e = "failed to describe table " +:+ name +:+ ": " +:+ e'.
Proof.
  revert b acc. induction tableNames as [|name rest IH]; intros b acc; simpl;
    [discriminate|].
  destruct (DescribeTable describe b name) as [[info|e0] b0] eqn:Hd.
  - intros Hrest. apply IH in Hrest as (n & e' & Hn & ->).
    exists n, e'. split; [by right|done].
  - intros [= <- <-]. apply DescribeTable_Err in Hd as [e' ->].
    exists name, e'. split; [left|done].
Qed.

End DescribeFacts.

(** X19. What [DescribeTable] reads from the description of a table. An
    error of the store is returned behind the name of the table. Otherwise
    the result has the name asked for; its partition key is the attribute of
    the last [HASH] element of the key schema and its sort key the attribute
    of the last [RANGE] element, each empty when the schema has no such
    element; and it lists the global and the local secondary indexes in the
    order of the description, each with the keys read from its own schema in
    the same way. *)
Theorem DescribeTable_reads_the_schema {B : Type}
    (describe : B → string → Result TableDescription * B)
    (b : B) (tableName : string) :
  match describe b tableName with
  | (Err e, b') =>
      DescribeTable describe b tableName
      = (Err ("failed to describe table " +:+ tableName +:+ ": " +:+ e), b')
  | (Ok out, b') =>
      ∃ info,
        DescribeTable describe b tableName = (Ok info, b')
        ∧ Name info = tableName
        ∧ PartitionKey info
          = default EmptyString (last (keyNames "HASH" (KeySchema out)))
        ∧ SortKey info
          = default EmptyString (last (keyNames "RANGE" (KeySchema out)))
        ∧ GlobalIndexes info = indexInfo <$> GlobalSecondaryIndexes out
        ∧ LocalIndexes info = indexInfo <$> LocalSecondaryIndexes out
        ∧ (∀ d, idx_Name (indexInfo d) = IndexName d
                ∧ idx_PartitionKey (indexInfo d)
                  = default EmptyString
                      (last (keyNames "HASH" (index_KeySchema d)))
                ∧ idx_SortKey (indexInfo d)
                  = default EmptyString
                      (last (keyNames "RANGE" (index_KeySchema d))))
  end.
Proof.
  unfold DescribeTable. destruct (describe b tableName) as [[out|e] b'];
    [|done].
  eexists. split; [done|]. cbn [Name PartitionKey SortKey GlobalIndexes
                                LocalIndexes].
  rewrite keySchema_last. cbn [fst snd].
  split; [done|]. split; [done|]. split; [done|].
  split; [done|]. split; [done|]. intros d. unfold indexInfo.
  by rewrite keySchema_last.
Qed.

(** X20. [loadTables] describes the tables in the order of the listing.
    When the listing fails, its error is the message. When every table is
    described, the message brings one description for each name of the
    listing, in the same order and under the same name. When a description
    fails, the message brings that error, which names the table, and no
    table at all. *)
Theorem loadTables_describes_each_table {B : Type} (client : Client B)
    (describe : B → string → Result TableDescription * B)
    (fuel : nat) (b b1 : B) (listed : Result (list string)) :
  ListTables client fuel b = Some (listed, b1) →
  match listed with
  | Err e =>
      loadTables client describe fuel b
      = Some (tablesLoadedMsg [] (Some e), b1)
  | Ok names =>
      ∃ b2,
        (∃ tables,
           describeTables describe b1 names [] = (Ok tables, b2)
           ∧ loadTables client describe fuel b
             = Some (tablesLoadedMsg tables None, b2)
           ∧ Name <$> tables = names)
        ∨ (∃ name e,
             name ∈ names
             ∧ loadTables client describe fuel b
               = Some (tablesLoadedMsg []
                         (Some ("failed to describe table " +:+ name +:+
                                ": " +:+ e)), b2))
  end.
Proof.
  intros Hlist. unfold loadTables. rewrite Hlist. simpl.
  destruct listed as [names|e]; [|done].
  destruct (describeTables describe b1 names []) as [[tables|e] b2] eqn:Hd.
  - exists b2. left. exists tables. split; [done|]. split; [done|].
    by apply describeTables_Ok in Hd.
  - exists b2. right.
    apply describeTables_Err in Hd as (name & e' & Hin & ->).
    by exists name, e'.
Qed.

(** Two tables are listed and described: the message brings their
    descriptions in that order. *)
Lemma loadTables_describes_each_table_witness :
ListTables (Ref.paged_client [] [["orders"; "users"]]) 1 0%nat
= Some (Ok ["orders"; "users"], 1%nat)
∧ ∃ b2,
    (∃ tables,
       describeTables describe_orders 1%nat ["orders"; "users"] []
       = (Ok tables, b2)
       ∧ loadTables (Ref.paged_client [] [["orders"; "users"]])
           describe_orders 1 0%nat
         = Some (tablesLoadedMsg tables None, b2)
       ∧ Name <$> tables = ["orders"; "users"])
    ∨ (∃ name e,
         name ∈ ["orders"; "users"]
         ∧ loadTables (Ref.paged_client [] [["orders"; "users"]])
             describe_orders 1 0%nat
           = Some (tablesLoadedMsg []
                     (Some ("failed to describe table " +:+ name +:+
                            ": " +:+ e)), b2)).
Proof.
assert (ListTables (Ref.paged_client [] [["orders"; "users"]]) 1 0%nat
        = Some (Ok ["orders"; "users"], 1%nat)) as H1
  by (vm_compute; reflexivity).
split; [exact H1|].
exact (loadTables_describes_each_table
         (Ref.paged_client [] [["orders"; "users"]]) describe_orders
         1 0%nat 1%nat (Ok ["orders"; "users"]) H1).
Defined.

Lemma findTable_Some (ts : list TableInfo) (name : string) (i j : Z) :
  findTable ts name i = Some j →
  ∃ t, ts !! Z.to_nat (j - i) = Some t ∧ Name t = name
       ∧ ∀ k t', (k < Z.to_nat (j - i))%nat → ts !! k = Some t' →
                 Name t' ≠ name.
Proof.
  revert i. induction ts as [|t ts IH]; intros i; simpl; [done|].
  case_decide as Hn.
  - intros [= <-]. exists t. rewrite Z.sub_diag. split; [done|].
    split; [done|]. intros k t' Hk. simpl in Hk. lia.
  - intros Hj. pose proof (findTable_range _ _ _ _ Hj) as Hr.
    destruct (IH _ Hj) as (t0 & Ht0 & Hname & Hfirst).
    exists t0. replace (Z.to_nat (j - i)) with (S (Z.to_nat (j - (i + 1))))
      by lia.
    split; [done|]. split; [done|].
    intros [|k] t' Hk; simpl.
    + by intros [= <-].
    + apply Hfirst. lia.
Qed.

Lemma findTable_None (ts : list TableInfo) (name : string) (i : Z) :
  findTable ts name i = None ↔ name ∉ Name <$> ts.
Proof.
  revert i. induction ts as [|t ts IH]; intros i.
  - split; [|done]. intros _. apply not_elem_of_nil.
  - cbn [findTable]. rewrite fmap_cons, not_elem_of_cons.
    case_decide as Hn.
    + split; [done|]. intros [Hne _]. by destruct Hne.
    + rewrite IH. split; [by auto|]. by intros [_ Hnot].
Qed.

(** X21. The table that is current after the tables have arrived. With
    at least one table, the session takes the tables and asks for the
    records of the current table, which is: the first table, when no table
    was requested; the first table that has the requested name, when there
    is one; and the first table otherwise, with a status line that says so
    and that the arrival of the records then leaves in place, once. *)
Theorem requested_table_is_selected `{GoLib} `{Toolkit}
    (m : Model) (os : OS) (ts : list TableInfo) :
  ts ≠ [] →
  ∃ m' table,
    Update m os (tablesLoadedMsg ts None)
    = Some (m', os, Some (loadItemsCmd (Name table) EmptyString))
    ∧ tables m' = ts
    ∧ at_index ts (currentTable m') = Some table
    ∧ kept m m'
    ∧ (requestedTable m = EmptyString →
       currentTable m' = 0%Z
       ∧ status m' = loadedTables (Go.count ts))
    ∧ (requestedTable m ≠ EmptyString →
       requestedTable m ∈ Name <$> ts →
       Name table = requestedTable m
       ∧ (∀ k t, (k < Z.to_nat (currentTable m'))%nat → ts !! k = Some t →
                 Name t ≠ requestedTable m)
       ∧ status m' = loadedTables (Go.count ts)
       ∧ preserveStatus m' = preserveStatus m)
    ∧ (requestedTable m ≠ EmptyString →
       requestedTable m ∉ Name <$> ts →
       currentTable m' = 0%Z
       ∧ status m'
         = "Table '" +:+ requestedTable m +:+ "' not found, using "
           +:+ Name table
       ∧ preserveStatus m' = true
       ∧ ∀ its,
           ∃ m'', Update m' os (itemsLoadedMsg its None false)
                  = Some (m'', os, None)
                  ∧ items m'' = its
                  ∧ status m'' = status m'
                  ∧ preserveStatus m'' = false).
Proof.
  intros Hne. cbn [Update].
  assert ((0 <? Go.count ts)%Z = true) as Hpos
    by (apply Z.ltb_lt; by apply count_pos).
  cbn [tables set_tables]. rewrite Hpos.
  destruct (at_index_is_Some ts 0) as [first Hfirst].
  { apply Z.ltb_lt in Hpos. lia. }
  cbn [requestedTable set_currentTable set_tables tables].
  destruct (decide (requestedTable m ≠ EmptyString)) as [Hreq|Hreq].
  - destruct (findTable ts (requestedTable m) 0) as [i|] eqn:Hfind.
    + pose proof (findTable_range _ _ _ _ Hfind) as Hr.
      destruct (findTable_Some _ _ _ _ Hfind) as (t & Ht & Hname & Hbefore).
      rewrite Z.sub_0_r in Ht, Hbefore.
      assert (at_index ts i = Some t) as Hat.
      { unfold at_index. by assert ((0 <=? i)%Z = true) as ->
          by (apply Z.leb_le; lia). }
      cbn [mbind option_bind tables set_status set_currentTable set_tables
           currentTable]. rewrite Hat. cbn [mbind option_bind].
      eexists _, t. split; [done|]. split; [done|]. split; [exact Hat|].
      split; [done|]. split; [done|]. split; [|].
      * intros _ _. by split.
      * intros _ Hnot. apply (findTable_None ts _ 0) in Hnot.
        rewrite Hnot in Hfind. discriminate.
    + cbn [mbind option_bind]. rewrite Hfirst.
      cbn [mbind option_bind tables set_status set_currentTable set_tables
           set_preserveStatus currentTable]. rewrite Hfirst.
      cbn [mbind option_bind].
      eexists _, first. split; [done|]. split; [done|].
      split; [exact Hfirst|]. split; [done|]. split; [done|]. split.
      * intros _ Hin. apply (findTable_None ts _ 0) in Hfind. done.
      * intros _ _. split; [done|]. split; [done|]. split; [done|].
        intros its. eexists. by split.
  - cbn [mbind option_bind tables set_status set_currentTable set_tables
         currentTable]. rewrite Hfirst. cbn [mbind option_bind].
    eexists _, first. split; [done|]. split; [done|].
    split; [exact Hfirst|]. split; [done|].
    split; [done|]. split; intros Hr; by destruct Hreq.
Qed.

Section StartExamples.
Local Existing Instance Ref.lib.
Local Existing Instance Ref.toolkit.

(** The requested table is the second of two. *)
Lemma requested_table_is_selected_witness :
[orders_table; sample_table] ≠ []
∧ Update (NewModel "users") sample_os
    (tablesLoadedMsg [orders_table; sample_table] None)
  = Some (set_status
            (set_currentTable
               (set_tables (NewModel "users") [orders_table; sample_table]) 1)
            "Loaded 2 tables",
          sample_os, Some (loadItemsCmd "users" EmptyString))
∧ ∃ m' table,
    Update (NewModel "users") sample_os
      (tablesLoadedMsg [orders_table; sample_table] None)
    = Some (m', sample_os, Some (loadItemsCmd (Name table) EmptyString))
    ∧ tables m' = [orders_table; sample_table]
    ∧ at_index [orders_table; sample_table] (currentTable m') = Some table.
Proof.
assert ([orders_table; sample_table] ≠ []) as H1 by done.
split; [exact H1|]. split; [vm_compute; reflexivity|].
destruct (requested_table_is_selected (NewModel "users") sample_os
            [orders_table; sample_table] H1)
  as (m' & table & H2 & H3 & H4 & _).
exists m', table. split; [exact H2|]. split; [exact H3|exact H4].
Defined.

End StartExamples.

(** ** The text helpers of the view *)

Lemma append_empty_r (s : string) : s +:+ EmptyString = s.
Proof.
  induction s as [|c s IH]; [done|].
  change (String c (s +:+ EmptyString) = String c s). by rewrite IH.
Qed.

(** X22. [truncate] panics exactly when the bound is negative. Otherwise
    its result has the bytes of the text up to the bound: the text itself
    when it fits, its first [maxLen] bytes when the bound is at most 3, and
    else its first [maxLen - 3] bytes followed by three dots; so the result
    never has more than [maxLen] bytes. *)
Theorem truncate_fits_the_bound (s : string) (maxLen : Z) :
  (truncate s maxLen = None ↔ (maxLen < 0)%Z)
  ∧ (∀ r, truncate s maxLen = Some r →
       Go.len r = Z.min (Go.len s) maxLen
       ∧ (Go.len s ≤ maxLen → r = s)%Z
       ∧ ((maxLen < Go.len s)%Z →
          ∃ head rest,
            s = head +:+ rest
            ∧ r = head +:+ (if (maxLen <=? 3)%Z then EmptyString else "..."))).
Proof.
  assert (∀ n : Z, (0 ≤ n ≤ Go.len s)%Z → Go.len (Go.slice_to s n) = n)
    as Hlen.
  { intros n Hn. unfold Go.len, Go.slice_to, Go.slice in *.
    rewrite substring_prefix_length. lia. }
  assert (∀ n : Z, ∃ rest, s = Go.slice_to s n +:+ rest) as Hsplit.
  { intros n. unfold Go.slice_to, Go.slice. apply substring_prefix_split. }
  assert (0 ≤ Go.len s)%Z as Hpos by (unfold Go.len; lia).
  unfold truncate.
  destruct (Go.len s <=? maxLen)%Z eqn:Hfit.
  - apply Z.leb_le in Hfit. split; [split; [done|lia]|].
    intros r [= <-]. split; [lia|]. split; [done|lia].
  - apply Z.leb_gt in Hfit.
    destruct (maxLen <=? 3)%Z eqn:Hsmall.
    + apply Z.leb_le in Hsmall.
      destruct (0 <=? maxLen)%Z eqn:Hneg.
      * apply Z.leb_le in Hneg. split; [split; [done|lia]|].
        intros r [= <-]. rewrite Hlen by lia. split; [lia|].
        split; [lia|]. intros _. destruct (Hsplit maxLen) as [rest Hrest].
        exists (Go.slice_to s maxLen), rest. split; [done|].
        by rewrite append_empty_r.
      * apply Z.leb_gt in Hneg. split; [split; [lia|done]|]. done.
    + apply Z.leb_gt in Hsmall. split; [split; [done|lia]|].
      intros r [= <-]. split; [|split; [lia|]].
      * pose proof (Hlen (maxLen - 3)%Z ltac:(lia)) as Hhead.
        unfold Go.len in *. rewrite append_length.
        change (String.length "...") with 3%nat. lia.
      * intros _. destruct (Hsplit (maxLen - 3)%Z) as [rest Hrest].
        by exists (Go.slice_to s (maxLen - 3)), rest.
Qed.

Lemma append_cons (c : ascii) (s t : string) :
  String c s +:+ t = String c (s +:+ t).
Proof. reflexivity. Qed.

Lemma append_assoc (s t u : string) : (s +:+ t) +:+ u = s +:+ (t +:+ u).
Proof.
  induction s as [|c s IH]; [done|]. rewrite !append_cons. by rewrite IH.
Qed.

Lemma substring_whole (s : string) : substring 0 (String.length s) s = s.
Proof. induction s as [|c s IH]; [done|]. simpl. by rewrite IH. Qed.

Lemma substring_split (n : nat) (s : string) :
  s = substring 0 n s +:+ substring n (String.length s - n) s.
Proof.
  revert s. induction n as [|n IH]; intros s.
  - rewrite Nat.sub_0_r, substring_whole. by destruct s.
  - destruct s as [|c s]; [done|].
    change (String c s
            = String c (substring 0 n s
                        +:+ substring n (String.length s - n) s)).
    by rewrite <- IH.
Qed.

Lemma substring_length_le (n m : nat) (s : string) :
  (String.length (substring n m s) ≤ String.length s - n)%nat.
Proof.
  revert n m. induction s as [|c s IH]; intros [|n] [|m]; simpl; try lia.
  - specialize (IH 0%nat m). lia.
  - apply IH.
  - apply IH.
Qed.

Lemma has_byte_substring (c : ascii) (n m : nat) (s : string) :
  has_byte c s = false → has_byte c (substring n m s) = false.
Proof.
  revert n m. induction s as [|a s IH]; intros [|n] [|m]; simpl; try done.
  - intros [Ha Hs]%orb_false_iff. by rewrite Ha, IH.
  - intros [_ Hs]%orb_false_iff. by apply IH.
  - intros [_ Hs]%orb_false_iff. by apply IH.
Qed.

Lemma has_byte_app (c : ascii) (s t : string) :
  has_byte c (s +:+ t) = has_byte c s || has_byte c t.
Proof.
  induction s as [|a s IH]; [done|]. rewrite append_cons. simpl.
  by rewrite IH, orb_assoc.
Qed.

Lemma TrimLeft_space_length (s : string) :
  (String.length (TrimLeft_space s) ≤ String.length s)%nat.
Proof.
  induction s as [|c s IH]; simpl; [done|].
  destruct (Ascii.eqb c " "); simpl; lia.
Qed.

Lemma has_byte_TrimLeft_space (c : ascii) (s : string) :
  has_byte c s = false → has_byte c (TrimLeft_space s) = false.
Proof.
  induction s as [|a s IH]; simpl; [done|].
  intros [Ha Hs]%orb_false_iff.
  destruct (Ascii.eqb a " "); [by apply IH|]. simpl. by rewrite Ha, Hs.
Qed.

Lemma solid_TrimLeft_space (s : string) : solid (TrimLeft_space s) = solid s.
Proof.
  induction s as [|a s IH]; simpl; [done|].
  destruct (Ascii.eqb a " ") eqn:Ha; [done|]. simpl. by rewrite Ha.
Qed.

Lemma solid_app (s t : string) : solid (s +:+ t) = solid s +:+ solid t.
Proof.
  induction s as [|a s IH]; [done|]. rewrite append_cons. simpl.
  destruct (_ || _); [done|]. by rewrite append_cons, IH.
Qed.

Lemma lastSpace_range (line : string) (i j : nat) :
  lastSpace line i = Some j → (1 ≤ j ≤ i)%nat.
Proof.
  induction i as [|i IH]; simpl; [done|].
  destruct (String.get (S i) line) as [c|].
  - destruct (Ascii.eqb c " ").
    + intros [= <-]. lia.
    + intros Hj. apply IH in Hj. lia.
  - intros Hj. apply IH in Hj. lia.
Qed.

Lemma breakAt_range (line : string) (maxWidth : nat) :
  (1 ≤ maxWidth)%nat → (1 ≤ breakAt line maxWidth ≤ maxWidth)%nat.
Proof.
  intros Hw. unfold breakAt.
  destruct (lastSpace line (maxWidth - 1)) as [j|] eqn:Hj; simpl; [|lia].
  apply lastSpace_range in Hj. lia.
Qed.

Lemma written_cons (piece : string) (pieces : list string) :
  written (piece :: pieces) = piece +:+ Go.newline +:+ written pieces.
Proof. reflexivity. Qed.

Lemma solid_piece (piece rest : string) :
  solid (piece +:+ Go.newline +:+ rest) = solid piece +:+ solid rest.
Proof. by rewrite !solid_app. Qed.

Lemma written_app (a b : list string) :
  written (a ++ b) = written a +:+ written b.
Proof.
  induction a as [|p a IH]; [done|].
  change ((p :: a) ++ b) with (p :: (a ++ b)).
  rewrite !written_cons, IH. by rewrite !append_assoc.
Qed.

Lemma wrapLine_spec (fuel : nat) (line : string) (maxWidth : nat) :
  (1 ≤ maxWidth)%nat → (String.length line ≤ fuel)%nat →
  has_byte (ascii_of_nat 10) line = false →
  ∃ pieces,
    wrapLine fuel line maxWidth = Some pieces
    ∧ pieces ≠ []
    ∧ Forall (fits maxWidth) pieces
    ∧ solid (written pieces) = solid line
    ∧ ((String.length line ≤ maxWidth)%nat → pieces = [line]).
Proof.
  intros Hw. revert line.
  assert (∀ line, (String.length line ≤ maxWidth)%nat →
            has_byte (ascii_of_nat 10) line = false →
            ∃ pieces, Some [line] = Some pieces ∧ pieces ≠ []
              ∧ Forall (fits maxWidth) pieces
              ∧ solid (written pieces) = solid line
              ∧ ((String.length line ≤ maxWidth)%nat → pieces = [line]))
    as Hshort.
  { intros line Hlen Hnl. exists [line]. split; [done|]. split; [done|].
    split; [by repeat constructor|]. split; [|done].
    rewrite written_cons, solid_piece. apply append_empty_r. }
  induction fuel as [|fuel IH]; intros line Hfuel Hnl; cbn [wrapLine].
  - assert ((maxWidth <? String.length line)%nat = false) as ->
      by (apply Nat.ltb_ge; lia).
    apply Hshort; [lia|done].
  - destruct (maxWidth <? String.length line)%nat eqn:Hlong.
    2:{ apply Nat.ltb_ge in Hlong. by apply Hshort. }
    apply Nat.ltb_lt in Hlong.
    pose proof (breakAt_range line maxWidth Hw) as Hb.
    set (b := breakAt line maxWidth) in *.
    set (rest := TrimLeft_space
                   (substring b (String.length line - b) line)).
    destruct (IH rest) as (pieces & Hrun & _ & Hfit & Hsolid & _).
    { unfold rest.
      pose proof (TrimLeft_space_length
                    (substring b (String.length line - b) line)).
      pose proof (substring_length_le b (String.length line - b) line).
      lia. }
    { unfold rest. by apply has_byte_TrimLeft_space, has_byte_substring. }
    rewrite Hrun. cbn [mbind option_bind].
    exists (substring 0 b line :: pieces).
    split; [done|]. split; [done|]. split; [|split; [|lia]].
    + constructor; [|done]. split.
      * rewrite substring_prefix_length. lia.
      * by apply has_byte_substring.
    + rewrite written_cons, solid_piece, Hsolid. unfold rest.
      rewrite solid_TrimLeft_space, <- solid_app.
      by rewrite <- (substring_split b line).
Qed.

Lemma wrapLines_spec (lines : list string) (maxWidth : nat) :
  (1 ≤ maxWidth)%nat →
  Forall (λ line, has_byte (ascii_of_nat 10) line = false) lines →
  ∃ pieces,
    wrapLines lines maxWidth = Some pieces
    ∧ (lines ≠ [] → pieces ≠ [])
    ∧ Forall (fits maxWidth) pieces
    ∧ solid (written pieces) = solid (written lines)
    ∧ (Forall (λ line, (String.length line ≤ maxWidth)%nat) lines →
       pieces = lines).
Proof.
  intros Hw. induction 1 as [|line lines Hnl _ IH]; cbn [wrapLines].
  - by exists [].
  - destruct (wrapLine_spec (String.length line) line maxWidth Hw
                (le_n _) Hnl) as (pieces & Hrun & Hne & Hfit & Hsolid & Hid).
    destruct IH as (more & Hmore & _ & Hfits & Hsolids & Hids).
    rewrite Hrun, Hmore. cbn [mbind option_bind].
    exists (pieces ++ more). split; [done|]. split; [|split; [|split]].
    + intros _ Happ. by apply app_eq_nil in Happ as [? _].
    + by apply Forall_app.
    + rewrite written_app, solid_app, Hsolid, Hsolids.
      by rewrite written_cons, solid_piece.
    + intros Hall. apply Forall_cons in Hall as [H1 H2].
      by rewrite (Hid H1), (Hids H2).
Qed.

(** Splitting into lines and joining the lines. *)
Lemma Split_nonempty (s : string) (sep : ascii) : Split s sep ≠ [].
Proof.
  destruct s as [|c s]; simpl; [done|].
  destruct (Ascii.eqb c sep); [done|]. by destruct (Split s sep).
Qed.

Lemma Split_free (s : string) (sep : ascii) :
  Forall (λ line, has_byte sep line = false) (Split s sep).
Proof.
  induction s as [|c s IH]; simpl; [by repeat constructor|].
  destruct (Ascii.eqb c sep) eqn:Hc; [by constructor|].
  destruct (Split s sep) as [|a rest].
  { constructor; [simpl; by rewrite Hc|constructor]. }
  apply Forall_cons in IH as [Ha Hrest]. constructor; [|done].
  simpl. by rewrite Hc, Ha.
Qed.

Lemma Join_cons2 (a b : string) (l : list string) (sep : string) :
  Go.Join (a :: b :: l) sep = a +:+ sep +:+ Go.Join (b :: l) sep.
Proof. reflexivity. Qed.

Lemma Join_Split (s : string) (sep : ascii) :
  Go.Join (Split s sep) (String sep EmptyString) = s.
Proof.
  induction s as [|c s IH]; [done|]. cbn [Split].
  pose proof (Split_nonempty s sep) as Hne.
  destruct (Split s sep) as [|a rest]; [done|].
  destruct (Ascii.eqb c sep) eqn:Hc.
  - apply Ascii.eqb_eq in Hc as ->. rewrite Join_cons2, IH. done.
  - destruct rest as [|b rest].
    + simpl in *. by rewrite IH.
    + rewrite Join_cons2 in *. rewrite append_cons. by rewrite IH.
Qed.

Lemma Split_one (s : string) (sep : ascii) :
  has_byte sep s = false → Split s sep = [s].
Proof.
  induction s as [|c s IH]; simpl; [done|].
  intros [Hc Hs]%orb_false_iff. by rewrite Hc, IH.
Qed.

Lemma Split_app (a x : string) (sep : ascii) :
  has_byte sep a = false →
  Split (a +:+ String sep x) sep = a :: Split x sep.
Proof.
  induction a as [|c a IH]; intros Ha.
  - simpl. by rewrite Ascii.eqb_refl.
  - simpl in Ha. apply orb_false_iff in Ha as [Hc Ha].
    rewrite append_cons. cbn [Split]. by rewrite Hc, IH.
Qed.

Lemma Split_Join (lines : list string) (sep : ascii) :
  lines ≠ [] → Forall (λ line, has_byte sep line = false) lines →
  Split (Go.Join lines (String sep EmptyString)) sep = lines.
Proof.
  intros Hne Hall. induction Hall as [|a lines Ha Hall IH]; [done|].
  destruct lines as [|b lines].
  - simpl. by apply Split_one.
  - rewrite Join_cons2. rewrite append_cons.
    change (EmptyString +:+ Go.Join (b :: lines) (String sep EmptyString))
      with (Go.Join (b :: lines) (String sep EmptyString)).
    rewrite Split_app by done. by rewrite IH.
Qed.

Lemma written_Join (pieces : list string) :
  pieces ≠ [] →
  written pieces = Go.Join pieces Go.newline +:+ Go.newline.
Proof.
  induction pieces as [|a pieces IH]; [done|]. intros _.
  destruct pieces as [|b pieces].
  - rewrite written_cons. by rewrite append_empty_r.
  - rewrite written_cons, IH by done. rewrite Join_cons2.
    by rewrite !append_assoc.
Qed.

Lemma rev_app_app (s t acc : string) :
  String.rev_app (s +:+ t) acc = String.rev_app t (String.rev_app s acc).
Proof.
  revert acc. induction s as [|c s IH]; intros acc; [done|].
  rewrite append_cons. simpl. apply IH.
Qed.

Lemma TrimSuffix_newline (x : string) :
  Go.TrimSuffix (x +:+ Go.newline) Go.newline = x.
Proof.
  unfold Go.TrimSuffix, Go.HasSuffix, String.rev.
  rewrite rev_app_app. simpl String.rev_app at 1 2.
  change (String.rev_app Go.newline (String.rev_app x EmptyString))
    with (String (ascii_of_nat 10) (String.rev_app x EmptyString)).
  change (String.rev_app Go.newline EmptyString) with Go.newline.
  unfold Go.newline at 1. rewrite prefix_one, Ascii.eqb_refl.
  unfold Go.slice_to, Go.slice, Go.len. rewrite append_length.
  change (String.length Go.newline) with 1%nat.
  replace (Z.to_nat (Z.of_nat (String.length x + 1) - Z.of_nat 1 - 0))
    with (String.length x) by lia.
  change (Z.to_nat 0) with 0%nat.
  clear. induction x as [|c x IH]; [done|].
  rewrite append_cons. simpl. by rewrite IH.
Qed.

Lemma wrapText_spec (s : string) (maxWidth : Z) :
  (0 < maxWidth)%Z →
  ∃ pieces,
    wrapText s maxWidth = Some (Go.Join pieces Go.newline)
    ∧ Split (Go.Join pieces Go.newline) (ascii_of_nat 10) = pieces
    ∧ Forall (fits (Z.to_nat maxWidth)) pieces
    ∧ solid (Go.Join pieces Go.newline) = solid s
    ∧ (Forall (λ line, (Go.len line ≤ maxWidth)%Z)
         (Split s (ascii_of_nat 10)) →
       Go.Join pieces Go.newline = s).
Proof.
  intros Hw. unfold wrapText.
  assert ((maxWidth <=? 0)%Z = false) as -> by (apply Z.leb_gt; lia).
  destruct (wrapLines_spec (Split s (ascii_of_nat 10)) (Z.to_nat maxWidth))
    as (pieces & Hrun & Hne & Hfit & Hsolid & Hid);
    [lia|apply Split_free|].
  specialize (Hne (Split_nonempty _ _)).
  rewrite Hrun. cbn [mbind option_bind].
  rewrite (written_Join pieces Hne), TrimSuffix_newline.
  exists pieces. split; [done|]. split; [|split; [done|split]].
  - apply Split_Join; [done|]. eapply Forall_impl; [exact Hfit|].
    by intros p [_ Hp].
  - assert (∀ l, l ≠ [] →
              solid (Go.Join l Go.newline) = solid (written l)) as Hj.
    { intros l Hl. rewrite (written_Join l Hl), solid_app.
      change (solid Go.newline) with EmptyString.
      by rewrite append_empty_r. }
    rewrite Hj by done. rewrite Hsolid.
    rewrite <- Hj by apply Split_nonempty.
    unfold Go.newline. by rewrite Join_Split.
  - intros Hall. rewrite Hid.
    + unfold Go.newline. apply Join_Split.
    + eapply Forall_impl; [exact Hall|]. intros line Hl. simpl in Hl.
      unfold Go.len in Hl. lia.
Qed.

(** X23. [wrapText] ends, and every line of its result fits: with a
    positive width, the loop over each line of the text stops after at most
    as many rounds as the line has bytes, and no line of the wrapped text
    has more than [maxWidth] bytes, also when a line holds no space to break
    at. With a width of zero or less the text is returned as it is. *)
Theorem wrapText_lines_fit (s : string) (maxWidth : Z) :
  ((maxWidth ≤ 0)%Z → wrapText s maxWidth = Some s)
  ∧ ((0 < maxWidth)%Z →
     ∃ r, wrapText s maxWidth = Some r
          ∧ Forall (λ line, (Go.len line ≤ maxWidth)%Z)
              (Split r (ascii_of_nat 10))).
Proof.
  split.
  - intros Hw. unfold wrapText.
    by assert ((maxWidth <=? 0)%Z = true) as -> by (apply Z.leb_le; lia).
  - intros Hw.
    destruct (wrapText_spec s maxWidth Hw)
      as (pieces & Hrun & Hsplit & Hfit & _).
    eexists. split; [exact Hrun|]. rewrite Hsplit.
    eapply Forall_impl; [exact Hfit|]. intros p [Hp _]. simpl.
    unfold Go.len. lia.
Qed.

(** X24. [wrapText] changes white space only: the bytes of the wrapped
    text that are neither a space nor a newline are those of the text, in
    the same order; and a text whose lines all fit the width is returned as
    it is. *)
Theorem wrapText_keeps_the_text (s : string) (maxWidth : Z) (r : string) :
  wrapText s maxWidth = Some r →
  solid r = solid s
  ∧ (Forall (λ line, (Go.len line ≤ maxWidth)%Z) (Split s (ascii_of_nat 10)) →
     r = s).
Proof.
  intros Hrun. destruct (decide (0 < maxWidth)%Z) as [Hw|Hw].
  - destruct (wrapText_spec s maxWidth Hw)
      as (pieces & Hrun' & _ & _ & Hsolid & Hid).
    rewrite Hrun' in Hrun. injection Hrun as <-. by split.
  - unfold wrapText in Hrun.
    assert ((maxWidth <=? 0)%Z = true) as Hle by (apply Z.leb_le; lia).
    rewrite Hle in Hrun. injection Hrun as <-. by split.
Qed.

(** A long line with one space, wrapped at five bytes. *)
Lemma wrapText_keeps_the_text_witness :
wrapText "hello wonderful" 5
= Some ("hello" +:+ Go.newline +:+ "wonde" +:+ Go.newline +:+ "rful")
∧ solid ("hello" +:+ Go.newline +:+ "wonde" +:+ Go.newline +:+ "rful")
  = solid "hello wonderful".
Proof.
assert (wrapText "hello wonderful" 5
        = Some ("hello" +:+ Go.newline +:+ "wonde" +:+ Go.newline +:+ "rful"))
  as H1 by (vm_compute; reflexivity).
split; [exact H1|].
exact (proj1 (wrapText_keeps_the_text "hello wonderful" 5 _ H1)).
Defined.

(** ** A Number hint is not checked *)

(** X25. The [N] hint takes any string as a Number: the conversion never
    fails and keeps the text as it is. So decoding accepts Numbers that
    encoding rejects: a record that holds such a Number whose text is no
    number literal of JSON is encoded as an error text. *)
Theorem number_hint_is_not_validated `{GoLib}
    (rec : gmap string Any → option (Result (gmap string Any)))
    (typeHint text : string) :
  hintCase typeHint = Some HintN →
  convertValueWithTypeHint rec (AString text) typeHint
  = Some (Ok (ANumber text))
  ∧ valueToAttr (ANumber text) = AttributeValueMemberN text
  ∧ (Go.isValidNumber (if decide (text = EmptyString) then "0" else text)
     = false →
     ∀ (item : Item) name,
       item !! name = Some (AttributeValueMemberN text) →
       ∃ e, ItemToJSON item = "error: " +:+ e
            ∧ ItemToPrettyJSON item = "error: " +:+ e).
Proof.
  intros Hcase. unfold convertValueWithTypeHint. rewrite Hcase.
  split; [done|]. split; [done|]. intros Hbad item name Hname.
  pose proof (is_Ok_Marshal_attr (AttributeValueMemberM item)) as Hok.
  change (attrToInterface (AttributeValueMemberM item))
    with (AMap (attributeValueToInterface item)) in Hok.
  assert (valid_numbers (AttributeValueMemberM item) = false) as Hinvalid.
  { destruct (valid_numbers (AttributeValueMemberM item)) eqn:Hv; [|done].
    change (map_all (λ _, valid_numbers) item = true) in Hv.
    rewrite map_all_true in Hv. specialize (Hv _ _ Hname).
    simpl in Hv. by rewrite Hbad in Hv. }
  rewrite Hinvalid in Hok. apply is_Ok_false in Hok as [e He].
  exists e. unfold ItemToJSON, ItemToPrettyJSON, json_Marshal,
    json_MarshalIndent. by rewrite He.
Qed.

Section NumberExamples.
Local Existing Instance Ref.lib.

(** The text [abc] under an [N] hint is decoded as a Number, and the
    record is then encoded as an error text. *)
Lemma number_hint_is_not_validated_witness :
hintCase "n" = Some HintN
∧ JSONToItem 1 (Ref.js "{'age<n>': 'abc'}")
  = Some (Ok {[ "age" := AttributeValueMemberN "abc" ]})
∧ convertValueWithTypeHint (λ _, None) (AString "abc") "n"
  = Some (Ok (ANumber "abc"))
∧ ∃ e, ItemToJSON {[ "age" := AttributeValueMemberN "abc" ]}
       = "error: " +:+ e
       ∧ ItemToPrettyJSON {[ "age" := AttributeValueMemberN "abc" ]}
         = "error: " +:+ e.
Proof.
assert (hintCase "n" = Some HintN) as H1 by (vm_compute; reflexivity).
split; [exact H1|]. split; [vm_compute; reflexivity|].
destruct (number_hint_is_not_validated (λ _, None) "n" "abc" H1)
  as (H2 & _ & H3).
split; [exact H2|].
apply (H3 ltac:(vm_compute; reflexivity)
          {[ "age" := AttributeValueMemberN "abc" ]} "age").
apply lookup_singleton_eq.
Defined.

End NumberExamples.

(** ** The selection *)

(** X26. The space key toggles the record under the cursor. In Normal
    mode with records on screen, one press changes whether the index under
    the cursor is selected and nothing else of the selection, and a second
    press brings the selection back; every entry of the selection stays a
    mark. *)
Theorem space_toggles_the_selection `{GoLib} `{Toolkit}
    (m : Model) (os : OS) :
  mode m = ModeNormal → items m ≠ [] → marks_only m →
  ∃ m1 m2,
    Update m os (KeyPress (special KeySpace)) = Some (m1, os, None)
    ∧ Update m1 os (KeyPress (special KeySpace)) = Some (m2, os, None)
    ∧ marks_only m1
    ∧ (is_Some (selected m1 !! cursor m) ↔ selected m !! cursor m = None)
    ∧ (∀ i, i ≠ cursor m → selected m1 !! i = selected m !! i)
    ∧ selected m2 = selected m
    ∧ cursor m2 = cursor m ∧ items m2 = items m ∧ mode m2 = ModeNormal.
Proof.
  intros Hmode Hitems Hmarks.
  assert ((0 <? Go.count (items m))%Z = true) as Hpos
    by (apply Z.ltb_lt; by apply count_pos).
  assert (∀ m0, mode m0 = ModeNormal → items m0 = items m →
            Update m0 os (KeyPress (special KeySpace))
            = Some (set_keyBuffer
                      (if default false (selected m0 !! cursor m0)
                       then set_selected m0 (delete (cursor m0) (selected m0))
                       else set_selected m0
                              (<[cursor m0 := true]> (selected m0)))
                      EmptyString, os, None)) as Hstep.
  { intros m0 Hm0 Hi0. cbn [Update]. unfold handleKeyPress.
    rewrite Hm0. unfold handleNormalMode.
    change (normalKey (KeyMsg_String (special KeySpace))) with NK_space.
    cbv beta iota. by rewrite Hi0, Hpos. }
  pose proof (Hstep m Hmode eq_refl) as H1.
  destruct (selected m !! cursor m) as [b|] eqn:Hsel.
  - assert (b = true) as -> by (by apply (Hmarks _ _ Hsel)).
    cbn [default] in H1.
    set (m1 := set_keyBuffer
                 (set_selected m (delete (cursor m) (selected m)))
                 EmptyString) in *.
    pose proof (Hstep m1 Hmode eq_refl) as H2.
    change (selected m1) with (delete (cursor m) (selected m)) in H2.
    change (cursor m1) with (cursor m) in H2.
    rewrite lookup_delete_eq in H2. cbn [default] in H2.
    eexists m1, _. split; [exact H1|]. split; [exact H2|].
    cbn [selected cursor items mode set_keyBuffer set_selected].
    change (selected m1) with (delete (cursor m) (selected m)).
    split; [|split; [|split; [|split; [|done]]]].
    + unfold marks_only.
      change (selected m1) with (delete (cursor m) (selected m)).
      intros i b Hi. apply lookup_delete_Some in Hi as [_ Hi].
      by apply (Hmarks _ _ Hi).
    + rewrite lookup_delete_eq. split; [by intros []|done].
    + intros i Hi. by rewrite lookup_delete_ne.
    + rewrite insert_delete_eq. by apply insert_id.
  - cbn [default] in H1.
    set (m1 := set_keyBuffer
                 (set_selected m (<[cursor m := true]> (selected m)))
                 EmptyString) in *.
    pose proof (Hstep m1 Hmode eq_refl) as H2.
    change (selected m1) with (<[cursor m := true]> (selected m)) in H2.
    change (cursor m1) with (cursor m) in H2.
    rewrite lookup_insert_eq in H2. cbn [default] in H2.
    eexists m1, _. split; [exact H1|]. split; [exact H2|].
    cbn [selected cursor items mode set_keyBuffer set_selected].
    change (selected m1) with (<[cursor m := true]> (selected m)).
    split; [|split; [|split; [|split; [|done]]]].
    + unfold marks_only.
      change (selected m1) with (<[cursor m := true]> (selected m)).
      intros i b Hi. apply lookup_insert_Some in Hi as [[_ <-]|[_ Hi]];
        [done|]. by apply (Hmarks _ _ Hi).
    + rewrite lookup_insert_eq. split; [done|by eexists].
    + intros i Hi. by rewrite lookup_insert_ne.
    + rewrite delete_insert_eq. by apply delete_id.
Qed.

Section SelectionExamples.
Local Existing Instance Ref.lib.
Local Existing Instance Ref.toolkit.

(** The third of three records is selected: one press clears the
    selection and a second one selects the record again. *)
Lemma space_toggles_the_selection_witness :
mode selecting = ModeNormal
∧ items selecting ≠ []
∧ marks_only selecting
∧ ∃ m1 m2,
    Update selecting sample_os (KeyPress (special KeySpace))
    = Some (m1, sample_os, None)
    ∧ Update m1 sample_os (KeyPress (special KeySpace))
      = Some (m2, sample_os, None)
    ∧ selected m1 = ∅
    ∧ selected m2 = selected selecting.
Proof.
assert (mode selecting = ModeNormal) as H1 by reflexivity.
assert (items selecting ≠ []) as H2 by done.
assert (marks_only selecting) as H3.
{ unfold marks_only.
  change (selected selecting) with ({[ 2%Z := true ]} : gmap Z bool).
  intros i b Hi. apply lookup_singleton_Some in Hi as [_ <-]. done. }
split; [exact H1|]. split; [exact H2|]. split; [exact H3|].
destruct (space_toggles_the_selection selecting sample_os H1 H2 H3)
  as (m1 & m2 & Hs1 & Hs2 & _ & Hat & Hother & Hback & _).
exists m1, m2. split; [exact Hs1|]. split; [exact Hs2|].
split; [|exact Hback].
apply map_eq. intros i. rewrite lookup_empty.
destruct (decide (i = cursor selecting)) as [->|Hi].
- destruct (selected m1 !! cursor selecting) eqn:Hm1; [|done].
  assert (selected selecting !! cursor selecting = None) as Hnone
    by (apply Hat; by eexists).
  vm_compute in Hnone. discriminate.
- rewrite (Hother i Hi).
  change (selected selecting) with ({[ 2%Z := true ]} : gmap Z bool).
  apply lookup_singleton_ne. intros E. apply Hi. by rewrite <- E.
Defined.

End SelectionExamples.

(** ** The names that carry a type hint *)

Lemma string_last (s : string) :
  s = EmptyString ∨ ∃ s0 c, s = s0 +:+ String c EmptyString.
Proof.
  induction s as [|a s IH]; [by left|]. right.
  destruct IH as [->|(s0 & c & ->)].
  - by exists EmptyString, a.
  - by exists (String a s0), c.
Qed.

Lemma string_last_inj (s0 s1 : string) (c d : ascii) :
  s0 +:+ String c EmptyString = s1 +:+ String d EmptyString →
  s0 = s1 ∧ c = d.
Proof.
  revert s1. induction s0 as [|a s0 IH]; intros [|b s1];
    rewrite ?append_cons; simpl.
  - by intros [= ->].
  - intros [= -> Hs]. by destruct s1.
  - intros [= -> Hs]. by destruct s0.
  - intros [= -> Hs]. apply IH in Hs as [-> ->]. done.
Qed.

Lemma HasSuffix_one (s : string) (c : ascii) :
  Go.HasSuffix s (String c EmptyString) = true
  ↔ ∃ s0, s = s0 +:+ String c EmptyString.
Proof.
  unfold Go.HasSuffix, String.rev.
  change (String.rev_app (String c EmptyString) EmptyString)
    with (String c EmptyString).
  rewrite prefix_one. destruct (string_last s) as [->|(s0 & d & ->)].
  - split; [done|]. intros [s0 Hs0]. by destruct s0.
  - rewrite rev_app_app.
    change (String.rev_app (String d EmptyString)
              (String.rev_app s0 EmptyString))
      with (String d (String.rev_app s0 EmptyString)).
    rewrite Ascii.eqb_eq. split.
    + intros ->. by exists s0.
    + intros [s1 Hs1]. by apply string_last_inj in Hs1 as [_ ->].
Qed.

Lemma substring_app_l (a x : string) :
  substring 0 (String.length a) (a +:+ x) = a.
Proof.
  induction a as [|c a IH]; [by destruct x|].
  rewrite append_cons. simpl. by rewrite IH.
Qed.

Lemma substring_app_r (a x : string) :
  substring (String.length a) (String.length x) (a +:+ x) = x.
Proof.
  induction a as [|c a IH]; [apply substring_whole|].
  rewrite append_cons. simpl. exact IH.
Qed.

Lemma TrimSuffix_one (x : string) (c : ascii) :
  Go.TrimSuffix (x +:+ String c EmptyString) (String c EmptyString) = x.
Proof.
  unfold Go.TrimSuffix.
  rewrite (proj2 (HasSuffix_one _ c)) by (by exists x).
  unfold Go.slice_to, Go.slice, Go.len. rewrite append_length.
  change (String.length (String c EmptyString)) with 1%nat.
  replace (Z.to_nat (Z.of_nat (String.length x + 1) - Z.of_nat 1 - 0))
    with (String.length x) by lia.
  change (Z.to_nat 0) with 0%nat. apply substring_app_l.
Qed.

Lemma LastIndex_from_spec (s : string) (c : ascii) (i : Z) :
  (0 ≤ i)%Z →
  (Go.LastIndex_from s (String c EmptyString) i = (-1)%Z
   ∧ has_byte c s = false)
  ∨ (∃ a b, s = a +:+ String c b ∧ has_byte c b = false
            ∧ Go.LastIndex_from s (String c EmptyString) i
              = (i + Go.len a)%Z).
Proof.
  revert i. induction s as [|d s IH]; intros i Hi.
  - left. by split.
  - cbn [Go.LastIndex_from]. rewrite prefix_one.
    destruct (IH (i + 1)%Z ltac:(lia)) as [[Hr Hfree]|(a & b & -> & Hb & Hr)].
    + rewrite Hr. simpl Z.eqb. cbv iota.
      destruct (Ascii.eqb d c) eqn:Hd.
      * apply Ascii.eqb_eq in Hd as ->. right.
        exists EmptyString, s. split; [done|]. split; [done|].
        unfold Go.len. simpl. lia.
      * left. split; [done|]. simpl. by rewrite Hd, Hfree.
    + rewrite Hr. right. exists (String d a), b. split; [done|].
      split; [done|].
      assert ((i + 1 + Go.len a =? -1)%Z = false) as ->.
      { apply Z.eqb_neq. unfold Go.len. lia. }
      unfold Go.len. simpl String.length. lia.
Qed.

Lemma last_occurrence_unique (c : ascii) (a a' b b' : string) :
  a +:+ String c b = a' +:+ String c b' →
  has_byte c b = false → has_byte c b' = false →
  a = a' ∧ b = b'.
Proof.
  revert a'. induction a as [|d a IH]; intros [|d' a'];
    rewrite ?append_cons; simpl.
  - by intros [= ->].
  - intros [= <- ->] Hb _. rewrite has_byte_app in Hb. simpl in Hb.
    rewrite Ascii.eqb_refl, orb_true_r in Hb. done.
  - intros [= -> <-] _ Hb. rewrite has_byte_app in Hb. simpl in Hb.
    rewrite Ascii.eqb_refl, orb_true_r in Hb. done.
  - intros [= -> Hs] Hb Hb'. by destruct (IH _ Hs Hb Hb') as [-> ->].
Qed.

Lemma splitTypeHint_form (clean hint : string) :
  has_byte "<" hint = false →
  splitTypeHint (clean +:+ "<" +:+ hint +:+ ">") = Some (clean, hint).
Proof.
  intros Hhint. unfold splitTypeHint, Go.LastIndex.
  set (key := clean +:+ "<" +:+ hint +:+ ">").
  assert (has_byte "<" (hint +:+ ">") = false) as Hb
    by (by rewrite has_byte_app, Hhint).
  destruct (LastIndex_from_spec key "<" 0 ltac:(lia))
    as [[_ Hfree]|(a & b & Hkey & Hfree & ->)].
  { unfold key in Hfree. rewrite has_byte_app in Hfree. simpl in Hfree.
    by rewrite orb_true_r in Hfree. }
  destruct (last_occurrence_unique "<" clean a (hint +:+ ">") b)
    as [<- <-]; [exact Hkey|done|done|].
  assert ((0 + Go.len clean =? -1)%Z = false) as ->.
  { apply Z.eqb_neq. unfold Go.len. lia. }
  assert (Go.HasSuffix key ">" = true) as ->.
  { apply HasSuffix_one. exists (clean +:+ "<" +:+ hint).
    unfold key. by rewrite !append_assoc. }
  cbn [negb andb]. do 2 f_equal.
  - unfold Go.slice_to, Go.slice.
    replace (Z.to_nat (0 + Go.len clean - 0)) with (String.length clean)
      by (unfold Go.len; lia).
    apply substring_app_l.
  - unfold Go.slice_from, Go.slice.
    replace (Z.to_nat (0 + Go.len clean + 1))
      with (String.length (clean +:+ "<"))
      by (rewrite append_length; unfold Go.len; simpl; lia).
    replace (Z.to_nat (Go.len key - (0 + Go.len clean + 1)))
      with (String.length (hint +:+ ">")).
    2:{ unfold key, Go.len. rewrite !append_length. simpl. lia. }
    replace key with ((clean +:+ "<") +:+ (hint +:+ ">"))
      by (unfold key; by rewrite !append_assoc).
    rewrite substring_app_r. apply (TrimSuffix_one hint ">"%char).
Qed.

(** X27. The names that carry a type hint are those of the form
    [name<TYPE>] where [TYPE] holds no [<]: such a name is split into what
    comes before its last [<] and what stands between that [<] and the
    final [>], and no other name is split. So the type of a hint may be
    empty or hold a [>], and the name in front of it may itself end in a
    hint. *)
Theorem hinted_names (key cleanKey typeHint : string) :
  splitTypeHint key = Some (cleanKey, typeHint)
  ↔ key = cleanKey +:+ "<" +:+ typeHint +:+ ">"
    ∧ has_byte "<" typeHint = false.
Proof.
  split; [|by intros [-> Hhint]; apply splitTypeHint_form].
  intros Hsplit.
  assert (∃ a hint, key = a +:+ "<" +:+ hint +:+ ">"
                    ∧ has_byte "<" hint = false)
    as (a & hint & -> & Hhint).
  { unfold splitTypeHint, Go.LastIndex in Hsplit.
    destruct (LastIndex_from_spec key "<" 0 ltac:(lia))
      as [[Hr _]|(a & b & -> & Hfree & _)].
    { by rewrite Hr in Hsplit. }
    destruct (negb _) in Hsplit; [|done]. cbn [andb] in Hsplit.
    destruct (Go.HasSuffix (a +:+ String "<" b) ">") eqn:Hsuf; [|done].
    apply HasSuffix_one in Hsuf as [k Hk].
    destruct (string_last b) as [->|(b0 & d & ->)].
    - change (a +:+ String "<" EmptyString = k +:+ String ">" EmptyString)
        in Hk.
      by apply string_last_inj in Hk as [_ [=]].
    - change (a +:+ String "<" (b0 +:+ String d EmptyString))
        with (a +:+ "<" +:+ b0 +:+ String d EmptyString) in Hk.
      rewrite <- !append_assoc in Hk.
      apply string_last_inj in Hk as [_ ->].
      rewrite has_byte_app in Hfree.
      apply orb_false_iff in Hfree as [Hhint _]. by exists a, b0. }
  rewrite (splitTypeHint_form a hint Hhint) in Hsplit.
  by injection Hsplit as <- <-.
Qed.

(** ** A second round trip *)

Section StableFacts.
Context `{GoLib}.


End StableFacts.


Section StableExamples.
Local Existing Instance Ref.lib.


End StableExamples.
